(** * RTOS task scheduler and real-time task selection

    A shallow embedding of

    - [Part-1/Ch-2-OS-Architecture-Patterns/src/rtos.c]: the binary-heap
      ready queue ([priority_queue_insert], [priority_queue_extract]) and
      the tick-driven kernel ([rtos_create_task], [schedule_next_task],
      [rtos_tick_handler], [rtos_block_task], [rtos_start]);
    - [Part-2/Ch-6-CPU-Scheduling/src/realtime_scheduling_demo.c]: the task
      table of the real-time demo ([add_rt_task], [release_periodic_tasks],
      [select_rms_task]), its schedulability analysis
      ([check_rms_schedulability], [check_edf_schedulability]), its
      hyperperiod arithmetic ([gcd], [lcm], [calculate_hyperperiod]) and its
      simulation loop ([reset_rt_scheduler], [check_deadlines],
      [select_edf_task], [execute_task], [simulate_rms_scheduling],
      [simulate_edf_scheduling]).

    Conventions.  A [uint32_t] that carries a value (priority, deadline, tick
    counter, timeout, switch counter) is a [Z] in [0, 2^32) and every
    increment and subtraction is written with its wrap-around.  Array
    indices and task ids, which the code keeps below [MAX_TASKS], are [nat].
    A [TCB*] held by the ready queue is a handle: the slot of the task in
    [kernel.tasks].  A [double] is a binary64 [float].  An [int] of the
    demo is a [Z]; where its arithmetic could leave the range of [int]
    the statements carry the bounds that keep it inside.  The outcome of
    each [malloc] is an input of [rtos_create_task]. *)

From Stdlib Require Import ZArith Lia Bool List Floats.
From Stdlib Require Uint63 QArith.
From stdpp Require Import base numbers list.
Import ListNotations.

Local Open Scope Z_scope.

(** [UINT32_MAX + 1]. *)
Definition UINT32_MOD : Z := 2 ^ 32.

(** [x + 1] on a [uint32_t]. *)
Definition u32_incr (x : Z) : Z := (x + 1) mod UINT32_MOD.

(** [a - b] on [uint32_t] operands. *)
Definition u32_sub (a b : Z) : Z := (a - b) mod UINT32_MOD.

(** [#define MAX_TASKS 32] *)
Definition MAX_TASKS : nat := 32.

(** ** The ready queue: a binary heap stored in an array *)

Module Heap.
Section PriorityQueue.

(** The queue stores [TCB*]; it only ever reads [->priority] and
    [->deadline] through them. *)
Variable TCBp : Type.
Variable priority : TCBp -> Z.
Variable deadline : TCBp -> Z.

(** [typedef struct { TCB* tasks[MAX_TASKS]; uint32_t size; } PriorityQueue;]
    The array is a map from index to content.  The declared storage is
    the slots [0 .. MAX_TASKS-1]; the index of every array access is
    recorded by [insert_trace] below so that accesses outside the
    declared storage are visible.  A queue describes the C object as
    long as every access so far was inside the declared storage
    ([insert_in_bounds]); an access outside it is undefined in C (the
    slot after the array is where [size] is kept) and nothing is claimed
    of a queue obtained through one. *)
Record PriorityQueue : Type := mkQueue {
  tasks : nat -> TCBp;
  size : nat
}.

(** [a[i] = x] *)
Definition store (a : nat -> TCBp) (i : nat) (x : TCBp) : nat -> TCBp :=
  fun j => if Nat.eqb j i then x else a j.

(** [queue->size = 0;] the slots are left as they are. *)
Definition priority_queue_init (queue : PriorityQueue) : PriorityQueue :=
  {| tasks := tasks queue; size := 0 |}.

(** The loop of [priority_queue_insert]:
<<
    while (i > 0) {
        uint32_t parent = (i - 1) / 2;
        if (queue->tasks[parent]->priority >= task->priority &&
            queue->tasks[parent]->deadline <= task->deadline)
            break;
        queue->tasks[i] = queue->tasks[parent];
        i = parent;
    }
>>
    It returns the array, the final [i] and the indices of the slots read
    and written, in program order.  [parent < i], so [fuel = i] iterations
    are enough ([sift_up_fuel]). *)
Fixpoint sift_up (fuel : nat) (a : nat -> TCBp) (i : nat) (task : TCBp)
  : (nat -> TCBp) * nat * list nat :=
  match fuel with
  | O => (a, i, [])
  | S fuel' =>
      if Nat.eqb i 0 then (a, i, [])
      else
        let parent := ((i - 1) / 2)%nat in
        if (priority (a parent) >=? priority task)
           && (deadline (a parent) <=? deadline task)
        then (a, i, [parent])
        else
          let '(a', i', tr) := sift_up fuel' (store a i (a parent)) parent task in
          (a', i', parent :: parent :: i :: tr)
  end.

(** [void priority_queue_insert(PriorityQueue* queue, TCB* task)]:
    [i = queue->size++], the loop, then [queue->tasks[i] = task].
    There is no capacity test and no result.  The queue returned is the
    C object after the call when the call stays in bounds, which is the
    case exactly when [size queue < MAX_TASKS]. *)
Definition insert_run (queue : PriorityQueue) (task : TCBp)
  : PriorityQueue * list nat :=
  let i := size queue in
  let '(a, i', tr) := sift_up i (tasks queue) i task in
  ({| tasks := store a i' task; size := S (size queue) |}, tr ++ [i']).

Definition priority_queue_insert (queue : PriorityQueue) (task : TCBp)
  : PriorityQueue := fst (insert_run queue task).

(** The array indices [priority_queue_insert] reads and writes. *)
Definition insert_trace (queue : PriorityQueue) (task : TCBp) : list nat :=
  snd (insert_run queue task).


(** The loop of [priority_queue_extract]:
<<
    while (i * 2 + 1 < queue->size) {
        uint32_t left = i * 2 + 1;
        uint32_t right = left + 1;
        uint32_t highest_priority = left;
        if (right < queue->size &&
            (queue->tasks[right]->priority > queue->tasks[left]->priority ||
             (queue->tasks[right]->priority == queue->tasks[left]->priority &&
              queue->tasks[right]->deadline < queue->tasks[left]->deadline)))
            highest_priority = right;
        if (last->priority > queue->tasks[highest_priority]->priority ||
            (last->priority == queue->tasks[highest_priority]->priority &&
             last->deadline <= queue->tasks[highest_priority]->deadline))
            break;
        queue->tasks[i] = queue->tasks[highest_priority];
        i = highest_priority;
    }
>>
    [n] is [queue->size] after the decrement.  [i] grows at every
    iteration and stays below [n], so [fuel = n] is enough
    ([sift_down_fuel]). *)
Fixpoint sift_down (fuel : nat) (a : nat -> TCBp) (n : nat) (last : TCBp)
  (i : nat) : (nat -> TCBp) * nat :=
  match fuel with
  | O => (a, i)
  | S fuel' =>
      if negb (Nat.ltb (i * 2 + 1) n) then (a, i)
      else
        let left := (i * 2 + 1)%nat in
        let right := (left + 1)%nat in
        let highest_priority :=
          if Nat.ltb right n
             && ((priority (a right) >? priority (a left))
                 || ((priority (a right) =? priority (a left))
                     && (deadline (a right) <? deadline (a left))))
          then right else left in
        if (priority last >? priority (a highest_priority))
           || ((priority last =? priority (a highest_priority))
               && (deadline last <=? deadline (a highest_priority)))
        then (a, i)
        else sift_down fuel' (store a i (a highest_priority)) n last
                       highest_priority
  end.

(** [TCB* priority_queue_extract(PriorityQueue* queue)]; [None] is the
    [NULL] returned on an empty queue. *)
Definition priority_queue_extract (queue : PriorityQueue)
  : option TCBp * PriorityQueue :=
  if Nat.eqb (size queue) 0 then (None, queue)
  else
    let result := tasks queue 0%nat in
    let n := (size queue - 1)%nat in
    let last := tasks queue n in
    let '(a, i) := sift_down n (tasks queue) n last 0%nat in
    (Some result,
     {| tasks := if Nat.ltb 0 n then store a i last else a; size := n |}).

(** Insert a sequence of tasks, in order. *)
Definition insert_all (queue : PriorityQueue) (ts : list TCBp) : PriorityQueue :=
  fold_left priority_queue_insert ts queue.

(** Call [priority_queue_extract] until it returns [NULL]; the results in
    the order they come out.  A queue of size [n] is empty after [n]
    extractions. *)
Fixpoint drain_fuel (fuel : nat) (queue : PriorityQueue) : list TCBp :=
  match fuel with
  | O => []
  | S fuel' =>
      match priority_queue_extract queue with
      | (None, _) => []
      | (Some t, queue') => t :: drain_fuel fuel' queue'
      end
  end.

Definition drain (queue : PriorityQueue) : list TCBp :=
  drain_fuel (size queue) queue.

(** The order the ready queue is meant to deliver: [x] may come out
    before [y] when it has the higher priority or, at equal priority, a
    deadline that is not later. *)
Definition ranks_before (x y : TCBp) : bool :=
  (priority y <? priority x)
  || ((priority x =? priority y) && (deadline x <=? deadline y)).

Fixpoint in_heap_order (l : list TCBp) : bool :=
  match l with
  | x :: ((y :: _) as l') => ranks_before x y && in_heap_order l'
  | _ => true
  end.

(** The entries of the queue: [tasks[0], ..., tasks[size-1]]. *)
Definition contents (queue : PriorityQueue) : list TCBp :=
  map (tasks queue) (seq 0 (size queue)).

(** The test on which the insertion loop stops: the parent [p] has a
    priority that is not lower and a deadline that is not later than those
    of the task [x]. *)
Definition dominates (p x : TCBp) : Prop :=
  priority x <= priority p /\ deadline p <= deadline x.

(** Every entry but the root is dominated by its parent. *)
Definition heap_ordered (a : nat -> TCBp) (n : nat) : Prop :=
  forall j, (0 < j < n)%nat -> dominates (a ((j - 1) / 2)%nat) (a j).

End PriorityQueue.

Arguments mkQueue {TCBp}.
Arguments tasks {TCBp}.
Arguments size {TCBp}.
Arguments store {TCBp}.
Arguments priority_queue_init {TCBp}.
Arguments contents {TCBp}.

End Heap.

(** A queue element for stating facts about the heap alone: the pair
    [(priority, deadline)] of a task. *)
Definition key_queue : Heap.PriorityQueue (Z * Z) :=
  Heap.priority_queue_init (Heap.mkQueue (fun _ => (0, 0)) 0).


(** Exchange of the indices [i] and [p]. *)
Definition swap_index (i p j : nat) : nat :=
  if Nat.eqb j i then p else if Nat.eqb j p then i else j.

(** ** The kernel *)

Module Rtos.

(** [typedef enum { TASK_READY, TASK_RUNNING, TASK_BLOCKED, TASK_SUSPENDED } TaskState;] *)
Inductive TaskState : Type :=
  | TASK_READY
  | TASK_RUNNING
  | TASK_BLOCKED
  | TASK_SUSPENDED.

Definition TaskState_eqb (a b : TaskState) : bool :=
  match a, b with
  | TASK_READY, TASK_READY
  | TASK_RUNNING, TASK_RUNNING
  | TASK_BLOCKED, TASK_BLOCKED
  | TASK_SUSPENDED, TASK_SUSPENDED => true
  | _, _ => false
  end.

(** The task control block.  [function], [parameters], [stack_pointer] and
    [name] take no part in any scheduling decision and are left out. *)
Record TCB : Type := mkTCB {
  id : nat;
  priority : Z;
  deadline : Z;
  period : Z;
  state : TaskState;
  blocked_tick : Z;
  timeout : Z;
  run_count : Z
}.

(** The kernel singleton.  [tasks] is the prefix [kernel.tasks[0 ..
    num_tasks-1]] of the task array; the slots from [num_tasks] on hold
    [NULL] since [rtos_init], so [kernel.tasks[i]] is [tasks !! i] with
    [None] for [NULL], and [num_tasks] is the length of the list. *)
Record RTOS_Kernel : Type := mkKernel {
  tasks : list TCB;
  current_task : nat;
  tick_count : Z;
  scheduler_running : bool;
  total_switches : Z
}.

Definition num_tasks (k : RTOS_Kernel) : nat := length (tasks k).

(** Field updates through a [TCB*]. *)
Definition set_state (s : TaskState) (t : TCB) : TCB :=
  mkTCB (id t) (priority t) (deadline t) (period t) s
        (blocked_tick t) (timeout t) (run_count t).

Definition set_blocked (tick tmo : Z) (t : TCB) : TCB :=
  mkTCB (id t) (priority t) (deadline t) (period t) TASK_BLOCKED
        tick tmo (run_count t).

Definition incr_run_count (t : TCB) : TCB :=
  mkTCB (id t) (priority t) (deadline t) (period t) (state t)
        (blocked_tick t) (timeout t) (u32_incr (run_count t)).

Definition with_tasks (ts : list TCB) (k : RTOS_Kernel) : RTOS_Kernel :=
  mkKernel ts (current_task k) (tick_count k) (scheduler_running k)
           (total_switches k).

Definition with_current (c : nat) (k : RTOS_Kernel) : RTOS_Kernel :=
  mkKernel (tasks k) c (tick_count k) (scheduler_running k) (total_switches k).

Definition incr_switches (k : RTOS_Kernel) : RTOS_Kernel :=
  mkKernel (tasks k) (current_task k) (tick_count k) (scheduler_running k)
           (u32_incr (total_switches k)).

(** [void rtos_init(void)] *)
Definition rtos_init : RTOS_Kernel :=
  {| tasks := []; current_task := 0%nat; tick_count := 0;
     scheduler_running := false; total_switches := 0 |}.

(** [int rtos_create_task(name, function, parameters, priority, deadline,
    period)].  The call allocates twice; [tcb_ok] and [stack_ok] tell
    whether [malloc(sizeof(TCB))] and [malloc(TASK_STACK_SIZE)] return a
    block.  The result is the new id, or [-1] when the table is full or an
    allocation fails; on the second failure the block of the first is
    freed, so a failed call leaves the kernel as it was. *)
Definition rtos_create_task (tcb_ok stack_ok : bool) (prio dl per : Z)
  (k : RTOS_Kernel) : Z * RTOS_Kernel :=
  if Nat.leb MAX_TASKS (num_tasks k) then (-1, k)
  else if negb tcb_ok then (-1, k)
  else
    let new_task :=
      {| id := num_tasks k; priority := prio; deadline := dl; period := per;
         state := TASK_READY; blocked_tick := 0; timeout := 0;
         run_count := 0 |} in
    if negb stack_ok then (-1, k)
    else (Z.of_nat (id new_task), with_tasks (tasks k ++ [new_task]) k).

(** [h->priority], [h->deadline] and [h->id] for a handle [h]. *)
Definition priority_of (k : RTOS_Kernel) (h : nat) : Z :=
  match tasks k !! h with Some t => priority t | None => 0 end.

Definition deadline_of (k : RTOS_Kernel) (h : nat) : Z :=
  match tasks k !! h with Some t => deadline t | None => 0 end.

Definition id_of (k : RTOS_Kernel) (h : nat) : nat :=
  match tasks k !! h with Some t => id t | None => 0%nat end.

Definition is_ready (k : RTOS_Kernel) (h : nat) : bool :=
  match tasks k !! h with
  | Some t => TaskState_eqb (state t) TASK_READY
  | None => false
  end.

(** [static PriorityQueue ready_queue;] in [schedule_next_task].  Every
    call starts with [priority_queue_init], and the queue code writes a slot
    before it reads it, so what an earlier call left in the slots is never
    observed. *)
Definition ready_queue : Heap.PriorityQueue nat :=
  Heap.mkQueue (fun _ => 0%nat) 0.

(** The first loop of [schedule_next_task]: the queue after the tasks in
    slots [0 .. n-1] have been looked at. *)
Definition fill_ready_queue (k : RTOS_Kernel) (n : nat) : Heap.PriorityQueue nat :=
  fold_left
    (fun q i =>
       if is_ready k i
       then Heap.priority_queue_insert nat (priority_of k) (deadline_of k) q i
       else q)
    (seq 0 n) (Heap.priority_queue_init ready_queue).

(** [TCB* schedule_next_task(void)]: the handle selected, if any, and the
    kernel after [next_task->state = TASK_RUNNING; kernel.current_task =
    next_task->id]. *)
Definition schedule_next_task (k : RTOS_Kernel) : option nat * RTOS_Kernel :=
  let q := fill_ready_queue k (num_tasks k) in
  match fst (Heap.priority_queue_extract nat (priority_of k) (deadline_of k) q) with
  | Some next_task =>
      (Some next_task,
       with_current (id_of k next_task)
         (with_tasks (alter (set_state TASK_RUNNING) next_task (tasks k)) k))
  | None => (None, k)
  end.

(** [void simulate_task_execution(TCB* task)]: [task->run_count++], then
    the task body.  The body is the caller's code; it is taken to return
    without calling into the kernel.  Every caller invokes
    [simulate_task_execution] as its last action, so a body that does call
    [rtos_block_task] behaves as that call issued right after the
    operation. *)
Definition simulate_task_execution (h : nat) (k : RTOS_Kernel) : RTOS_Kernel :=
  with_tasks (alter incr_run_count h (tasks k)) k.

(** Schedule, and on success count a switch and run the task: the
    sequence shared by [rtos_tick_handler] and [rtos_block_task],
<<
      TCB* next = schedule_next_task();
      if (next) { kernel.total_switches++; simulate_task_execution(next); }
>> *)
Definition dispatch_next (k : RTOS_Kernel) : RTOS_Kernel :=
  match schedule_next_task k with
  | (Some next, k') => simulate_task_execution next (incr_switches k')
  | (None, k') => k'
  end.

(** [kernel.tick_count++] *)
Definition advance_tick (k : RTOS_Kernel) : RTOS_Kernel :=
  mkKernel (tasks k) (current_task k) (u32_incr (tick_count k))
           (scheduler_running k) (total_switches k).

(** The test of the "check blocked tasks" loop on one task. *)
Definition timeout_expired (now : Z) (t : TCB) : bool :=
  u32_sub now (blocked_tick t) >=? timeout t.

Definition unblock (now : Z) (t : TCB) : TCB :=
  if TaskState_eqb (state t) TASK_BLOCKED && timeout_expired now t
  then set_state TASK_READY t else t.

(** The "check blocked tasks" loop of [rtos_tick_handler]. *)
Definition unblock_pass (k : RTOS_Kernel) : RTOS_Kernel :=
  with_tasks (map (unblock (tick_count k)) (tasks k)) k.

(** The scan "is any higher priority task ready". *)
Definition should_preempt (k : RTOS_Kernel) (current : TCB) : bool :=
  existsb
    (fun t => TaskState_eqb (state t) TASK_READY
              && (priority t >? priority current))
    (tasks k).

(** The part of [rtos_tick_handler] after the unblock loop. *)
Definition preempt_or_dispatch (k : RTOS_Kernel) : RTOS_Kernel :=
  match tasks k !! current_task k with
  | Some current =>
      if TaskState_eqb (state current) TASK_RUNNING then
        if should_preempt k current then
          dispatch_next
            (with_tasks (alter (set_state TASK_READY) (current_task k) (tasks k)) k)
        else simulate_task_execution (current_task k) k
      else dispatch_next k
  | None => dispatch_next k
  end.

(** [void rtos_tick_handler(void)] *)
Definition rtos_tick_handler (k : RTOS_Kernel) : RTOS_Kernel :=
  preempt_or_dispatch (unblock_pass (advance_tick k)).

(** [void rtos_block_task(uint32_t timeout)] *)
Definition rtos_block_task (tmo : Z) (k : RTOS_Kernel) : RTOS_Kernel :=
  match tasks k !! current_task k with
  | Some _ =>
      dispatch_next
        (with_tasks
           (alter (set_blocked (tick_count k) tmo) (current_task k) (tasks k)) k)
  | None => k
  end.

(** [void rtos_start(void)]: the first task is scheduled and run;
    [total_switches] is not touched. *)
Definition rtos_start (k : RTOS_Kernel) : RTOS_Kernel :=
  let k1 := mkKernel (tasks k) (current_task k) (tick_count k) true
                     (total_switches k) in
  match schedule_next_task k1 with
  | (Some first_task, k') => simulate_task_execution first_task k'
  | (None, k') => k'
  end.

(** The operations of the scheduler interface, and runs of them.
    [create_task] is a call of [rtos_create_task] both of whose allocations
    succeed; [create_task_no_memory] is a call in which one fails: the
    first when [tcb_ok] is [false], the second otherwise. *)
Inductive op : Type :=
  | create_task (prio dl per : Z)
  | tick
  | block_current (tmo : Z)
  | create_task_no_memory (tcb_ok : bool) (prio dl per : Z).

Definition step (k : RTOS_Kernel) (o : op) : RTOS_Kernel :=
  match o with
  | create_task prio dl per => snd (rtos_create_task true true prio dl per k)
  | tick => rtos_tick_handler k
  | block_current tmo => rtos_block_task tmo k
  | create_task_no_memory tcb_ok prio dl per =>
      snd (rtos_create_task tcb_ok false prio dl per k)
  end.

Definition run (ops : list op) (k : RTOS_Kernel) : RTOS_Kernel :=
  fold_left step ops k.

(** [n] calls of [rtos_tick_handler]. *)
Fixpoint ticks (n : nat) (k : RTOS_Kernel) : RTOS_Kernel :=
  match n with
  | O => k
  | S n' => rtos_tick_handler (ticks n' k)
  end.

Definition is_running (t : TCB) : bool := TaskState_eqb (state t) TASK_RUNNING.

(** The number of tasks with [state == TASK_RUNNING]. *)
Definition running_count (k : RTOS_Kernel) : nat :=
  length (List.filter is_running (tasks k)).

(** The slot of the task with [state == TASK_RUNNING] that comes first in
    the table, if there is one. *)
Definition running_slot (k : RTOS_Kernel) : option nat :=
  List.find
    (fun i => match tasks k !! i with
              | Some t => is_running t
              | None => false
              end)
    (seq 0 (num_tasks k)).

(** Task ids are table slots. *)
Definition ids_ok (k : RTOS_Kernel) : Prop :=
  forall i t, tasks k !! i = Some t -> id t = i.

(** Only the task named by [current_task] can be running. *)
Definition running_is_current (k : RTOS_Kernel) : Prop :=
  forall i t, tasks k !! i = Some t -> state t = TASK_RUNNING ->
              i = current_task k.

Definition none_running (k : RTOS_Kernel) : Prop :=
  forall i t, tasks k !! i = Some t -> state t <> TASK_RUNNING.

(** The fields of a task that are fixed when it is created. *)
Definition static_fields (t : TCB) : nat * Z * Z * Z :=
  (id t, priority t, deadline t, period t).

(** The number of [tick] calls and of [rtos_create_task] calls whose
    allocations succeed in a run. *)
Definition count_ticks (ops : list op) : nat :=
  length (List.filter (fun o => match o with tick => true | _ => false end) ops).

Definition count_creates (ops : list op) : nat :=
  length (List.filter
            (fun o => match o with create_task _ _ _ => true | _ => false end)
            ops).

Definition count_blocks (ops : list op) : nat :=
  length (List.filter
            (fun o => match o with block_current _ => true | _ => false end)
            ops).

(** A run that only creates tasks, one for each triple (priority, deadline,
    period). *)
Definition create_all (specs : list (Z * Z * Z)) : list op :=
  map (fun s => create_task (fst (fst s)) (snd (fst s)) (snd s)) specs.

(** How the run count of the task in a slot moves over an operation: up
    by one when the task is Running afterwards, not at all otherwise. *)
Definition run_count_step (k k' : RTOS_Kernel) : Prop :=
  forall j t', tasks k' !! j = Some t' ->
    exists t, tasks k !! j = Some t
              /\ run_count t'
                 = if is_running t' then u32_incr (run_count t) else run_count t.

(** No task is Ready. *)
Definition no_ready (k : RTOS_Kernel) : Prop :=
  forall i t, tasks k !! i = Some t -> state t <> TASK_READY.

(** What every run of the interface keeps true. *)
Definition kernel_inv (k : RTOS_Kernel) : Prop :=
  ids_ok k /\ running_is_current k /\ (num_tasks k <= MAX_TASKS)%nat.

(** The three tasks of the example scenario, created in the order A, B, C. *)
Definition scenario : RTOS_Kernel :=
  run [create_task 1 1000 1000; create_task 3 2000 2000;
       create_task 2 1500 1500] rtos_init.

End Rtos.

(** ** The task table of the real-time scheduling demo *)

Module RtDemo.

(** [#define MAX_RT_TASKS 10] *)
Definition MAX_RT_TASKS : nat := 10.

(** [INT_MAX] of [<limits.h>] for the 32-bit [int] of the demo. *)
Definition INT_MAX : Z := 2147483647.

(** [(double)i] for an [int]: every 32-bit integer is a [double], so the
    conversion is exact. *)
Definition double_of_int (i : Z) : float :=
  if i <? 0 then PrimFloat.opp (PrimFloat.of_uint63 (Uint63.of_Z (- i)))
  else PrimFloat.of_uint63 (Uint63.of_Z i).

(** [rt_task_t].  The [int] fields are kept as [Z]; signed overflow is
    undefined in C and is not given a meaning here.  A [double] is a
    binary64 [float]; its operations round to nearest as those of the
    machine do.  [name] is left out. *)
Record rt_task_t : Type := mkTask {
  id : Z;
  period : Z;
  execution_time : Z;
  deadline : Z;
  priority : Z;
  next_release : Z;
  next_deadline : Z;
  remaining_execution : Z;
  instances_released : Z;
  instances_completed : Z;
  instances_missed : Z;
  utilization : float;
  active : bool;
  deadline_missed : bool
}.

(** [rt_scheduler_t].  [tasks] is [scheduler->tasks[0 .. task_count-1]]. *)
Record rt_scheduler_t : Type := mkScheduler {
  tasks : list rt_task_t;
  current_time : Z;
  hyperperiod : Z;
  total_utilization : float;
  total_deadline_misses : Z;
  total_preemptions : Z;
  schedulable : bool
}.

Definition task_count (s : rt_scheduler_t) : nat := length (tasks s).

(** [void initialize_rt_scheduler(rt_scheduler_t *scheduler)] *)
Definition initialize_rt_scheduler : rt_scheduler_t :=
  {| tasks := []; current_time := 0; hyperperiod := 0;
     total_utilization := 0%float;
     total_deadline_misses := 0; total_preemptions := 0;
     schedulable := false |}.

(** [void add_rt_task(scheduler, id, name, period, exec_time, deadline)] *)
Definition add_rt_task (s : rt_scheduler_t) (id_ period_ exec_time deadline_ : Z)
  : rt_scheduler_t :=
  if Nat.ltb (task_count s) MAX_RT_TASKS then
    let dl := if deadline_ =? 0 then period_ else deadline_ in
    let task :=
      {| id := id_; period := period_; execution_time := exec_time;
         deadline := dl; priority := period_; next_release := 0;
         next_deadline := dl; remaining_execution := 0;
         instances_released := 0; instances_completed := 0;
         instances_missed := 0;
         utilization :=
           PrimFloat.div (double_of_int exec_time) (double_of_int period_);
         active := false; deadline_missed := false |} in
    mkScheduler (tasks s ++ [task]) (current_time s) (hyperperiod s)
                (PrimFloat.add (total_utilization s) (utilization task))
                (total_deadline_misses s) (total_preemptions s)
                (schedulable s)
  else s.

(** [bool check_rms_schedulability(rt_scheduler_t *scheduler)]:
<<
    int n = scheduler->task_count;
    double utilization_bound = n * (pow(2.0, 1.0/n) - 1.0);
    if (scheduler->total_utilization <= utilization_bound) return true;
    else return false;
>>
    [pow] is the function of the C library; it is a parameter here.  The
    result is the value returned and the scheduler after the call. *)
Definition check_rms_schedulability (pow : float -> float -> float)
  (s : rt_scheduler_t) : bool * rt_scheduler_t :=
  let n := double_of_int (Z.of_nat (task_count s)) in
  let utilization_bound :=
    PrimFloat.mul n
      (PrimFloat.sub (pow 2%float (PrimFloat.div 1%float n)) 1%float) in
  (PrimFloat.leb (total_utilization s) utilization_bound, s).

(** [bool check_edf_schedulability(rt_scheduler_t *scheduler)]:
    [scheduler->total_utilization <= 1.0]. *)
Definition check_edf_schedulability (s : rt_scheduler_t)
  : bool * rt_scheduler_t :=
  (PrimFloat.leb (total_utilization s) 1%float, s).

(** The test [task->active && task->remaining_execution > 0]. *)
Definition pending (task : rt_task_t) : bool :=
  active task && (0 <? remaining_execution task).

(** One iteration of the loop of [release_periodic_tasks]: the task
    afterwards, and whether a missed deadline was counted. *)
Definition release_task (now : Z) (task : rt_task_t) : rt_task_t * bool :=
  if next_release task <=? now then
    let missed := pending task in
    (mkTask (id task) (period task) (execution_time task) (deadline task)
            (priority task) (next_release task + period task)
            (now + deadline task) (execution_time task)
            (instances_released task + 1) (instances_completed task)
            (if missed then instances_missed task + 1 else instances_missed task)
            (utilization task) true false,
     missed)
  else (task, false).

(** [void release_periodic_tasks(rt_scheduler_t *scheduler)] *)
Definition release_periodic_tasks (s : rt_scheduler_t) : rt_scheduler_t :=
  let released := map (release_task (current_time s)) (tasks s) in
  mkScheduler (map fst released) (current_time s) (hyperperiod s)
              (total_utilization s)
              (total_deadline_misses s
               + Z.of_nat (length (List.filter snd released)))
              (total_preemptions s) (schedulable s).

(** One iteration of the loop of [select_rms_task], on the task in slot
    [i]; the state is [(selected, highest_priority)]. *)
Definition select_rms_step (acc : option nat * Z) (it : nat * rt_task_t)
  : option nat * Z :=
  let '(i, task) := it in
  if pending task then
    if priority task <? snd acc then (Some i, priority task) else acc
  else acc.

(** The loop of [select_rms_task] over the slots [base, base+1, ...]
    holding [ts]. *)
Definition select_rms_loop (base : nat) (ts : list rt_task_t)
  (acc : option nat * Z) : option nat * Z :=
  fold_left select_rms_step (combine (seq base (length ts)) ts) acc.

(** [rt_task_t *select_rms_task(rt_scheduler_t *scheduler)]: the slot of
    the selected task, [None] for [NULL]. *)
Definition select_rms_task (s : rt_scheduler_t) : option nat :=
  fst (select_rms_loop 0 (tasks s) (None, INT_MAX)).

(** [#define SIMULATION_TIME 100] and [#define HYPERPERIOD_LIMIT 1000] *)
Definition SIMULATION_TIME : Z := 100.
Definition HYPERPERIOD_LIMIT : Z := 1000.

(** [void generate_rt_workload(rt_scheduler_t *scheduler)] *)
Definition generate_rt_workload (s : rt_scheduler_t) : rt_scheduler_t :=
  add_rt_task
    (add_rt_task
       (add_rt_task
          (add_rt_task (add_rt_task s 1 10 3 10) 2 15 2 15) 3 25 4 25)
       4 30 5 30)
    5 50 3 50.

(** The loop of [gcd]: [while (b != 0) { temp = b; b = a % b; a = temp; }].
    [%] is the C remainder, [Z.rem].  The absolute value of [b] goes down at
    every iteration, so [|b| + 1] iterations are enough. *)
Fixpoint gcd_loop (fuel : nat) (a b : Z) : Z :=
  match fuel with
  | O => a
  | S fuel' => if b =? 0 then a else gcd_loop fuel' b (Z.rem a b)
  end.

(** [int gcd(int a, int b)] *)
Definition gcd (a b : Z) : Z := gcd_loop (S (Z.to_nat (Z.abs b))) a b.

(** [int lcm(int a, int b)]: [(a * b) / gcd(a, b)], with the C division
    [Z.quot].  This is the value the C function returns when the product
    [a * b] is an [int] and the divisor is not 0 ([lcm_in_range]); outside
    of that the C expression overflows or divides by zero and has no
    defined value, and nothing is claimed of [lcm] there. *)
Definition lcm (a b : Z) : Z := Z.quot (a * b) (gcd a b).

(** Arguments on which [lcm] is evaluated without overflow and without a
    division by zero: both positive, with a product that is an [int]. *)
Definition lcm_in_range (ab : Z * Z) : Prop :=
  0 < fst ab /\ 0 < snd ab /\ fst ab * snd ab <= INT_MAX.

(** The arguments of the calls of [lcm] that the loop of
    [calculate_hyperperiod] makes, in order. *)
Fixpoint hyperperiod_calls (hp : Z) (ts : list rt_task_t) : list (Z * Z) :=
  match ts with
  | [] => []
  | t :: ts' =>
      (hp, period t)
      :: (let hp' := lcm hp (period t) in
          if hp' >? HYPERPERIOD_LIMIT then []
          else hyperperiod_calls hp' ts')
  end.

(** The loop of [calculate_hyperperiod] over the tasks after the first. *)
Fixpoint hyperperiod_loop (hp : Z) (ts : list rt_task_t) : Z :=
  match ts with
  | [] => hp
  | t :: ts' =>
      let hp' := lcm hp (period t) in
      if hp' >? HYPERPERIOD_LIMIT then HYPERPERIOD_LIMIT
      else hyperperiod_loop hp' ts'
  end.

(** [int calculate_hyperperiod(rt_scheduler_t *scheduler)] *)
Definition calculate_hyperperiod (s : rt_scheduler_t) : Z :=
  match tasks s with
  | [] => 0
  | t0 :: ts => hyperperiod_loop (period t0) ts
  end.

(** The body of the loop of [reset_rt_scheduler]. *)
Definition reset_task (task : rt_task_t) : rt_task_t :=
  mkTask (id task) (period task) (execution_time task) (deadline task)
         (priority task) 0 (deadline task) 0 0 0 0 (utilization task)
         false false.

(** [void reset_rt_scheduler(rt_scheduler_t *scheduler)] *)
Definition reset_rt_scheduler (s : rt_scheduler_t) : rt_scheduler_t :=
  mkScheduler (map reset_task (tasks s)) 0 (hyperperiod s)
              (total_utilization s) 0 0 (schedulable s).

(** One iteration of the loop of [select_edf_task]; the state is
    [(selected, earliest_deadline)]. *)
Definition select_edf_step (acc : option nat * Z) (it : nat * rt_task_t)
  : option nat * Z :=
  let '(i, task) := it in
  if pending task then
    if next_deadline task <? snd acc then (Some i, next_deadline task) else acc
  else acc.

Definition select_edf_loop (base : nat) (ts : list rt_task_t)
  (acc : option nat * Z) : option nat * Z :=
  fold_left select_edf_step (combine (seq base (length ts)) ts) acc.

(** [rt_task_t *select_edf_task(rt_scheduler_t *scheduler)] *)
Definition select_edf_task (s : rt_scheduler_t) : option nat :=
  fst (select_edf_loop 0 (tasks s) (None, INT_MAX)).

(** The effect of [execute_task] on the task it is given. *)
Definition execute_one (task : rt_task_t) : rt_task_t :=
  if 0 <? remaining_execution task then
    let remaining := remaining_execution task - 1 in
    if remaining =? 0 then
      mkTask (id task) (period task) (execution_time task) (deadline task)
             (priority task) (next_release task) (next_deadline task)
             remaining (instances_released task)
             (instances_completed task + 1) (instances_missed task)
             (utilization task) false (deadline_missed task)
    else
      mkTask (id task) (period task) (execution_time task) (deadline task)
             (priority task) (next_release task) (next_deadline task)
             remaining (instances_released task)
             (instances_completed task) (instances_missed task)
             (utilization task) (active task) (deadline_missed task)
  else task.

(** [void execute_task(rt_scheduler_t *scheduler, rt_task_t *task)]; the
    task is given by its slot, [None] for [NULL]. *)
Definition execute_task (s : rt_scheduler_t) (task : option nat)
  : rt_scheduler_t :=
  match task with
  | Some i =>
      mkScheduler (alter execute_one i (tasks s)) (current_time s)
                  (hyperperiod s) (total_utilization s)
                  (total_deadline_misses s)
                  (total_preemptions s) (schedulable s)
  | None => s
  end.

(** One iteration of the loop of [check_deadlines]: the task afterwards,
    and whether a missed deadline was counted. *)
Definition check_deadline_task (now : Z) (task : rt_task_t)
  : rt_task_t * bool :=
  if active task && (now >=? next_deadline task)
     && (remaining_execution task >? 0)
  then
    if negb (deadline_missed task) then
      (mkTask (id task) (period task) (execution_time task) (deadline task)
              (priority task) (next_release task) (next_deadline task)
              (remaining_execution task) (instances_released task)
              (instances_completed task) (instances_missed task + 1)
              (utilization task) (active task) true,
       true)
    else (task, false)
  else (task, false).

(** [void check_deadlines(rt_scheduler_t *scheduler)] *)
Definition check_deadlines (s : rt_scheduler_t) : rt_scheduler_t :=
  let checked := map (check_deadline_task (current_time s)) (tasks s) in
  mkScheduler (map fst checked) (current_time s) (hyperperiod s)
              (total_utilization s)
              (total_deadline_misses s
               + Z.of_nat (length (List.filter snd checked)))
              (total_preemptions s) (schedulable s).

(** [current_task != previous_task] on task pointers. *)
Definition same_task (a b : option nat) : bool :=
  match a, b with
  | Some i, Some j => Nat.eqb i j
  | None, None => true
  | _, _ => false
  end.

(** The body of the simulation loop of [simulate_rms_scheduling] and
    [simulate_edf_scheduling], which differ in the selection function only,
    followed by [scheduler->current_time++].  The state is the scheduler and
    [previous_task]. *)
Definition simulation_step (select : rt_scheduler_t -> option nat)
  (st : rt_scheduler_t * option nat) : rt_scheduler_t * option nat :=
  let '(s, previous_task) := st in
  let s1 := release_periodic_tasks s in
  let s2 := check_deadlines s1 in
  let current_task := select s2 in
  let s3 :=
    if negb (same_task current_task previous_task)
       && negb (same_task previous_task None)
    then mkScheduler (tasks s2) (current_time s2) (hyperperiod s2)
                     (total_utilization s2)
                     (total_deadline_misses s2) (total_preemptions s2 + 1)
                     (schedulable s2)
    else s2 in
  let s4 := match current_task with
            | Some _ => execute_task s3 current_task
            | None => s3
            end in
  (mkScheduler (tasks s4) (current_time s4 + 1) (hyperperiod s4)
               (total_utilization s4)
               (total_deadline_misses s4) (total_preemptions s4)
               (schedulable s4),
   current_task).

(** The simulation loop: [for (...; current_time < simulation_end; ...)].
    [current_time] starts at 0 and goes up by one, so [simulation_end]
    iterations are enough. *)
Fixpoint simulation_loop (select : rt_scheduler_t -> option nat)
  (fuel : nat) (simulation_end : Z) (st : rt_scheduler_t * option nat)
  : rt_scheduler_t * option nat :=
  match fuel with
  | O => st
  | S fuel' =>
      if current_time (fst st) <? simulation_end
      then simulation_loop select fuel' simulation_end
                           (simulation_step select st)
      else st
  end.

(** The common body of [simulate_rms_scheduling] and
    [simulate_edf_scheduling]. *)
Definition simulate (select : rt_scheduler_t -> option nat)
  (s : rt_scheduler_t) : rt_scheduler_t :=
  let s0 := reset_rt_scheduler s in
  let s1 := mkScheduler (tasks s0) (current_time s0) (calculate_hyperperiod s0)
                        (total_utilization s0)
                        (total_deadline_misses s0) (total_preemptions s0)
                        (schedulable s0) in
  let simulation_end :=
    if hyperperiod s1 <? SIMULATION_TIME then hyperperiod s1
    else SIMULATION_TIME in
  let start := mkScheduler (tasks s1) 0 (hyperperiod s1)
                           (total_utilization s1)
                           (total_deadline_misses s1) (total_preemptions s1)
                           (schedulable s1) in
  fst (simulation_loop select (Z.to_nat simulation_end) simulation_end
                       (start, None)).

(** [void simulate_rms_scheduling(rt_scheduler_t *scheduler)] *)
Definition simulate_rms_scheduling (s : rt_scheduler_t) : rt_scheduler_t :=
  simulate select_rms_task s.

(** [void simulate_edf_scheduling(rt_scheduler_t *scheduler)] *)
Definition simulate_edf_scheduling (s : rt_scheduler_t) : rt_scheduler_t :=
  simulate select_edf_task s.

(** What the release and the deadline check of one iteration do to a
    task. *)
Definition after_checks (now : Z) (t : rt_task_t) : rt_task_t :=
  fst (check_deadline_task now (fst (release_task now t))).

(** A sequence of [add_rt_task] calls, one for each tuple (id, period,
    execution time, deadline). *)
Definition add_all (s : rt_scheduler_t) (specs : list (Z * Z * Z * Z))
  : rt_scheduler_t :=
  fold_left
    (fun s0 spec =>
       add_rt_task s0 (fst (fst (fst spec))) (snd (fst (fst spec)))
                   (snd (fst spec)) (snd spec))
    specs s.

(** The task that [add_rt_task] stores for a tuple. *)
Definition new_task (spec : Z * Z * Z * Z) : rt_task_t :=
  let period_ := snd (fst (fst spec)) in
  let dl := if snd spec =? 0 then period_ else snd spec in
  mkTask (fst (fst (fst spec))) period_ (snd (fst spec)) dl period_ 0 dl 0 0 0
         0 (PrimFloat.div (double_of_int (snd (fst spec))) (double_of_int period_))
         false false.

(** The sum of the utilizations stored in the tasks, added up in table
    order in [double] arithmetic, from [0.0]. *)
Definition utilization_sum (ts : list rt_task_t) : float :=
  fold_left (fun acc t => PrimFloat.add acc (utilization t)) ts 0%float.

(** The utilization of a task set as a number: the sum of the fractions
    [execution_time / period], for tasks with positive periods. *)
Definition exact_utilization (ts : list rt_task_t) : QArith_base.Q :=
  fold_right
    (fun t acc =>
       QArith_base.Qplus
         (QArith_base.Qmake (execution_time t) (Z.to_pos (period t))) acc)
    (QArith_base.Qmake 0 1) ts.

(** The fields of a task that describe the task set. *)
Definition task_parameters (t : rt_task_t) : Z * Z * Z * Z * Z :=
  (id t, period t, execution_time t, deadline t, priority t).

(** The sum of the per-task counts of missed deadlines. *)
Definition missed_instances (ts : list rt_task_t) : Z :=
  fold_right (fun t acc => instances_missed t + acc) 0 ts.

(** At time [now], before the iteration of that time: the task has been
    released once per period, the next release is due at a multiple of the
    period that is not in the past and less than a period away. *)
Definition released_on_schedule (now : Z) (t : rt_task_t) : Prop :=
  next_release t = instances_released t * period t
  /\ now <= next_release t < now + period t.

(** The bookkeeping of a task is consistent: the remaining execution time
    is between 0 and the execution time and is 0 for an inactive task, and
    the instances completed, together with the one in progress, are at most
    the instances released. *)
Definition accounts_ok (t : rt_task_t) : Prop :=
  0 <= remaining_execution t <= execution_time t
  /\ (active t = false -> remaining_execution t = 0)
  /\ 0 <= instances_completed t
  /\ instances_completed t + (if pending t then 1 else 0)
     <= instances_released t
  /\ 0 <= instances_missed t.

(** A task whose parameters keep the [int] arithmetic of
    [calculate_hyperperiod] and of the simulation loop within range: the
    period is positive and small enough for the products in [lcm] to be
    [int]s, and the deadline leaves room for [current_time + deadline]
    throughout the [SIMULATION_TIME] steps. *)
Definition task_in_range (t : rt_task_t) : Prop :=
  1 <= period t <= 46340
  /\ - INT_MAX - 1 <= execution_time t <= INT_MAX
  /\ - INT_MAX - 1 <= deadline t <= INT_MAX - SIMULATION_TIME.

End RtDemo.

(** * Properties *)

(** ** The loops of the ready queue *)

Section HeapFacts.

Variable TCBp : Type.
Variable priority : TCBp -> Z.
Variable deadline : TCBp -> Z.

Abbreviation sift_up := (Heap.sift_up TCBp priority deadline).
Abbreviation insert_run := (Heap.insert_run TCBp priority deadline).
Abbreviation priority_queue_insert := (Heap.priority_queue_insert TCBp priority deadline).
Abbreviation insert_trace := (Heap.insert_trace TCBp priority deadline).
Abbreviation priority_queue_extract := (Heap.priority_queue_extract TCBp priority deadline).

Lemma parent_lt (i : nat) : i <> 0%nat -> ((i - 1) / 2 < i)%nat.
Proof.
  intros Hi. apply Nat.Div0.div_lt_upper_bound. lia.
Qed.

Lemma sift_up_unfold (task : TCBp) (fuel : nat) (a : nat -> TCBp) (i : nat) :
  sift_up (S fuel) a i task
  = if Nat.eqb i 0 then (a, i, [])
    else
      let parent := ((i - 1) / 2)%nat in
      if (priority (a parent) >=? priority task)
         && (deadline (a parent) <=? deadline task)
      then (a, i, [parent])
      else
        let '(a', i', tr) :=
          sift_up fuel (Heap.store a i (a parent)) parent task in
        (a', i', parent :: parent :: i :: tr).
Proof. reflexivity. Qed.

(** The fuel given to the insertion loop never runs out: more fuel than
    [i] changes nothing. *)
Lemma sift_up_fuel (task : TCBp) (fuel : nat) :
  forall a i, (i <= fuel)%nat -> sift_up (S fuel) a i task = sift_up fuel a i task.
Proof.
  induction fuel as [|fuel IH]; intros a i Hle.
  - assert (i = 0%nat) as -> by lia. reflexivity.
  - rewrite (sift_up_unfold task (S fuel)), (sift_up_unfold task fuel).
    destruct (Nat.eqb_spec i 0) as [->|Hi]; [reflexivity|].
    cbv zeta.
    destruct ((priority (a ((i - 1) / 2)%nat) >=? priority task)
              && (deadline (a ((i - 1) / 2)%nat) <=? deadline task));
      [reflexivity|].
    rewrite IH; [reflexivity|].
    pose proof (parent_lt i Hi). lia.
Qed.

(** What the insertion loop preserves: apart from the hole [i], every
    slot up to [n] holds a value satisfying [P]; and every index it
    touches is at most the [i] it started from. *)
Lemma sift_up_inv (P : TCBp -> Prop) (task : TCBp) (n fuel : nat) :
  forall a i,
    (i <= n)%nat ->
    (forall j, (j <= n)%nat -> j <> i -> P (a j)) ->
    forall a' i' tr,
      sift_up fuel a i task = (a', i', tr) ->
      (i' <= i)%nat
      /\ (forall j, (j <= n)%nat -> j <> i' -> P (a' j))
      /\ Forall (fun x => (x <= i)%nat) tr.
Proof.
  induction fuel as [|fuel IH]; intros a i Hi Ha a' i' tr Heq.
  - cbn in Heq. injection Heq as <- <- <-. auto.
  - rewrite sift_up_unfold in Heq.
    destruct (Nat.eqb_spec i 0) as [->|Hne].
    { injection Heq as <- <- <-. auto. }
    pose proof (parent_lt i Hne) as Hp.
    cbv zeta in Heq.
    set (p := ((i - 1) / 2)%nat) in *. clearbody p.
    destruct ((priority (a p) >=? priority task)
              && (deadline (a p) <=? deadline task)).
    { injection Heq as <- <- <-. split; [lia|]. split; [assumption|].
      constructor; [lia|constructor]. }
    destruct (sift_up fuel (Heap.store a i (a p)) p task)
      as [[a1 i1] tr1] eqn:Hrec.
    injection Heq as <- <- <-.
    apply IH in Hrec as (Hle & Hall & Htr).
    + split; [lia|]. split; [assumption|].
      repeat (constructor; [lia|]).
      eapply Forall_impl; [exact Htr|]. cbv beta. intros; lia.
    + lia.
    + intros j Hj Hjp. unfold Heap.store.
      destruct (Nat.eqb_spec j i) as [->|Hji].
      * apply Ha; lia.
      * apply Ha; assumption.
Qed.

Lemma insert_size (q : Heap.PriorityQueue TCBp) (task : TCBp) :
  Heap.size (priority_queue_insert q task) = S (Heap.size q).
Proof.
  unfold Heap.priority_queue_insert, Heap.insert_run.
  destruct (sift_up (Heap.size q) (Heap.tasks q) (Heap.size q) task)
    as [[a i] tr]. reflexivity.
Qed.

(** Insertion keeps a property of the stored handles. *)
Lemma insert_all_slots (P : TCBp -> Prop) (q : Heap.PriorityQueue TCBp)
  (task : TCBp) :
  (forall j, (j < Heap.size q)%nat -> P (Heap.tasks q j)) ->
  P task ->
  forall j, (j < S (Heap.size q))%nat ->
            P (Heap.tasks (priority_queue_insert q task) j).
Proof.
  intros Hq Ht j Hj.
  unfold Heap.priority_queue_insert, Heap.insert_run.
  destruct (sift_up (Heap.size q) (Heap.tasks q) (Heap.size q) task)
    as [[a i] tr] eqn:Hs.
  apply (sift_up_inv P task (Heap.size q)) in Hs as (_ & Hall & _).
  - cbn. unfold Heap.store. destruct (Nat.eqb_spec j i) as [->|Hji];
      [assumption|]. apply Hall; [lia|assumption].
  - lia.
  - intros j' Hj' Hne. apply Hq. lia.
Qed.


(** The slot [priority_queue_insert] writes last is the old [size] or
    one on the way to the root; the last index of the trace is that
    slot. *)
Lemma insert_trace_nonempty (q : Heap.PriorityQueue TCBp) (task : TCBp) :
  insert_trace q task <> [].
Proof.
  unfold Heap.insert_trace, Heap.insert_run.
  destruct (sift_up (Heap.size q) (Heap.tasks q) (Heap.size q) task)
    as [[a i] tr]. cbn. destruct tr; discriminate.
Qed.

(** What comes out of a non-empty queue is the content of slot 0. *)
Lemma extract_result (q : Heap.PriorityQueue TCBp) :
  fst (priority_queue_extract q)
  = if Nat.eqb (Heap.size q) 0 then None else Some (Heap.tasks q 0%nat).
Proof.
  unfold Heap.priority_queue_extract.
  destruct (Nat.eqb (Heap.size q) 0); [reflexivity|].
  destruct (Heap.sift_down _ _ _ _ _ _ _ _). reflexivity.
Qed.

Lemma sift_down_unfold (fuel : nat) (a : nat -> TCBp) (n : nat) (last : TCBp)
  (i : nat) :
  Heap.sift_down TCBp priority deadline (S fuel) a n last i
  = if negb (Nat.ltb (i * 2 + 1) n) then (a, i)
    else
      let left := (i * 2 + 1)%nat in
      let right := (left + 1)%nat in
      let highest_priority :=
        if Nat.ltb right n
           && ((priority (a right) >? priority (a left))
               || ((priority (a right) =? priority (a left))
                   && (deadline (a right) <? deadline (a left))))
        then right else left in
      if (priority last >? priority (a highest_priority))
         || ((priority last =? priority (a highest_priority))
             && (deadline last <=? deadline (a highest_priority)))
      then (a, i)
      else Heap.sift_down TCBp priority deadline fuel
             (Heap.store a i (a highest_priority)) n last highest_priority.
Proof. reflexivity. Qed.

(** The fuel given to the extraction loop never runs out either: [i]
    grows at every iteration and the loop ends before it reaches [n]. *)
Lemma sift_down_fuel (n : nat) (last : TCBp) (fuel : nat) :
  forall a i, (n - i <= fuel)%nat ->
    Heap.sift_down TCBp priority deadline (S fuel) a n last i
    = Heap.sift_down TCBp priority deadline fuel a n last i.
Proof.
  induction fuel as [|fuel IH]; intros a i Hle.
  - rewrite sift_down_unfold. cbn [Heap.sift_down].
    destruct (Nat.ltb_spec (i * 2 + 1) n) as [Hlt|Hge]; [lia|reflexivity].
  - rewrite (sift_down_unfold (S fuel)), (sift_down_unfold fuel).
    destruct (Nat.ltb_spec (i * 2 + 1) n) as [Hlt|Hge]; [|reflexivity].
    cbv zeta. cbn [negb].
    set (hp := if _ && _ then (i * 2 + 1 + 1)%nat else (i * 2 + 1)%nat).
    assert (i < hp)%nat as Hhp by (subst hp; destruct (_ && _); lia).
    clearbody hp.
    destruct (_ || _); [reflexivity|]. apply IH. lia.
Qed.

Lemma extract_size (q : Heap.PriorityQueue TCBp) :
  Heap.size (snd (priority_queue_extract q)) = (Heap.size q - 1)%nat.
Proof.
  unfold Heap.priority_queue_extract.
  destruct (Nat.eqb_spec (Heap.size q) 0) as [Hz|Hnz]; [cbn; lia|].
  destruct (Heap.sift_down _ _ _ _ _ _ _ _). reflexivity.
Qed.

(** As many extractions as the queue has entries empty it: more fuel
    than [size] does not lengthen the output of [drain]. *)
Lemma drain_fuel_enough (fuel : nat) :
  forall q : Heap.PriorityQueue TCBp,
    (Heap.size q <= fuel)%nat ->
    Heap.drain_fuel TCBp priority deadline (S fuel) q
    = Heap.drain_fuel TCBp priority deadline fuel q.
Proof.
  induction fuel as [|fuel IH]; intros q Hle.
  - cbn [Heap.drain_fuel]. pose proof (extract_result q) as Hr.
    destruct (priority_queue_extract q) as [[t|] q']; [|reflexivity].
    cbn in Hr. destruct (Nat.eqb_spec (Heap.size q) 0); [discriminate|lia].
  - change (Heap.drain_fuel TCBp priority deadline (S (S fuel)) q)
      with (match priority_queue_extract q with
            | (None, _) => []
            | (Some t, q') =>
                t :: Heap.drain_fuel TCBp priority deadline (S fuel) q'
            end).
    change (Heap.drain_fuel TCBp priority deadline (S fuel) q)
      with (match priority_queue_extract q with
            | (None, _) => []
            | (Some t, q') =>
                t :: Heap.drain_fuel TCBp priority deadline fuel q'
            end).
    pose proof (extract_size q) as Hs.
    destruct (priority_queue_extract q) as [[t|] q']; [|reflexivity].
    cbn in Hs. f_equal. apply IH. lia.
Qed.

(** The insertion loop leaves the slots after the one it starts from
    alone. *)
Lemma sift_up_beyond (task : TCBp) (fuel : nat) :
  forall a i a' i' tr,
    sift_up fuel a i task = (a', i', tr) ->
    (i' <= i)%nat /\ forall j, (i < j)%nat -> a' j = a j.
Proof.
  induction fuel as [|fuel IH]; intros a i a' i' tr Heq.
  - cbn in Heq. injection Heq as <- <- <-. auto.
  - rewrite sift_up_unfold in Heq.
    destruct (Nat.eqb_spec i 0) as [->|Hne].
    { injection Heq as <- <- <-. auto. }
    pose proof (parent_lt i Hne) as Hp.
    cbv zeta in Heq.
    set (p := ((i - 1) / 2)%nat) in *. clearbody p.
    destruct ((priority (a p) >=? priority task)
              && (deadline (a p) <=? deadline task)).
    { injection Heq as <- <- <-. auto. }
    destruct (sift_up fuel (Heap.store a i (a p)) p task)
      as [[a1 i1] tr1] eqn:Hrec.
    injection Heq as <- <- <-.
    apply IH in Hrec as (Hle & Hall).
    split; [lia|]. intros j Hj. rewrite Hall by lia.
    unfold Heap.store. destruct (Nat.eqb_spec j i); [lia|reflexivity].
Qed.

Lemma insert_beyond (q : Heap.PriorityQueue TCBp) (task : TCBp) (j : nat) :
  (Heap.size q < j)%nat ->
  Heap.tasks (priority_queue_insert q task) j = Heap.tasks q j.
Proof.
  intros Hj.
  unfold Heap.priority_queue_insert, Heap.insert_run.
  destruct (sift_up (Heap.size q) (Heap.tasks q) (Heap.size q) task)
    as [[a i] tr] eqn:Hs.
  apply sift_up_beyond in Hs as (Hle & Hall).
  cbn. unfold Heap.store. destruct (Nat.eqb_spec j i) as [->|Hji]; [lia|].
  apply Hall. assumption.
Qed.



End HeapFacts.

(** ** The kernel operations, slot by slot *)

Section RtosFacts.

Import Rtos.

Implicit Types (k : RTOS_Kernel) (t : TCB) (i j h : nat).

Lemma TaskState_eqb_eq (a b : TaskState) : TaskState_eqb a b = true <-> a = b.
Proof. destruct a, b; cbn; split; congruence. Qed.

Lemma TaskState_eqb_neq (a b : TaskState) : TaskState_eqb a b = false <-> a <> b.
Proof. destruct a, b; cbn; split; congruence. Qed.

Lemma is_ready_Some k h :
  is_ready k h = true <-> exists t, tasks k !! h = Some t /\ state t = TASK_READY.
Proof.
  unfold is_ready. destruct (tasks k !! h) as [t|].
  - rewrite TaskState_eqb_eq. split; [eauto|]. intros (t' & [= <-] & H). exact H.
  - split; [discriminate|]. intros (t' & [=] & _).
Qed.

(** The ready queue holds handles of Ready tasks only, and no more of
    them than slots were looked at. *)
Lemma fill_ready_queue_inv k n :
  (Heap.size (fill_ready_queue k n) <= n)%nat
  /\ forall j, (j < Heap.size (fill_ready_queue k n))%nat ->
               is_ready k (Heap.tasks (fill_ready_queue k n) j) = true.
Proof.
  unfold fill_ready_queue. induction n as [|n [IHs IHr]].
  - cbn. split; [lia|]. intros; lia.
  - rewrite seq_S, fold_left_app. cbn [fold_left Nat.add].
    destruct (is_ready k n) eqn:Hr.
    + rewrite insert_size. split; [lia|].
      apply (insert_all_slots nat (priority_of k) (deadline_of k)
               (fun h => is_ready k h = true)); assumption.
    + split; [lia|assumption].
Qed.

(** [schedule_next_task] either finds nothing and changes nothing, or
    picks a Ready task, marks it Running and makes it current. *)
Lemma schedule_next_task_cases k :
  schedule_next_task k = (None, k)
  \/ exists h t,
      tasks k !! h = Some t /\ state t = TASK_READY
      /\ schedule_next_task k
         = (Some h,
            mkKernel (alter (set_state TASK_RUNNING) h (tasks k)) (id t)
                     (tick_count k) (scheduler_running k) (total_switches k)).
Proof.
  unfold schedule_next_task. rewrite extract_result.
  destruct (Nat.eqb_spec (Heap.size (fill_ready_queue k (num_tasks k))) 0)
    as [_|Hne]; [left; reflexivity|].
  right.
  destruct (fill_ready_queue_inv k (num_tasks k)) as [_ Hr].
  specialize (Hr 0%nat ltac:(lia)).
  set (h := Heap.tasks (fill_ready_queue k (num_tasks k)) 0%nat) in *.
  apply is_ready_Some in Hr as (t & Ht & Hst).
  exists h, t. repeat split; try assumption.
  unfold with_current, with_tasks, id_of. rewrite Ht. reflexivity.
Qed.

Lemma dispatch_next_cases k :
  dispatch_next k = k
  \/ exists h t,
      tasks k !! h = Some t /\ state t = TASK_READY
      /\ dispatch_next k
         = mkKernel
             (alter incr_run_count h (alter (set_state TASK_RUNNING) h (tasks k)))
             (id t) (tick_count k) (scheduler_running k)
             (u32_incr (total_switches k)).
Proof.
  unfold dispatch_next.
  destruct (schedule_next_task_cases k) as [->|(h & t & Ht & Hst & ->)];
    [left; reflexivity|].
  right. exists h, t. repeat split; assumption.
Qed.

(** A task that is not Ready is left alone by a dispatch. *)
Lemma dispatch_next_not_ready k i t :
  tasks k !! i = Some t -> state t <> TASK_READY ->
  tasks (dispatch_next k) !! i = Some t.
Proof.
  intros Hi Hst.
  destruct (dispatch_next_cases k) as [->|(h & t' & Ht' & Hst' & ->)];
    [assumption|].
  cbn. assert (h <> i) by congruence.
  rewrite !list_lookup_alter_ne by assumption. assumption.
Qed.

Lemma dispatch_next_tick_count k :
  tick_count (dispatch_next k) = tick_count k.
Proof.
  destruct (dispatch_next_cases k) as [->|(h & t' & Ht' & Hst' & ->)];
    reflexivity.
Qed.

Lemma dispatch_next_length k :
  num_tasks (dispatch_next k) = num_tasks k.
Proof.
  unfold num_tasks.
  destruct (dispatch_next_cases k) as [->|(h & t' & Ht' & Hst' & ->)];
    [reflexivity|]. cbn. rewrite !length_alter. reflexivity.
Qed.

(** Looking a slot up after [alter]. *)
Lemma lookup_alter_Some (f : TCB -> TCB) (l : list TCB) h i t :
  alter f h l !! i = Some t ->
  exists t0, l !! i = Some t0 /\ t = (if decide (h = i) then f t0 else t0).
Proof.
  rewrite list_lookup_alter. destruct (decide (h = i)) as [->|Hne].
  - destruct (l !! i) as [t0|]; cbn; [|discriminate].
    intros [= <-]. eauto.
  - intros H. eauto.
Qed.

(** From a state in which no task is running, a dispatch leaves at most
    the dispatched task running, and it is the current one. *)
Lemma dispatch_next_inv k :
  ids_ok k -> none_running k ->
  ids_ok (dispatch_next k) /\ running_is_current (dispatch_next k).
Proof.
  intros Hid Hnone.
  destruct (dispatch_next_cases k) as [->|(h & t & Ht & Hst & ->)].
  - split; [assumption|]. intros i t Hi Hr. destruct (Hnone i t Hi Hr).
  - split.
    + intros i t1 Hi. cbn in Hi.
      apply lookup_alter_Some in Hi as (t2 & Hi & ->).
      apply lookup_alter_Some in Hi as (t3 & Hi & ->).
      apply Hid in Hi. repeat case_decide; cbn; assumption.
    + intros i t1 Hi Hr. cbn in Hi |- *.
      apply lookup_alter_Some in Hi as (t2 & Hi & ->).
      apply lookup_alter_Some in Hi as (t3 & Hi & ->).
      destruct (decide (h = i)) as [->|Hne].
      * rewrite Ht in Hi. injection Hi as <-. symmetry. exact (Hid _ _ Ht).
      * cbn in Hr. destruct (Hnone i t3 Hi Hr).
Qed.

Lemma lookup_map (f : TCB -> TCB) (l : list TCB) i :
  map f l !! i = f <$> l !! i.
Proof. change (map f l) with (f <$> l). apply list_lookup_fmap. Qed.

Lemma lookup_map_Some (f : TCB -> TCB) (l : list TCB) i t :
  map f l !! i = Some t -> exists t0, l !! i = Some t0 /\ t = f t0.
Proof.
  rewrite lookup_map. destruct (l !! i) as [t0|]; cbn; [|discriminate].
  intros [= <-]. eauto.
Qed.

Lemma unblock_id now t : id (unblock now t) = id t.
Proof. unfold unblock. destruct (_ && _); reflexivity. Qed.

Lemma unblock_running now t :
  state (unblock now t) = TASK_RUNNING -> state t = TASK_RUNNING.
Proof.
  unfold unblock.
  destruct (TaskState_eqb (state t) TASK_BLOCKED && timeout_expired now t);
    [discriminate|trivial].
Qed.

Lemma kernel_inv_init : kernel_inv rtos_init.
Proof.
  repeat split.
  - intros i t H. destruct i; discriminate.
  - intros i t H. destruct i; discriminate.
  - cbn. unfold MAX_TASKS. lia.
Qed.

Lemma step_create_no_memory k tcb_ok prio dl per :
  step k (create_task_no_memory tcb_ok prio dl per) = k.
Proof.
  unfold step, rtos_create_task.
  destruct (Nat.leb _ _); [reflexivity|]. destruct tcb_ok; reflexivity.
Qed.

Lemma kernel_inv_create prio dl per k :
  kernel_inv k -> kernel_inv (snd (rtos_create_task true true prio dl per k)).
Proof.
  intros (Hid & Hrun & Hlen). unfold rtos_create_task.
  destruct (Nat.leb_spec MAX_TASKS (num_tasks k)) as [Hfull|Hroom].
  { repeat split; assumption. }
  cbn [snd negb]. unfold num_tasks in *. repeat split.
  - intros i t Hi. cbn in Hi. apply lookup_app_Some in Hi as [Hi|[Hge Hi]].
    + exact (Hid _ _ Hi).
    + apply list_lookup_singleton_Some in Hi as [Hz <-]. cbn. lia.
  - intros i t Hi Hr. cbn in Hi |- *.
    apply lookup_app_Some in Hi as [Hi|[Hge Hi]].
    + exact (Hrun _ _ Hi Hr).
    + apply list_lookup_singleton_Some in Hi as [Hz <-]. discriminate.
  - cbn. rewrite length_app. cbn. lia.
Qed.

Lemma kernel_inv_unblock_pass k :
  kernel_inv k -> kernel_inv (unblock_pass k).
Proof.
  intros (Hid & Hrun & Hlen). repeat split.
  - intros i t Hi. cbn in Hi. apply lookup_map_Some in Hi as (t0 & Hi & ->).
    rewrite unblock_id. exact (Hid _ _ Hi).
  - intros i t Hi Hr. cbn in Hi |- *.
    apply lookup_map_Some in Hi as (t0 & Hi & ->).
    apply unblock_running in Hr. exact (Hrun _ _ Hi Hr).
  - unfold num_tasks in *. cbn. rewrite length_map. assumption.
Qed.

Lemma kernel_inv_advance_tick k :
  kernel_inv k -> kernel_inv (advance_tick k).
Proof. intros H. exact H. Qed.

(** Once the current task has been taken out of the Running state, no
    task is running. *)
Lemma none_running_after_alter (f : TCB -> TCB) k :
  running_is_current k ->
  (forall t, state (f t) <> TASK_RUNNING) ->
  none_running (with_tasks (alter f (current_task k) (tasks k)) k).
Proof.
  intros Hrun Hf i t Hi Hr. cbn in Hi.
  apply lookup_alter_Some in Hi as (t0 & Hi & ->).
  destruct (decide (current_task k = i)) as [<-|Hne].
  - exact (Hf _ Hr).
  - apply Hne. symmetry. exact (Hrun _ _ Hi Hr).
Qed.

Lemma ids_ok_alter (f : TCB -> TCB) h k :
  ids_ok k -> (forall t, id (f t) = id t) ->
  ids_ok (with_tasks (alter f h (tasks k)) k).
Proof.
  intros Hid Hf i t Hi. cbn in Hi.
  apply lookup_alter_Some in Hi as (t0 & Hi & ->).
  case_decide; [rewrite Hf|]; exact (Hid _ _ Hi).
Qed.

Lemma kernel_inv_dispatch_next k :
  ids_ok k -> none_running k -> (num_tasks k <= MAX_TASKS)%nat ->
  kernel_inv (dispatch_next k).
Proof.
  intros Hid Hnone Hlen.
  destruct (dispatch_next_inv k Hid Hnone) as [H1 H2].
  repeat split; try assumption. rewrite dispatch_next_length. assumption.
Qed.

Lemma kernel_inv_preempt_or_dispatch k :
  kernel_inv k -> kernel_inv (preempt_or_dispatch k).
Proof.
  intros (Hid & Hrun & Hlen). unfold preempt_or_dispatch.
  destruct (tasks k !! current_task k) as [c|] eqn:Hc.
  - destruct (TaskState_eqb (state c) TASK_RUNNING) eqn:Hst.
    + destruct (should_preempt k c).
      * apply kernel_inv_dispatch_next.
        -- apply ids_ok_alter; [assumption|reflexivity].
        -- apply none_running_after_alter; [assumption|discriminate].
        -- unfold num_tasks in *. cbn. rewrite length_alter. assumption.
      * repeat split.
        -- apply ids_ok_alter; [assumption|reflexivity].
        -- intros i t Hi Hr. cbn in Hi |- *.
           apply lookup_alter_Some in Hi as (t0 & Hi & ->).
           apply (Hrun _ _ Hi). case_decide; exact Hr.
        -- unfold num_tasks in *. cbn. rewrite length_alter. assumption.
    + apply kernel_inv_dispatch_next; try assumption.
      intros i t Hi Hr. pose proof (Hrun _ _ Hi Hr) as ->.
      rewrite Hc in Hi. injection Hi as <-.
      apply TaskState_eqb_neq in Hst. contradiction.
  - apply kernel_inv_dispatch_next; try assumption.
    intros i t Hi Hr. pose proof (Hrun _ _ Hi Hr) as ->. congruence.
Qed.

Lemma kernel_inv_tick k : kernel_inv k -> kernel_inv (rtos_tick_handler k).
Proof.
  intros H. unfold rtos_tick_handler.
  apply kernel_inv_preempt_or_dispatch, kernel_inv_unblock_pass,
    kernel_inv_advance_tick, H.
Qed.

Lemma kernel_inv_block tmo k : kernel_inv k -> kernel_inv (rtos_block_task tmo k).
Proof.
  intros (Hid & Hrun & Hlen). unfold rtos_block_task.
  destruct (tasks k !! current_task k) as [c|] eqn:Hc;
    [|repeat split; assumption].
  apply kernel_inv_dispatch_next.
  - apply ids_ok_alter; [assumption|reflexivity].
  - apply none_running_after_alter; [assumption|discriminate].
  - unfold num_tasks in *. cbn. rewrite length_alter. assumption.
Qed.

Lemma kernel_inv_step k o : kernel_inv k -> kernel_inv (step k o).
Proof.
  destruct o; [| | |rewrite step_create_no_memory; tauto]; cbn.
  - apply kernel_inv_create.
  - apply kernel_inv_tick.
  - apply kernel_inv_block.
Qed.

Lemma kernel_inv_run ops : forall k, kernel_inv k -> kernel_inv (run ops k).
Proof.
  unfold run. induction ops as [|o ops IH]; intros k Hk; [exact Hk|].
  cbn. apply IH, kernel_inv_step, Hk.
Qed.

(** If any two slots holding an element that satisfies [p] coincide, at
    most one element satisfies [p]. *)
Lemma filter_at_most_one (p : TCB -> bool) (l : list TCB) :
  (forall i j x y, l !! i = Some x -> l !! j = Some y ->
                   p x = true -> p y = true -> i = j) ->
  (length (List.filter p l) <= 1)%nat.
Proof.
  induction l as [|a l IH]; intros Huniq; [cbn; lia|].
  cbn. destruct (p a) eqn:Hpa.
  - assert (List.filter p l = []) as ->; [|cbn; lia].
    destruct (List.filter p l) as [|b r] eqn:Hf; [reflexivity|].
    assert (In b (List.filter p l)) as Hin by (rewrite Hf; left; reflexivity).
    apply filter_In in Hin as [Hin Hpb].
    apply list_elem_of_In, list_elem_of_lookup in Hin as [j Hj].
    specialize (Huniq 0%nat (S j) a b eq_refl Hj Hpa Hpb). discriminate.
  - apply IH. intros i j x y Hi Hj Hx Hy.
    specialize (Huniq (S i) (S j) x y Hi Hj Hx Hy). lia.
Qed.

Lemma kernel_inv_running_count k : kernel_inv k -> (running_count k <= 1)%nat.
Proof.
  intros (_ & Hrun & _). unfold running_count.
  apply filter_at_most_one. intros i j x y Hi Hj Hx Hy.
  apply TaskState_eqb_eq in Hx, Hy.
  rewrite (Hrun _ _ Hi Hx), (Hrun _ _ Hj Hy). reflexivity.
Qed.

End RtosFacts.

(** ** The claims about the ready queue and the kernel *)

Import Rtos.

(** C1, on the code: inserting a task of priority 3 and deadline 2000 and
    then a task of priority 1 and deadline 1000 into an empty queue, the
    extractions deliver the priority-1 task first.  The sift-up loop of
    [priority_queue_insert] stops only when the parent has both a priority
    that is not lower and a deadline that is not later, so the task with the
    earlier deadline climbs over a parent of higher priority; the output is
    not in non-increasing priority order. *)
Theorem extract_order_not_by_priority :
  let q := Heap.insert_all (Z * Z) fst snd key_queue [(3, 2000); (1, 1000)] in
  Heap.drain (Z * Z) fst snd q = [(1, 1000); (3, 2000)]
  /\ Heap.in_heap_order (Z * Z) fst snd (Heap.drain (Z * Z) fst snd q) = false.
Proof. split; reflexivity. Qed.

(** C2, on the code: from the three Ready tasks A (slot 0), B (slot 1) and
    C (slot 2) the first tick dispatches C, the task of priority 2, not B;
    [total_switches] is 1.  Blocking the running task for 100 ticks then
    dispatches B, and [total_switches] is 2.  The order B then C of the
    claim is reversed, for the reason given at C1: when C is inserted into
    the ready queue it climbs over B because its deadline is earlier. *)
Theorem scenario_dispatches_C_then_B :
  let k1 := rtos_tick_handler scenario in
  let k2 := rtos_block_task 100 k1 in
  map state (tasks scenario) = [TASK_READY; TASK_READY; TASK_READY]
  /\ map state (tasks k1) = [TASK_READY; TASK_READY; TASK_RUNNING]
  /\ current_task k1 = 2%nat /\ total_switches k1 = 1
  /\ map state (tasks k2) = [TASK_READY; TASK_RUNNING; TASK_BLOCKED]
  /\ current_task k2 = 1%nat /\ total_switches k2 = 2.
Proof. repeat split; reflexivity. Qed.

(** C3: whatever sequence of [create_task], [tick] and [block_current]
    calls is run from the initialized kernel (the [create_task] calls with
    or without an allocation that fails), at most one task is in the
    Running state afterwards. *)
Theorem at_most_one_running (ops : list op) :
  (running_count (run ops rtos_init) <= 1)%nat.
Proof.
  apply kernel_inv_running_count, kernel_inv_run, kernel_inv_init.
Qed.

(** C8, on the code: [total_switches] is not the number of changes of the
    running task.  (1) [rtos_start] dispatches the first task from the state
    in which nothing runs and leaves the counter at 0.  (2) With B (priority
    3, deadline 2000) in slot 0 and X (priority 2, deadline 1000) in slot 1,
    the first tick dispatches X; at the second tick B is Ready with a higher
    priority, X is preempted, the ready queue hands X back (the defect of
    C1), and the counter goes from 1 to 2 although X was and stays the
    running task. *)
Theorem total_switches_miscounts :
  (let k := rtos_start (run [create_task 1 1000 1000] rtos_init) in
   map state (tasks k) = [TASK_RUNNING] /\ total_switches k = 0)
  /\ (let k1 := run [create_task 3 2000 2000; create_task 2 1000 1000; tick]
                    rtos_init in
      let k2 := rtos_tick_handler k1 in
      running_slot k1 = Some 1%nat /\ total_switches k1 = 1
      /\ running_slot k2 = Some 1%nat /\ total_switches k2 = 2).
Proof. repeat split; reflexivity. Qed.

(** ** Ticks *)

Section TickFacts.

Implicit Types (k : RTOS_Kernel) (t c : TCB) (i j : nat).

Lemma simulate_other h k i :
  h <> i -> tasks (simulate_task_execution h k) !! i = tasks k !! i.
Proof. intros Hne. cbn. apply list_lookup_alter_ne, Hne. Qed.

(** The second half of a tick does not touch a Blocked task. *)
Lemma preempt_or_dispatch_blocked k i t :
  tasks k !! i = Some t -> state t = TASK_BLOCKED ->
  tasks (preempt_or_dispatch k) !! i = Some t.
Proof.
  intros Hi Hst. unfold preempt_or_dispatch.
  assert (state t <> TASK_READY) as Hnr by congruence.
  destruct (tasks k !! current_task k) as [c|] eqn:Hc;
    [|apply dispatch_next_not_ready; assumption].
  destruct (TaskState_eqb (state c) TASK_RUNNING) eqn:Hrun;
    [|apply dispatch_next_not_ready; assumption].
  apply TaskState_eqb_eq in Hrun.
  assert (current_task k <> i) as Hne by congruence.
  destruct (should_preempt k c).
  - apply dispatch_next_not_ready; [|assumption].
    cbn. rewrite list_lookup_alter_ne by assumption. assumption.
  - rewrite simulate_other by assumption. assumption.
Qed.

Lemma preempt_or_dispatch_tick_count k :
  tick_count (preempt_or_dispatch k) = tick_count k.
Proof.
  unfold preempt_or_dispatch.
  destruct (tasks k !! current_task k) as [c|];
    [|apply dispatch_next_tick_count].
  destruct (TaskState_eqb (state c) TASK_RUNNING);
    [|apply dispatch_next_tick_count].
  destruct (should_preempt k c);
    [rewrite dispatch_next_tick_count|]; reflexivity.
Qed.

(** Every tick advances the counter by one, modulo [2^32]. *)
Lemma tick_count_tick k :
  tick_count (rtos_tick_handler k) = u32_incr (tick_count k).
Proof.
  unfold rtos_tick_handler. rewrite preempt_or_dispatch_tick_count.
  reflexivity.
Qed.

(** What the unblock pass of a tick does to a Blocked task. *)
Lemma unblock_pass_blocked k i t :
  tasks k !! i = Some t -> state t = TASK_BLOCKED ->
  tasks (unblock_pass (advance_tick k)) !! i
  = Some (if timeout_expired (u32_incr (tick_count k)) t
          then set_state TASK_READY t else t).
Proof.
  intros Hi Hst. cbn. rewrite lookup_map, Hi. cbn. unfold unblock.
  rewrite Hst. reflexivity.
Qed.

(** A Blocked task whose timeout has not expired at the new tick count
    comes out of the tick as it went in. *)
Lemma tick_keeps_blocked k i t :
  tasks k !! i = Some t -> state t = TASK_BLOCKED ->
  timeout_expired (u32_incr (tick_count k)) t = false ->
  tasks (rtos_tick_handler k) !! i = Some t.
Proof.
  intros Hi Hst Hexp. unfold rtos_tick_handler.
  apply preempt_or_dispatch_blocked; [|assumption].
  rewrite (unblock_pass_blocked k i t Hi Hst), Hexp. reflexivity.
Qed.

(** The test of the unblock pass, [n] ticks after the task was blocked. *)
Lemma timeout_expired_after (T n : Z) t :
  blocked_tick t = T -> 0 <= n < UINT32_MOD ->
  timeout_expired ((T + n) mod UINT32_MOD) t = (timeout t <=? n).
Proof.
  intros HT Hn. unfold timeout_expired, u32_sub. rewrite Z.geb_leb, HT.
  rewrite Zminus_mod_idemp_l.
  replace (T + n - T) with n by lia.
  rewrite Z.mod_small by assumption. reflexivity.
Qed.

Lemma u32_incr_mod (x : Z) :
  u32_incr (x mod UINT32_MOD) = (x + 1) mod UINT32_MOD.
Proof. unfold u32_incr. apply Zplus_mod_idemp_l. Qed.

(** While fewer ticks than the timeout have gone by, the task stays as
    it was blocked. *)
Lemma ticks_keep_blocked k i t (n : nat) :
  tasks k !! i = Some t -> state t = TASK_BLOCKED ->
  blocked_tick t = tick_count k ->
  0 <= tick_count k < UINT32_MOD ->
  0 <= timeout t < UINT32_MOD ->
  Z.of_nat n < Z.max 1 (timeout t) ->
  tasks (ticks n k) !! i = Some t
  /\ tick_count (ticks n k) = (tick_count k + Z.of_nat n) mod UINT32_MOD.
Proof.
  intros Hi Hst HT HT0 HK. induction n as [|n IH]; intros Hn.
  - cbn [ticks]. split; [assumption|].
    rewrite Z.add_0_r, Z.mod_small by assumption. reflexivity.
  - destruct IH as [IHi IHc]; [lia|]. cbn [ticks].
    assert (u32_incr (tick_count (ticks n k))
            = (tick_count k + Z.of_nat (S n)) mod UINT32_MOD) as Hnow.
    { rewrite IHc, u32_incr_mod. f_equal. lia. }
    split.
    + apply tick_keeps_blocked; [assumption..|].
      rewrite Hnow, (timeout_expired_after (tick_count k));
        [|assumption|unfold UINT32_MOD in *; lia].
      apply Z.leb_gt. lia.
    + rewrite tick_count_tick. exact Hnow.
Qed.

(** A dispatch leaves a Ready task as it is or makes it the running
    one. *)
Lemma dispatch_next_ready k i t :
  tasks k !! i = Some t -> state t = TASK_READY ->
  tasks (dispatch_next k) !! i = Some t
  \/ (tasks (dispatch_next k) !! i
      = Some (incr_run_count (set_state TASK_RUNNING t))
      /\ current_task (dispatch_next k) = id t).
Proof.
  intros Hi Hst.
  destruct (dispatch_next_cases k) as [->|(h & t' & Ht' & Hst' & ->)];
    [left; assumption|].
  destruct (decide (h = i)) as [->|Hne].
  - right. rewrite Hi in Ht'. injection Ht' as <-. cbn.
    rewrite !list_lookup_alter_eq, Hi. split; reflexivity.
  - left. cbn. rewrite !list_lookup_alter_ne by assumption. assumption.
Qed.

(** So does the second half of a tick. *)
Lemma preempt_or_dispatch_ready k i t :
  tasks k !! i = Some t -> state t = TASK_READY ->
  tasks (preempt_or_dispatch k) !! i = Some t
  \/ (tasks (preempt_or_dispatch k) !! i
      = Some (incr_run_count (set_state TASK_RUNNING t))
      /\ current_task (preempt_or_dispatch k) = id t).
Proof.
  intros Hi Hst. unfold preempt_or_dispatch.
  destruct (tasks k !! current_task k) as [c|] eqn:Hc;
    [|apply dispatch_next_ready; assumption].
  destruct (TaskState_eqb (state c) TASK_RUNNING) eqn:Hrun;
    [|apply dispatch_next_ready; assumption].
  apply TaskState_eqb_eq in Hrun.
  assert (current_task k <> i) as Hne by congruence.
  destruct (should_preempt k c).
  - apply dispatch_next_ready; [|assumption].
    cbn. rewrite list_lookup_alter_ne by assumption. assumption.
  - left. rewrite simulate_other by assumption. assumption.
Qed.

End TickFacts.

(** C6, as stated, fails at timeout 0: a task blocked at tick 1 with
    timeout 0 is not Ready at tick 1 + 0; it is Blocked there.  The next
    tick, which brings the count to 2, is the one whose unblock pass makes
    it Ready, and that same tick goes on to dispatch it, so that it is
    Running when the tick is over. *)
Lemma timeout_zero_wakes_at_next_tick :
  let k := run [create_task 1 1000 1000; tick; block_current 0] rtos_init in
  tick_count k = 1
  /\ map blocked_tick (tasks k) = [1] /\ map timeout (tasks k) = [0]
  /\ map state (tasks k) = [TASK_BLOCKED]
  /\ tick_count (rtos_tick_handler k) = 2
  /\ map state (tasks (unblock_pass (advance_tick k))) = [TASK_READY]
  /\ map state (tasks (rtos_tick_handler k)) = [TASK_RUNNING].
Proof. repeat split; reflexivity. Qed.

(** C6, amended: let task [i] be Blocked with [blocked_tick] equal to the
    current tick count [T] and with timeout [K].  Under [tick] calls alone
    the task stays exactly as it was blocked through every tick whose count
    is below [T + max 1 K].  The tick that brings the count to
    [T + max 1 K] (modulo [2^32]) wakes it: its unblock pass makes the task
    Ready, and when [rtos_tick_handler] returns the task is Ready, or it
    has been dispatched by that same tick and is the Running, current
    task.  For [K >= 1] that is the tick [T + K] and no earlier one; for
    [K = 0] it is the very next tick, [T + 1]. *)
Theorem timeout_exactness (k : RTOS_Kernel) (i : nat) (t : TCB) :
  tasks k !! i = Some t -> state t = TASK_BLOCKED ->
  blocked_tick t = tick_count k ->
  0 <= tick_count k < UINT32_MOD ->
  0 <= timeout t < UINT32_MOD ->
  let first := Z.max 1 (timeout t) in
  let before := ticks (Z.to_nat (first - 1)) k in
  let woken := rtos_tick_handler before in
  (forall n : nat, Z.of_nat n < first -> tasks (ticks n k) !! i = Some t)
  /\ woken = ticks (Z.to_nat first) k
  /\ tick_count woken = (tick_count k + first) mod UINT32_MOD
  /\ tasks (unblock_pass (advance_tick before)) !! i
     = Some (set_state TASK_READY t)
  /\ (tasks woken !! i = Some (set_state TASK_READY t)
      \/ (tasks woken !! i = Some (incr_run_count (set_state TASK_RUNNING t))
          /\ current_task woken = id t))
  /\ (1 <= timeout t ->
      tick_count woken = (tick_count k + timeout t) mod UINT32_MOD)
  /\ (timeout t = 0 -> woken = rtos_tick_handler k).
Proof.
  intros Hi Hst HT HT0 HK first before woken.
  assert (forall n : nat, Z.of_nat n < first -> tasks (ticks n k) !! i = Some t)
    as Hkeep by (intros n Hn; apply (ticks_keep_blocked k i t n); assumption).
  destruct (ticks_keep_blocked k i t (Z.to_nat (first - 1)))
    as [Hb Hc]; try assumption; [subst first; lia|].
  fold before in Hb, Hc.
  assert (u32_incr (tick_count before)
          = (tick_count k + first) mod UINT32_MOD) as Hnow.
  { rewrite Hc, u32_incr_mod. f_equal. subst first. lia. }
  assert (tasks (unblock_pass (advance_tick before)) !! i
          = Some (set_state TASK_READY t)) as Hready.
  { rewrite (unblock_pass_blocked _ i t Hb Hst), Hnow.
    rewrite (timeout_expired_after (tick_count k));
      [|assumption|subst first; unfold UINT32_MOD in *; lia].
    assert ((timeout t <=? first) = true) as ->
      by (apply Z.leb_le; subst first; lia).
    reflexivity. }
  assert (tick_count woken = (tick_count k + first) mod UINT32_MOD) as Hcount
    by (subst woken; rewrite tick_count_tick; exact Hnow).
  split; [exact Hkeep|].
  split.
  { subst woken before.
    replace (Z.to_nat first) with (S (Z.to_nat (first - 1)))
      by (subst first; lia).
    reflexivity. }
  split; [exact Hcount|].
  split; [exact Hready|].
  split.
  { subst woken. unfold rtos_tick_handler.
    exact (preempt_or_dispatch_ready _ i _ Hready eq_refl). }
  split.
  - intros H1. rewrite Hcount. subst first. rewrite Z.max_r by lia. reflexivity.
  - intros H0. subst woken before first. rewrite H0. reflexivity.
Qed.

(** C7, as stated, fails: task 0 (priority 1) runs and no task is Ready,
    but task 1 (priority 3) is Blocked with a timeout that expires at the
    next tick.  That tick unblocks task 1 before it checks for preemption,
    demotes task 0 and counts a switch. *)
Lemma tick_preempts_for_unblocked_task :
  let k := run [create_task 1 1000 1000; tick; create_task 3 2000 2000;
                block_current 1; tick; block_current 1] rtos_init in
  map state (tasks k) = [TASK_RUNNING; TASK_BLOCKED]
  /\ map priority (tasks k) = [1; 3]
  /\ map state (tasks (rtos_tick_handler k)) = [TASK_READY; TASK_RUNNING]
  /\ total_switches (rtos_tick_handler k) = u32_incr (total_switches k).
Proof. repeat split; reflexivity. Qed.

(** The preemption scan finds nothing when no Ready task has a priority
    above the running task's. *)
Lemma should_preempt_false (k : RTOS_Kernel) (c : TCB) :
  (forall j t, tasks k !! j = Some t -> state t = TASK_READY ->
               priority t <= priority c) ->
  should_preempt k c = false.
Proof.
  intros Hle. unfold should_preempt.
  destruct (existsb _ (tasks k)) eqn:Hex; [|reflexivity].
  apply existsb_exists in Hex as (t & Hin & Ht).
  apply andb_true_iff in Ht as [Hst Hlt].
  apply TaskState_eqb_eq in Hst. rewrite Z.gtb_ltb in Hlt. apply Z.ltb_lt in Hlt.
  apply list_elem_of_In, list_elem_of_lookup in Hin as [j Hj].
  specialize (Hle j t Hj Hst). lia.
Qed.

(** Altering a task without touching its state leaves the states of the
    table as they are. *)
Lemma map_state_alter (f : TCB -> TCB) (l : list TCB) :
  (forall t, state (f t) = state t) ->
  forall i, map state (alter f i l) = map state l.
Proof.
  intros Hf. induction l as [|a l IH]; intros [|i]; cbn; try reflexivity.
  - rewrite Hf. reflexivity.
  - f_equal. apply IH.
Qed.

(** C7, amended: in a kernel reached through the interface let task [i] be
    Running, and let every task that is Ready once the unblock pass of the
    tick has run (a task that is Ready already, or a Blocked task whose
    timeout expires at this tick) have a priority not above that of task
    [i].  Then the tick does not demote task [i]: it stays current and
    Running (its run count goes up by one), it is the only Running task, and
    [total_switches] is unchanged.  A task of equal priority does not
    preempt. *)
Theorem no_preemption_without_higher_priority
  (ops : list op) (i : nat) (c : TCB) :
  let k := run ops rtos_init in
  tasks k !! i = Some c ->
  state c = TASK_RUNNING ->
  (forall j t, tasks k !! j = Some t ->
               state t = TASK_READY
               \/ (state t = TASK_BLOCKED
                   /\ timeout_expired (u32_incr (tick_count k)) t = true) ->
               priority t <= priority c) ->
  let k' := rtos_tick_handler k in
  total_switches k' = total_switches k
  /\ current_task k' = i
  /\ tasks k' !! i = Some (incr_run_count c)
  /\ (forall j t, tasks k' !! j = Some t -> state t = TASK_RUNNING -> j = i)
  /\ map state (tasks k') = map state (tasks (unblock_pass (advance_tick k))).
Proof.
  intros k Hi Hrun Hle k'.
  pose proof (kernel_inv_run ops _ kernel_inv_init) as Hinv. fold k in Hinv.
  pose proof (kernel_inv_tick k Hinv) as (_ & Hrun' & _). fold k' in Hrun'.
  destruct Hinv as (_ & Hcur & _).
  pose proof (Hcur i c Hi Hrun) as Hic.
  set (k1 := unblock_pass (advance_tick k)).
  assert (tasks k1 !! i = Some c) as Hi1.
  { subst k1. cbn. rewrite lookup_map, Hi. cbn. unfold unblock.
    rewrite Hrun. reflexivity. }
  assert (should_preempt k1 c = false) as Hnp.
  { apply should_preempt_false. intros j t Hj Hst.
    subst k1. cbn in Hj. apply lookup_map_Some in Hj as (t0 & Hj & ->).
    unfold unblock in Hst |- *.
    destruct (TaskState_eqb (state t0) TASK_BLOCKED) eqn:Hb; cbn in Hst |- *.
    - apply TaskState_eqb_eq in Hb.
      destruct (timeout_expired (u32_incr (tick_count k)) t0) eqn:He.
      + apply (Hle j t0 Hj). right. split; assumption.
      + congruence.
    - apply (Hle j t0 Hj). left. assumption. }
  assert (k' = simulate_task_execution i k1) as Hk'.
  { subst k'. unfold rtos_tick_handler. fold k1. unfold preempt_or_dispatch.
    replace (current_task k1) with i by exact Hic.
    rewrite Hi1, Hrun. cbn [TaskState_eqb]. rewrite Hnp. reflexivity. }
  split; [rewrite Hk'; reflexivity|].
  split; [rewrite Hk'; symmetry; exact Hic|].
  split; [rewrite Hk'; cbn; rewrite list_lookup_alter_eq; cbn in Hi1;
          rewrite Hi1; reflexivity|].
  split.
  - intros j t Hj Hst. rewrite (Hrun' j t Hj Hst), Hk'. symmetry. exact Hic.
  - rewrite Hk'. cbn. apply map_state_alter. reflexivity.
Qed.

Lemma no_preemption_without_higher_priority_witness :
  let k := run [create_task 2 1000 1000; tick; create_task 2 500 500] rtos_init in
  let k' := rtos_tick_handler k in
  map state (tasks k) = [TASK_RUNNING; TASK_READY]
  /\ total_switches k' = total_switches k
  /\ current_task k' = 0%nat
  /\ map state (tasks k') = [TASK_RUNNING; TASK_READY].
Proof.
  pose proof (no_preemption_without_higher_priority
                [create_task 2 1000 1000; tick; create_task 2 500 500] 0%nat
                (mkTCB 0 2 1000 1000 TASK_RUNNING 0 0 1)
                eq_refl eq_refl) as H.
  cbv zeta in H.
  destruct H as (Hsw & Hcur & _ & _ & Hst).
  - intros [|[|j]] t Hj _; cbn in Hj; try discriminate;
      injection Hj as <-; cbn; lia.
  - repeat split; assumption.
Defined.

Lemma timeout_exactness_witness :
  let k := run [create_task 1 1000 1000; tick; block_current 3] rtos_init in
  let t := mkTCB 0 1 1000 1000 TASK_BLOCKED 1 3 1 in
  tasks k !! 0%nat = Some t
  /\ tasks (ticks 1 k) !! 0%nat = Some t
  /\ tasks (ticks 2 k) !! 0%nat = Some t
  /\ tasks (unblock_pass (advance_tick (ticks 2 k))) !! 0%nat
     = Some (set_state TASK_READY t)
  /\ tick_count (ticks 3 k) = 4
  /\ tasks (ticks 3 k) !! 0%nat
     = Some (incr_run_count (set_state TASK_RUNNING t))
  /\ (tasks (ticks 3 k) !! 0%nat = Some (set_state TASK_READY t)
      \/ (tasks (ticks 3 k) !! 0%nat
          = Some (incr_run_count (set_state TASK_RUNNING t))
          /\ current_task (ticks 3 k) = id t)).
Proof.
  intros k t.
  assert (0 <= tick_count k < UINT32_MOD) as H1
    by (vm_compute; split; [discriminate|reflexivity]).
  assert (0 <= timeout t < UINT32_MOD) as H2
    by (vm_compute; split; [discriminate|reflexivity]).
  destruct (timeout_exactness k 0%nat t eq_refl eq_refl eq_refl H1 H2)
    as (Hkeep & _ & _ & Hready & Hwoken & _).
  split; [reflexivity|].
  split; [apply (Hkeep 1%nat); reflexivity|].
  split; [apply (Hkeep 2%nat); reflexivity|].
  split; [exact Hready|].
  split; [reflexivity|].
  split; [reflexivity|].
  exact Hwoken.
Defined.

(** ** Rate-monotonic task selection *)

Section RmsFacts.

Import RtDemo.

Lemma select_rms_loop_cons (base : nat) (a : rt_task_t) (ts : list rt_task_t)
  (acc : option nat * Z) :
  select_rms_loop base (a :: ts) acc
  = select_rms_loop (S base) ts (select_rms_step acc (base, a)).
Proof. reflexivity. Qed.

(** The loop either keeps its state, and then no pending task has a
    priority value below the bound it started with, or it ends on the
    first of the pending tasks with the least priority value, which is
    below that bound. *)
Lemma select_rms_loop_spec (ts : list rt_task_t) :
  forall (base : nat) (sel : option nat) (hp : Z),
    (select_rms_loop base ts (sel, hp) = (sel, hp)
     /\ forall j t, ts !! j = Some t -> pending t = true -> hp <= priority t)
    \/ (exists j t,
          ts !! j = Some t /\ pending t = true
          /\ select_rms_loop base ts (sel, hp) = (Some (base + j)%nat, priority t)
          /\ priority t < hp
          /\ forall j' t', ts !! j' = Some t' -> pending t' = true ->
                priority t <= priority t'
                /\ (priority t' = priority t -> (j <= j')%nat)).
Proof.
  induction ts as [|a ts IH]; intros base sel hp.
  - left. split; [reflexivity|]. intros j t H. destruct j; discriminate.
  - rewrite select_rms_loop_cons. unfold select_rms_step. cbn [snd].
    destruct (pending a) eqn:Hpa;
      [destruct (Z.ltb_spec (priority a) hp) as [Hlt|Hge]|].
    + right.
      destruct (IH (S base) (Some base) (priority a))
        as [[Heq Hall]|(j & t & Hj & Hp & Heq & Hlt' & Hmin)].
      * exists 0%nat, a. rewrite Nat.add_0_r.
        repeat split; try assumption; destruct j' as [|j']; cbn in *;
          try lia; try (injection H as <-; lia); eapply Hall; eassumption.
      * exists (S j), t. rewrite Nat.add_succ_r.
        repeat split; try assumption; try lia; destruct j' as [|j'];
          cbn in *; try (injection H as <-; lia);
          try (apply (Hmin j' t' H H0)).
        intros He. pose proof (proj2 (Hmin j' t' H H0) He). lia.
    + destruct (IH (S base) sel hp)
        as [[Heq Hall]|(j & t & Hj & Hp & Heq & Hlt' & Hmin)].
      * left. split; [assumption|]. intros [|j] t H Hp; cbn in H.
        -- injection H as <-. assumption.
        -- eapply Hall; eassumption.
      * right. exists (S j), t. rewrite Nat.add_succ_r.
        repeat split; try assumption; destruct j' as [|j'];
          cbn in *; try (injection H as <-; lia);
          try (apply (Hmin j' t' H H0)).
        intros He. pose proof (proj2 (Hmin j' t' H H0) He). lia.
    + destruct (IH (S base) sel hp)
        as [[Heq Hall]|(j & t & Hj & Hp & Heq & Hlt' & Hmin)].
      * left. split; [assumption|]. intros [|j] t H Hp; cbn in H.
        -- injection H as <-. congruence.
        -- eapply Hall; eassumption.
      * right. exists (S j), t. rewrite Nat.add_succ_r.
        repeat split; try assumption; destruct j' as [|j'];
          cbn in *; try (injection H as <-; congruence);
          try (apply (Hmin j' t' H H0)).
        intros He. pose proof (proj2 (Hmin j' t' H H0) He). lia.
Qed.

(** [select_rms_task] returns [NULL] exactly when no pending task has a
    priority value below [INT_MAX]. *)
Lemma select_rms_task_None (s : rt_scheduler_t) :
  select_rms_task s = None
  <-> forall j t, tasks s !! j = Some t -> pending t = true ->
                  INT_MAX <= priority t.
Proof.
  unfold select_rms_task.
  destruct (select_rms_loop_spec (tasks s) 0 None INT_MAX)
    as [[Heq Hall]|(j & t & Hj & Hp & Heq & Hlt & Hmin)]; rewrite Heq; cbn.
  - split; [intros _; exact Hall|reflexivity].
  - split; [discriminate|]. intros Hall. specialize (Hall j t Hj Hp). lia.
Qed.

(** When [select_rms_task] selects a slot, the task there is pending, has
    the least priority value of the pending tasks, and is the first of
    the pending tasks with that value. *)
Lemma select_rms_task_Some (s : rt_scheduler_t) (i : nat) :
  select_rms_task s = Some i ->
  exists t,
    tasks s !! i = Some t /\ pending t = true /\ priority t < INT_MAX
    /\ forall j t', tasks s !! j = Some t' -> pending t' = true ->
          priority t <= priority t'
          /\ (priority t' = priority t -> (i <= j)%nat).
Proof.
  unfold select_rms_task.
  destruct (select_rms_loop_spec (tasks s) 0 None INT_MAX)
    as [[Heq Hall]|(j & t & Hj & Hp & Heq & Hlt & Hmin)]; rewrite Heq; cbn.
  - discriminate.
  - intros [= <-]. exists t. repeat split; try assumption; apply (Hmin _ _ H H0).
Qed.

End RmsFacts.

(** C10, on the code: a task added with period [INT_MAX] gets the priority
    value [INT_MAX]; once released it is active with remaining execution
    above 0, and it is the only task.  [select_rms_task] still returns
    [NULL]: the loop starts from [highest_priority = INT_MAX] and accepts a
    task only on [priority < highest_priority]. *)
Theorem select_rms_task_misses_int_max_period :
  let s := RtDemo.release_periodic_tasks
             (RtDemo.add_rt_task RtDemo.initialize_rt_scheduler
                                 1 RtDemo.INT_MAX 1 0) in
  map RtDemo.pending (RtDemo.tasks s) = [true]
  /\ map RtDemo.priority (RtDemo.tasks s) = [RtDemo.INT_MAX]
  /\ RtDemo.select_rms_task s = None.
Proof. repeat split; reflexivity. Qed.

(** ** The ready queue keeps its entries *)

Section HeapContents.

Variable TCBp : Type.
Variable priority : TCBp -> Z.
Variable deadline : TCBp -> Z.

Lemma swap_index_involutive (i p j : nat) :
  swap_index i p (swap_index i p j) = j.
Proof.
  unfold swap_index.
  destruct (Nat.eqb_spec j i) as [->|Hji].
  - destruct (Nat.eqb_spec p i) as [->|Hpi]; [reflexivity|].
    rewrite Nat.eqb_refl. reflexivity.
  - destruct (Nat.eqb_spec j p) as [->|Hjp].
    + rewrite Nat.eqb_refl. reflexivity.
    + destruct (Nat.eqb_spec j i); [contradiction|].
      destruct (Nat.eqb_spec j p); [contradiction|reflexivity].
Qed.

Lemma swap_index_lt (i p j m : nat) :
  (i < m)%nat -> (p < m)%nat -> (j < m)%nat -> (swap_index i p j < m)%nat.
Proof.
  intros Hi Hp Hj. unfold swap_index.
  destruct (Nat.eqb j i); [assumption|]. destruct (Nat.eqb j p); assumption.
Qed.

Lemma swap_index_seq (i p m : nat) :
  (i < m)%nat -> (p < m)%nat ->
  Permutation (map (swap_index i p) (seq 0 m)) (seq 0 m).
Proof.
  intros Hi Hp. change (map (swap_index i p) (seq 0 m))
    with (swap_index i p <$> seq 0 m).
  assert (Inj (=) (=) (swap_index i p)) as Hinj.
  { intros x y Hxy. rewrite <- (swap_index_involutive i p x), Hxy.
    apply swap_index_involutive. }
  apply NoDup_Permutation.
  - apply (NoDup_fmap_2 _), NoDup_seq.
  - apply NoDup_seq.
  - intros x. rewrite list_elem_of_fmap. split.
    + intros (j & -> & Hj). apply elem_of_seq in Hj. apply elem_of_seq.
      pose proof (swap_index_lt i p j m Hi Hp). lia.
    + intros Hx. apply elem_of_seq in Hx. exists (swap_index i p x).
      split; [symmetry; apply swap_index_involutive|]. apply elem_of_seq.
      pose proof (swap_index_lt i p x m Hi Hp). lia.
Qed.

(** Moving an entry into the hole and the hole to where the entry was
    permutes the array. *)
Lemma move_hole_perm (a : nat -> TCBp) (i p m : nat) (x : TCBp) :
  (i < m)%nat -> (p < m)%nat -> i <> p ->
  Permutation (map (Heap.store (Heap.store a i (a p)) p x) (seq 0 m))
              (map (Heap.store a i x) (seq 0 m)).
Proof.
  intros Hi Hp Hne.
  rewrite <- (Permutation_map (Heap.store a i x) (swap_index_seq i p m Hi Hp)).
  rewrite map_map. apply Permutation_refl'. apply map_ext. intros j.
  unfold Heap.store, swap_index.
  destruct (Nat.eqb_spec j p) as [->|Hjp].
  - destruct (Nat.eqb_spec p i); [congruence|]. rewrite Nat.eqb_refl.
    reflexivity.
  - destruct (Nat.eqb_spec j i) as [->|Hji].
    + destruct (Nat.eqb_spec p i); [congruence|reflexivity].
    + destruct (Nat.eqb_spec j i); [contradiction|reflexivity].
Qed.

Lemma sift_up_perm (task : TCBp) (m fuel : nat) :
  forall a i, (i < m)%nat ->
    forall a' i' tr,
      Heap.sift_up TCBp priority deadline fuel a i task = (a', i', tr) ->
      Permutation (map (Heap.store a' i' task) (seq 0 m))
                  (map (Heap.store a i task) (seq 0 m)).
Proof.
  induction fuel as [|fuel IH]; intros a i Hi a' i' tr Heq.
  - cbn in Heq. injection Heq as <- <- <-. reflexivity.
  - rewrite sift_up_unfold in Heq.
    destruct (Nat.eqb_spec i 0) as [->|Hne].
    { injection Heq as <- <- <-. reflexivity. }
    pose proof (parent_lt i Hne) as Hp.
    cbv zeta in Heq.
    set (p := ((i - 1) / 2)%nat) in *. clearbody p.
    destruct ((priority (a p) >=? priority task)
              && (deadline (a p) <=? deadline task)).
    { injection Heq as <- <- <-. reflexivity. }
    destruct (Heap.sift_up TCBp priority deadline fuel
                (Heap.store a i (a p)) p task) as [[a1 i1] tr1] eqn:Hrec.
    injection Heq as <- <- <-.
    apply IH in Hrec; [|lia].
    rewrite Hrec. apply move_hole_perm; lia.
Qed.

Lemma contents_snoc (a : nat -> TCBp) (n : nat) (x : TCBp) :
  map (Heap.store a n x) (seq 0 (S n)) = map a (seq 0 n) ++ [x].
Proof.
  rewrite seq_S, map_app. cbn. unfold Heap.store at 2.
  rewrite Nat.eqb_refl. f_equal.
  apply map_ext_in. intros j Hj. apply in_seq in Hj. unfold Heap.store.
  destruct (Nat.eqb_spec j n); [lia|reflexivity].
Qed.

Lemma sift_down_perm (last : TCBp) (n fuel : nat) :
  forall a i, (i < n)%nat ->
    forall a' i',
      Heap.sift_down TCBp priority deadline fuel a n last i = (a', i') ->
      (i' < n)%nat
      /\ Permutation (map (Heap.store a' i' last) (seq 0 n))
                     (map (Heap.store a i last) (seq 0 n)).
Proof.
  induction fuel as [|fuel IH]; intros a i Hi a' i' Heq.
  - cbn in Heq. injection Heq as <- <-. split; [assumption|reflexivity].
  - rewrite sift_down_unfold in Heq.
    destruct (Nat.ltb_spec (i * 2 + 1) n) as [Hlt|Hge]; cbn [negb] in Heq;
      [|injection Heq as <- <-; split; [assumption|reflexivity]].
    cbv zeta in Heq.
    set (hp := if _ && _ then (i * 2 + 1 + 1)%nat else (i * 2 + 1)%nat) in Heq.
    assert ((i < hp)%nat /\ (hp < n)%nat) as [Hihp Hhpn].
    { subst hp. destruct (Nat.ltb (i * 2 + 1 + 1) n && _) eqn:E;
        [apply andb_true_iff in E as [E _]; apply Nat.ltb_lt in E|]; lia. }
    clearbody hp.
    destruct (_ || _);
      [injection Heq as <- <-; split; [assumption|reflexivity]|].
    apply IH in Heq as [Hlt' Hperm]; [|assumption].
    split; [assumption|].
    rewrite Hperm. apply move_hole_perm; lia.
Qed.

Lemma insert_contents (q : Heap.PriorityQueue TCBp) (task : TCBp) :
  Permutation
    (Heap.contents (Heap.priority_queue_insert TCBp priority deadline q task))
    (task :: Heap.contents q).
Proof.
  unfold Heap.contents, Heap.priority_queue_insert, Heap.insert_run.
  destruct (Heap.sift_up TCBp priority deadline (Heap.size q) (Heap.tasks q)
              (Heap.size q) task) as [[a i] tr] eqn:Hs.
  cbn [fst Heap.tasks Heap.size].
  apply (sift_up_perm task (S (Heap.size q))) in Hs; [|lia].
  rewrite Hs, contents_snoc. symmetry. apply Permutation_cons_append.
Qed.

Lemma extract_contents (q q' : Heap.PriorityQueue TCBp) (r : TCBp) :
  Heap.priority_queue_extract TCBp priority deadline q = (Some r, q') ->
  r = Heap.tasks q 0%nat
  /\ Heap.size q = S (Heap.size q')
  /\ Permutation (r :: Heap.contents q') (Heap.contents q).
Proof.
  unfold Heap.priority_queue_extract, Heap.contents.
  destruct (Nat.eqb_spec (Heap.size q) 0) as [Hz|Hnz]; [discriminate|].
  destruct (Heap.size q) as [|n] eqn:Hsize; [contradiction|].
  replace (S n - 1)%nat with n by lia.
  destruct (Heap.sift_down TCBp priority deadline n (Heap.tasks q) n
              (Heap.tasks q n) 0) as [a i] eqn:Hs.
  intros [= <- <-]. cbn [Heap.tasks Heap.size].
  split; [reflexivity|]. split; [reflexivity|].
  destruct n as [|n].
  - cbn. reflexivity.
  - apply (sift_down_perm (Heap.tasks q (S n)) (S n)) in Hs as [_ Hperm];
      [|lia].
    cbn [Nat.ltb Nat.leb]. rewrite Hperm.
    replace (map (Heap.store (Heap.tasks q) 0 (Heap.tasks q (S n))) (seq 0 (S n)))
      with (Heap.tasks q (S n) :: map (Heap.tasks q) (seq 1 n)).
    2:{ cbn [seq map]. unfold Heap.store at 1. cbn [Nat.eqb]. f_equal.
        apply map_ext_in. intros j Hj. apply in_seq in Hj. unfold Heap.store.
        destruct (Nat.eqb_spec j 0); [lia|reflexivity]. }
    replace (map (Heap.tasks q) (seq 0 (S (S n))))
      with (Heap.tasks q 0%nat
            :: (map (Heap.tasks q) (seq 1 n) ++ [Heap.tasks q (S n)])).
    2:{ rewrite (seq_S (S n) 0), map_app. reflexivity. }
    apply perm_skip, Permutation_cons_append.
Qed.

Lemma extract_empty (q : Heap.PriorityQueue TCBp) :
  Heap.size q = 0%nat ->
  Heap.priority_queue_extract TCBp priority deadline q = (None, q).
Proof.
  intros Hz. unfold Heap.priority_queue_extract. rewrite Hz. reflexivity.
Qed.

Lemma drain_fuel_contents (fuel : nat) :
  forall q : Heap.PriorityQueue TCBp,
    (Heap.size q <= fuel)%nat ->
    Permutation (Heap.drain_fuel TCBp priority deadline fuel q)
                (Heap.contents q).
Proof.
  induction fuel as [|fuel IH]; intros q Hle.
  - cbn. unfold Heap.contents.
    assert (Heap.size q = 0%nat) as -> by lia. reflexivity.
  - cbn [Heap.drain_fuel].
    destruct (Heap.priority_queue_extract TCBp priority deadline q)
      as [[r|] q'] eqn:Hex.
    + apply extract_contents in Hex as (_ & Hsize & Hperm).
      rewrite <- Hperm. apply perm_skip, IH. lia.
    + unfold Heap.priority_queue_extract in Hex.
      destruct (Nat.eqb_spec (Heap.size q) 0) as [Hz|Hnz].
      * unfold Heap.contents. rewrite Hz. reflexivity.
      * destruct (Heap.sift_down _ _ _ _ _ _ _ _). discriminate.
Qed.

Lemma insert_all_contents (ts : list TCBp) :
  forall q : Heap.PriorityQueue TCBp,
    Permutation (Heap.contents (Heap.insert_all TCBp priority deadline q ts))
                (ts ++ Heap.contents q).
Proof.
  unfold Heap.insert_all.
  induction ts as [|t ts IH]; intros q; [reflexivity|].
  cbn [fold_left]. rewrite IH, insert_contents.
  cbn. symmetry. apply Permutation_middle.
Qed.

End HeapContents.

(** ** The capacity of the ready queue *)




(** X1: on a queue that holds fewer than [MAX_TASKS] entries,
    [priority_queue_insert] neither loses nor duplicates an entry: the
    entries of the queue afterwards are the new task and the entries it
    had, in some order, and the slots beyond them are as they were. *)
Theorem insert_keeps_entries (TCBp : Type) (prio dl : TCBp -> Z)
  (q : Heap.PriorityQueue TCBp) (task : TCBp) :
  (Heap.size q < MAX_TASKS)%nat ->
  Permutation (Heap.contents (Heap.priority_queue_insert TCBp prio dl q task))
              (task :: Heap.contents q)
  /\ forall j, (Heap.size q < j)%nat ->
       Heap.tasks (Heap.priority_queue_insert TCBp prio dl q task) j
       = Heap.tasks q j.
Proof.
  intros _. split; [apply insert_contents|apply insert_beyond].
Qed.

Lemma insert_keeps_entries_witness :
  let q := Heap.insert_all (Z * Z) fst snd key_queue [(3, 2000); (2, 1500)] in
  Heap.contents (Heap.priority_queue_insert (Z * Z) fst snd q (1, 1000))
  = [(1, 1000); (3, 2000); (2, 1500)]
  /\ Permutation
       (Heap.contents (Heap.priority_queue_insert (Z * Z) fst snd q (1, 1000)))
       ((1, 1000) :: Heap.contents q).
Proof.
  intros q. split; [reflexivity|].
  apply (insert_keeps_entries (Z * Z) fst snd q (1, 1000)).
  vm_compute. repeat constructor.
Defined.

(** X2: [priority_queue_extract] returns [NULL] and leaves the queue as it
    is when the queue is empty; otherwise it returns the entry of slot 0,
    the size goes down by one, and the entries left are the old ones
    without the returned one. *)
Theorem extract_removes_root (TCBp : Type) (prio dl : TCBp -> Z)
  (q : Heap.PriorityQueue TCBp) :
  match Heap.priority_queue_extract TCBp prio dl q with
  | (None, q') => Heap.size q = 0%nat /\ q' = q
  | (Some r, q') =>
      r = Heap.tasks q 0%nat
      /\ Heap.size q = S (Heap.size q')
      /\ Permutation (r :: Heap.contents q') (Heap.contents q)
  end.
Proof.
  destruct (Heap.priority_queue_extract TCBp prio dl q) as [[r|] q'] eqn:Hex.
  - apply (extract_contents TCBp prio dl), Hex.
  - unfold Heap.priority_queue_extract in Hex.
    destruct (Nat.eqb_spec (Heap.size q) 0) as [Hz|Hnz].
    + injection Hex as <-. split; [assumption|reflexivity].
    + destruct (Heap.sift_down _ _ _ _ _ _ _ _). discriminate.
Qed.

(** X3: after a sequence of at most [MAX_TASKS] insertions into an emptied
    queue, calling [priority_queue_extract] until it returns [NULL]
    delivers every inserted task exactly once. *)
Theorem drain_delivers_every_task (TCBp : Type) (prio dl : TCBp -> Z)
  (q : Heap.PriorityQueue TCBp) (ts : list TCBp) :
  (length ts <= MAX_TASKS)%nat ->
  Permutation
    (Heap.drain TCBp prio dl
       (Heap.insert_all TCBp prio dl (Heap.priority_queue_init q) ts))
    ts.
Proof.
  intros _. unfold Heap.drain. rewrite drain_fuel_contents by lia.
  rewrite insert_all_contents. cbn. rewrite app_nil_r. reflexivity.
Qed.

Lemma drain_delivers_every_task_witness :
  Heap.drain (Z * Z) fst snd
    (Heap.insert_all (Z * Z) fst snd key_queue [(3, 2000); (1, 1000); (2, 1500)])
  = [(2, 1500); (3, 2000); (1, 1000)]
  /\ Permutation
       (Heap.drain (Z * Z) fst snd
          (Heap.insert_all (Z * Z) fst snd key_queue
             [(3, 2000); (1, 1000); (2, 1500)]))
       [(3, 2000); (1, 1000); (2, 1500)].
Proof.
  split; [reflexivity|].
  apply (drain_delivers_every_task (Z * Z) fst snd
           (Heap.mkQueue (fun _ => (0, 0)) 0)
           [(3, 2000); (1, 1000); (2, 1500)]).
  vm_compute. repeat constructor.
Defined.

(** ** When the ready queue delivers tasks in order *)

Section HeapOrder.

Variable TCBp : Type.
Variable priority : TCBp -> Z.
Variable deadline : TCBp -> Z.

(** The tasks in play, any two of which are comparable: one of them has
    both the priority that is not lower and the deadline that is not
    later. *)
Variable P : TCBp -> Prop.
Hypothesis comparable :
  forall x y, P x -> P y ->
    Heap.dominates TCBp priority deadline x y
    \/ Heap.dominates TCBp priority deadline y x.

Abbreviation dom := (Heap.dominates TCBp priority deadline).
Abbreviation ranks_before := (Heap.ranks_before TCBp priority deadline).

Lemma dominates_trans (x y z : TCBp) : dom x y -> dom y z -> dom x z.
Proof. unfold Heap.dominates. lia. Qed.

Lemma dominates_ranks_before (x y : TCBp) : dom x y -> ranks_before x y = true.
Proof. unfold Heap.dominates, Heap.ranks_before. lia. Qed.

Lemma ranks_before_dominates (x y : TCBp) :
  P x -> P y -> ranks_before x y = true -> dom x y.
Proof.
  intros Hx Hy. destruct (comparable x y Hx Hy) as [H|H]; [trivial|].
  revert H. unfold Heap.dominates, Heap.ranks_before. lia.
Qed.

Lemma not_ranks_before_dominates (x y : TCBp) :
  P x -> P y -> ranks_before x y = false -> dom y x.
Proof.
  intros Hx Hy. destruct (comparable x y Hx Hy) as [H|H]; [|trivial].
  revert H. unfold Heap.dominates, Heap.ranks_before. lia.
Qed.

(** The test of the insertion loop, as a statement. *)
Lemma insert_test_dominates (p x : TCBp) :
  (priority p >=? priority x) && (deadline p <=? deadline x) = true
  <-> dom p x.
Proof. unfold Heap.dominates. lia. Qed.

Lemma parent_children (j i : nat) :
  (0 < j)%nat -> ((j - 1) / 2)%nat = i ->
  j = (i * 2 + 1)%nat \/ j = (i * 2 + 1 + 1)%nat.
Proof.
  intros Hj <-.
  pose proof (Nat.div_mod_eq (j - 1) 2).
  pose proof (Nat.mod_upper_bound (j - 1) 2). lia.
Qed.

Lemma parent_of_left (i : nat) : ((i * 2 + 1 - 1) / 2)%nat = i.
Proof. replace (i * 2 + 1 - 1)%nat with (i * 2)%nat by lia. apply Nat.div_mul. lia. Qed.

Lemma parent_of_right (i : nat) : ((i * 2 + 1 + 1 - 1) / 2)%nat = i.
Proof.
  symmetry. apply (Nat.div_unique _ 2 i 1); lia.
Qed.

(** The insertion loop restores the heap order.  The hypotheses describe
    the array with a hole at [i]: the entries that do not touch the hole are
    in order, and the children of the hole are dominated both by the task
    and by the parent of the hole. *)
Lemma sift_up_heap (task : TCBp) (n : nat) :
  P task ->
  forall fuel a i,
    (i <= fuel)%nat -> (i <= n)%nat ->
    (forall j, (j <= n)%nat -> j <> i -> P (a j)) ->
    (forall j, (0 < j <= n)%nat -> j <> i -> ((j - 1) / 2)%nat <> i ->
               dom (a ((j - 1) / 2)%nat) (a j)) ->
    (forall j, (0 < j <= n)%nat -> ((j - 1) / 2)%nat = i -> dom task (a j)) ->
    (forall j, (0 < j <= n)%nat -> ((j - 1) / 2)%nat = i -> (0 < i)%nat ->
               dom (a ((i - 1) / 2)%nat) (a j)) ->
    forall a' i' tr,
      Heap.sift_up TCBp priority deadline fuel a i task = (a', i', tr) ->
      Heap.heap_ordered TCBp priority deadline (Heap.store a' i' task) (S n).
Proof.
  intros Ptask.
  assert (forall a i,
    (i <= n)%nat ->
    (forall j, (0 < j <= n)%nat -> j <> i -> ((j - 1) / 2)%nat <> i ->
               dom (a ((j - 1) / 2)%nat) (a j)) ->
    (forall j, (0 < j <= n)%nat -> ((j - 1) / 2)%nat = i -> dom task (a j)) ->
    (i = 0%nat \/ dom (a ((i - 1) / 2)%nat) task) ->
    Heap.heap_ordered TCBp priority deadline (Heap.store a i task) (S n))
    as Hstop.
  { intros a i Hi HA HB Hroot j Hj. unfold Heap.store.
    pose proof (parent_lt j ltac:(lia)) as Hpj.
    destruct (Nat.eqb_spec j i) as [->|Hji].
    - destruct (Nat.eqb_spec ((i - 1) / 2) i); [lia|].
      destruct Hroot as [->|Hd]; [lia|exact Hd].
    - destruct (Nat.eqb_spec ((j - 1) / 2) i) as [Hp|Hp].
      + apply HB; [lia|assumption].
      + apply HA; [lia|assumption..]. }
  induction fuel as [|fuel IH]; intros a i Hfuel Hi HP HA HB HC a' i' tr Heq.
  - cbn in Heq. injection Heq as <- <- <-.
    apply Hstop; try assumption. left. lia.
  - rewrite sift_up_unfold in Heq.
    destruct (Nat.eqb_spec i 0) as [->|Hne].
    { injection Heq as <- <- <-. apply Hstop; try assumption. left. reflexivity. }
    pose proof (parent_lt i Hne) as Hp.
    cbv zeta in Heq.
    destruct ((priority (a ((i - 1) / 2)%nat) >=? priority task)
              && (deadline (a ((i - 1) / 2)%nat) <=? deadline task)) eqn:Htest.
    { injection Heq as <- <- <-. apply Hstop; try assumption.
      right. apply insert_test_dominates, Htest. }
    set (p := ((i - 1) / 2)%nat) in *.
    assert (dom task (a p)) as Htp.
    { destruct (comparable task (a p)) as [H|H]; try assumption.
      - apply HP; lia.
      - apply insert_test_dominates in H. congruence. }
    destruct (Heap.sift_up TCBp priority deadline fuel
                (Heap.store a i (a p)) p task) as [[a1 i1] tr1] eqn:Hrec.
    injection Heq as <- <- <-.
    eapply (IH (Heap.store a i (a p)) p); try exact Hrec; try lia.
    + intros j Hj Hjp. unfold Heap.store.
      destruct (Nat.eqb_spec j i); [apply HP; lia|apply HP; lia].
    + intros j Hj Hjp Hpp. unfold Heap.store.
      destruct (Nat.eqb_spec j i) as [->|Hji]; [fold p in Hpp; lia|].
      destruct (Nat.eqb_spec ((j - 1) / 2) i) as [Hpi|Hpi].
      * apply HC; [lia|assumption|lia].
      * apply HA; [lia|assumption..].
    + intros j Hj Hjp. unfold Heap.store.
      destruct (Nat.eqb_spec j i) as [->|Hji]; [exact Htp|].
      apply (dominates_trans _ (a p)); [exact Htp|].
      rewrite <- Hjp. apply HA; [lia|assumption|lia].
    + intros j Hj Hjp Hp0. unfold Heap.store.
      pose proof (parent_lt p ltac:(lia)) as Hpp.
      destruct (Nat.eqb_spec ((p - 1) / 2) i); [lia|].
      assert (dom (a ((p - 1) / 2)%nat) (a p)) as Hgp
        by (apply HA; lia).
      destruct (Nat.eqb_spec j i) as [->|Hji]; [exact Hgp|].
      apply (dominates_trans _ (a p)); [exact Hgp|].
      rewrite <- Hjp. apply HA; [lia|assumption|lia].
Qed.

Lemma dominates_refl (x : TCBp) : dom x x.
Proof. unfold Heap.dominates. lia. Qed.

(** The comparison of the two children in the extraction loop. *)
Lemma child_choice (l r : TCBp) :
  P l -> P r ->
  if (priority r >? priority l)
     || ((priority r =? priority l) && (deadline r <? deadline l))
  then dom r l else dom l r.
Proof.
  intros Hl Hr.
  destruct (comparable l r Hl Hr) as [H|H]; revert H;
    unfold Heap.dominates;
    destruct ((priority r >? priority l)
              || ((priority r =? priority l) && (deadline r <? deadline l)))
      eqn:E; lia.
Qed.

(** The test on which the extraction loop stops. *)
Lemma extract_test (last x : TCBp) :
  (priority last >? priority x)
  || ((priority last =? priority x) && (deadline last <=? deadline x))
  = ranks_before last x.
Proof. unfold Heap.ranks_before. rewrite Z.gtb_ltb. reflexivity. Qed.

(** The extraction loop restores the heap order.  The hypotheses describe
    the array with a hole at [i]: the entries that do not touch the hole are
    in order, and the parent of the hole dominates both the task to place
    and the children of the hole. *)
Lemma sift_down_heap (last : TCBp) (n : nat) :
  P last ->
  forall fuel a i,
    (n - i <= fuel)%nat -> (i < n)%nat ->
    (forall j, (j < n)%nat -> j <> i -> P (a j)) ->
    (forall j, (0 < j < n)%nat -> j <> i -> ((j - 1) / 2)%nat <> i ->
               dom (a ((j - 1) / 2)%nat) (a j)) ->
    ((0 < i)%nat -> dom (a ((i - 1) / 2)%nat) last) ->
    (forall j, (0 < j < n)%nat -> ((j - 1) / 2)%nat = i -> (0 < i)%nat ->
               dom (a ((i - 1) / 2)%nat) (a j)) ->
    forall a' i',
      Heap.sift_down TCBp priority deadline fuel a n last i = (a', i') ->
      Heap.heap_ordered TCBp priority deadline (Heap.store a' i' last) n.
Proof.
  intros Plast.
  assert (forall a i,
    (forall j, (0 < j < n)%nat -> j <> i -> ((j - 1) / 2)%nat <> i ->
               dom (a ((j - 1) / 2)%nat) (a j)) ->
    ((0 < i)%nat -> dom (a ((i - 1) / 2)%nat) last) ->
    (forall j, (0 < j < n)%nat -> ((j - 1) / 2)%nat = i -> dom last (a j)) ->
    Heap.heap_ordered TCBp priority deadline (Heap.store a i last) n)
    as Hstop.
  { intros a i HA HB HD j Hj. unfold Heap.store.
    pose proof (parent_lt j ltac:(lia)) as Hpj.
    destruct (Nat.eqb_spec j i) as [->|Hji].
    - destruct (Nat.eqb_spec ((i - 1) / 2) i); [lia|]. apply HB. lia.
    - destruct (Nat.eqb_spec ((j - 1) / 2) i) as [Hp|Hp].
      + apply HD; [lia|assumption].
      + apply HA; [lia|assumption..]. }
  induction fuel as [|fuel IH]; intros a i Hfuel Hi HP HA HB HC a' i' Heq;
    [lia|].
  rewrite sift_down_unfold in Heq.
  destruct (Nat.ltb_spec (i * 2 + 1) n) as [Hlt|Hge]; cbn [negb] in Heq.
  2:{ injection Heq as <- <-. apply Hstop; try assumption.
      intros j Hj Hp.
      destruct (parent_children j i ltac:(lia) Hp); lia. }
  cbv zeta in Heq.
  set (l := (i * 2 + 1)%nat) in *. set (r := (l + 1)%nat) in *.
  set (hp := if Nat.ltb r n && _ then r else l) in Heq.
  assert ((hp = l \/ hp = r) /\ (hp < n)%nat
          /\ forall j, (0 < j < n)%nat -> ((j - 1) / 2)%nat = i ->
                       dom (a hp) (a j)) as (Hhp & Hhpn & Hbest).
  { subst hp.
    destruct (Nat.ltb_spec r n) as [Hr|Hr]; cbn [andb].
    - pose proof (child_choice (a l) (a r)
                    ltac:(apply HP; subst l; lia)
                    ltac:(apply HP; subst r l; lia)) as Hch.
      destruct ((priority (a r) >? priority (a l))
                || ((priority (a r) =? priority (a l))
                    && (deadline (a r) <? deadline (a l)))).
      + split; [right; reflexivity|]. split; [assumption|].
        intros j Hj Hp.
        destruct (parent_children j i ltac:(lia) Hp) as [-> | ->].
        * exact Hch.
        * apply dominates_refl.
      + split; [left; reflexivity|]. split; [assumption|].
        intros j Hj Hp.
        destruct (parent_children j i ltac:(lia) Hp) as [-> | ->].
        * apply dominates_refl.
        * exact Hch.
    - split; [left; reflexivity|]. split; [assumption|].
      intros j Hj Hp.
      destruct (parent_children j i ltac:(lia) Hp) as [-> | ->].
      + apply dominates_refl.
      + subst r l. lia. }
  assert (((hp - 1) / 2)%nat = i /\ (i < hp)%nat) as [Hphp Hihp].
  { destruct Hhp as [-> | ->]; subst r l;
      [rewrite parent_of_left|rewrite parent_of_right]; lia. }
  clearbody hp.
  rewrite extract_test in Heq.
  destruct (ranks_before last (a hp)) eqn:Htest.
  { injection Heq as <- <-. apply Hstop; try assumption.
    intros j Hj Hp. apply (dominates_trans _ (a hp)); [|apply Hbest; assumption].
    apply ranks_before_dominates; [assumption|apply HP; lia|assumption]. }
  assert (dom (a hp) last) as Hhl.
  { apply not_ranks_before_dominates; [assumption|apply HP; lia|assumption]. }
  eapply (IH (Heap.store a i (a hp)) hp); try exact Heq; try lia.
  - intros j Hj Hjh. unfold Heap.store.
    destruct (Nat.eqb_spec j i); apply HP; lia.
  - intros j Hj Hjh Hph. unfold Heap.store.
    pose proof (parent_lt j ltac:(lia)) as Hpj.
    destruct (Nat.eqb_spec j i) as [->|Hji].
    + destruct (Nat.eqb_spec ((i - 1) / 2) i); [lia|].
      apply HC; [lia|assumption|lia].
    + destruct (Nat.eqb_spec ((j - 1) / 2) i) as [Hpi|Hpi].
      * apply Hbest; [lia|assumption].
      * apply HA; [lia|assumption..].
  - intros _. unfold Heap.store. rewrite Hphp, Nat.eqb_refl. exact Hhl.
  - intros j Hj Hjh _. unfold Heap.store.
    rewrite Hphp, Nat.eqb_refl.
    pose proof (parent_lt j ltac:(lia)) as Hpj.
    destruct (Nat.eqb_spec j i); [lia|].
    rewrite <- Hjh. apply HA; [lia|lia|lia].
Qed.

Lemma contents_Forall (q : Heap.PriorityQueue TCBp) :
  Forall P (Heap.contents q)
  <-> forall j, (j < Heap.size q)%nat -> P (Heap.tasks q j).
Proof.
  unfold Heap.contents. rewrite List.Forall_map, List.Forall_forall. split.
  - intros H j Hj. apply H, in_seq. lia.
  - intros H j Hj. apply in_seq in Hj. apply H. lia.
Qed.

Lemma insert_heap (q : Heap.PriorityQueue TCBp) (task : TCBp) :
  P task -> Forall P (Heap.contents q) ->
  Heap.heap_ordered TCBp priority deadline (Heap.tasks q) (Heap.size q) ->
  let q' := Heap.priority_queue_insert TCBp priority deadline q task in
  Forall P (Heap.contents q')
  /\ Heap.heap_ordered TCBp priority deadline (Heap.tasks q') (Heap.size q').
Proof.
  intros Pt HP Hh q'. split.
  - subst q'. rewrite (insert_contents TCBp priority deadline). constructor; assumption.
  - subst q'. unfold Heap.priority_queue_insert, Heap.insert_run.
    destruct (Heap.sift_up TCBp priority deadline (Heap.size q) (Heap.tasks q)
                (Heap.size q) task) as [[a i] tr] eqn:Hs.
    cbn [fst Heap.tasks Heap.size].
    pose proof (proj1 (contents_Forall q) HP) as HPj. clear HP. rename HPj into HP.
    eapply (sift_up_heap task (Heap.size q) Pt); try exact Hs; try lia.
    + intros j Hj Hne. apply HP. lia.
    + intros j Hj Hne _. apply Hh. lia.
    + intros j Hj Hp. pose proof (parent_lt j ltac:(lia)). lia.
    + intros j Hj Hp. pose proof (parent_lt j ltac:(lia)). lia.
Qed.

Lemma extract_heap (q q' : Heap.PriorityQueue TCBp) (r : TCBp) :
  Heap.priority_queue_extract TCBp priority deadline q = (Some r, q') ->
  Forall P (Heap.contents q) ->
  Heap.heap_ordered TCBp priority deadline (Heap.tasks q) (Heap.size q) ->
  Forall P (Heap.contents q')
  /\ Heap.heap_ordered TCBp priority deadline (Heap.tasks q') (Heap.size q').
Proof.
  intros Hex HP Hh. split.
  - apply (extract_contents TCBp priority deadline) in Hex as (_ & _ & Hperm).
    rewrite <- Hperm in HP. apply Forall_cons in HP as [_ HP]. exact HP.
  - pose proof (proj1 (contents_Forall q) HP) as HPj. clear HP.
    rename HPj into HP. revert Hex.
    unfold Heap.priority_queue_extract.
    destruct (Nat.eqb_spec (Heap.size q) 0) as [Hz|Hnz]; [discriminate|].
    destruct (Heap.size q) as [|n] eqn:Hsize; [contradiction|].
    replace (S n - 1)%nat with n by lia.
    destruct (Heap.sift_down TCBp priority deadline n (Heap.tasks q) n
                (Heap.tasks q n) 0) as [a i] eqn:Hs.
    intros [= <- <-]. cbn [Heap.tasks Heap.size].
    destruct (Nat.ltb_spec 0 n) as [Hn|Hn]; [|intros j Hj; lia].
    eapply (sift_down_heap (Heap.tasks q n) n); try exact Hs; try lia.
    + apply HP. lia.
    + intros j Hj _. apply HP. lia.
    + intros j Hj _ _. apply Hh. lia.
Qed.

(** In an ordered heap the root dominates every entry. *)
Lemma heap_root_dominates (a : nat -> TCBp) (n : nat) :
  Heap.heap_ordered TCBp priority deadline a n ->
  forall j, (j < n)%nat -> dom (a 0%nat) (a j).
Proof.
  intros Hh j. induction j as [j IH] using lt_wf_ind. intros Hj.
  destruct (Nat.eq_dec j 0%nat) as [->|Hne]; [apply dominates_refl|].
  pose proof (parent_lt j Hne) as Hp.
  apply (dominates_trans _ (a ((j - 1) / 2)%nat)).
  - apply IH; lia.
  - apply Hh. lia.
Qed.

Lemma drain_fuel_sorted (fuel : nat) :
  forall q : Heap.PriorityQueue TCBp,
    (Heap.size q <= fuel)%nat ->
    Forall P (Heap.contents q) ->
    Heap.heap_ordered TCBp priority deadline (Heap.tasks q) (Heap.size q) ->
    Heap.in_heap_order TCBp priority deadline
      (Heap.drain_fuel TCBp priority deadline fuel q) = true.
Proof.
  induction fuel as [|fuel IH]; intros q Hle HP Hh; [reflexivity|].
  cbn [Heap.drain_fuel].
  destruct (Heap.priority_queue_extract TCBp priority deadline q)
    as [[r|] q'] eqn:Hex; [|reflexivity].
  destruct (extract_heap q q' r Hex HP Hh) as [HP' Hh'].
  apply (extract_contents TCBp priority deadline) in Hex
    as (Hr & Hsize & Hperm).
  pose proof (IH q' ltac:(lia) HP' Hh') as Htail.
  pose proof (drain_fuel_contents TCBp priority deadline fuel q' ltac:(lia))
    as Hdrain.
  destruct (Heap.drain_fuel TCBp priority deadline fuel q') as [|y l];
    [reflexivity|].
  change (Heap.in_heap_order TCBp priority deadline (r :: y :: l))
    with (ranks_before r y && Heap.in_heap_order TCBp priority deadline (y :: l)).
  rewrite Htail, andb_true_r.
  apply dominates_ranks_before.
  assert (In y (Heap.contents q)) as Hin.
  { apply (Permutation_in y) in Hperm; [exact Hperm|]. right.
    apply (Permutation_in y) in Hdrain; [exact Hdrain|]. left. reflexivity. }
  unfold Heap.contents in Hin. apply in_map_iff in Hin as (j & <- & Hj).
  apply in_seq in Hj. rewrite Hr.
  apply (heap_root_dominates _ (Heap.size q)); [assumption|lia].
Qed.

Lemma insert_all_heap (ts : list TCBp) :
  forall q : Heap.PriorityQueue TCBp,
    Forall P ts -> Forall P (Heap.contents q) ->
    Heap.heap_ordered TCBp priority deadline (Heap.tasks q) (Heap.size q) ->
    let q' := Heap.insert_all TCBp priority deadline q ts in
    Forall P (Heap.contents q')
    /\ Heap.heap_ordered TCBp priority deadline (Heap.tasks q') (Heap.size q').
Proof.
  unfold Heap.insert_all.
  induction ts as [|t ts IH]; intros q Hts HP Hh; [split; assumption|].
  apply Forall_cons in Hts as [Pt Hts]. cbn [fold_left].
  destruct (insert_heap q t Pt HP Hh) as [HP' Hh'].
  apply IH; assumption.
Qed.

End HeapOrder.

(** X4: when at most [MAX_TASKS] tasks are inserted and any two of them are
    comparable (one of them has both the priority that is not lower and the
    deadline that is not later, as when all deadlines are equal or the
    deadlines shrink as the priorities grow), insertion into an emptied
    queue followed by repeated extraction delivers the tasks with the
    higher priority first and, among equal priorities, the earlier deadline
    first. *)
Theorem drain_in_order_when_comparable (TCBp : Type) (prio dl : TCBp -> Z)
  (q : Heap.PriorityQueue TCBp) (ts : list TCBp) :
  (length ts <= MAX_TASKS)%nat ->
  (forall x y, In x ts -> In y ts ->
               Heap.dominates TCBp prio dl x y \/ Heap.dominates TCBp prio dl y x) ->
  Heap.in_heap_order TCBp prio dl
    (Heap.drain TCBp prio dl
       (Heap.insert_all TCBp prio dl (Heap.priority_queue_init q) ts)) = true.
Proof.
  intros _ Hcmp.
  destruct (insert_all_heap TCBp prio dl (fun x => In x ts) Hcmp ts
              (Heap.priority_queue_init q)) as [HP Hh].
  - apply List.Forall_forall. trivial.
  - constructor.
  - intros j Hj. cbn in Hj. lia.
  - unfold Heap.drain.
    apply (drain_fuel_sorted TCBp prio dl (fun x => In x ts) Hcmp);
      [lia|assumption..].
Qed.

Lemma drain_in_order_when_comparable_witness :
  Heap.drain (Z * Z) fst snd
    (Heap.insert_all (Z * Z) fst snd key_queue [(1, 1000); (3, 500); (2, 700)])
  = [(3, 500); (2, 700); (1, 1000)]
  /\ Heap.in_heap_order (Z * Z) fst snd
       (Heap.drain (Z * Z) fst snd
          (Heap.insert_all (Z * Z) fst snd key_queue
             [(1, 1000); (3, 500); (2, 700)])) = true.
Proof.
  split; [reflexivity|].
  apply (drain_in_order_when_comparable (Z * Z) fst snd
           (Heap.mkQueue (fun _ => (0, 0)) 0) [(1, 1000); (3, 500); (2, 700)]).
  { vm_compute. repeat constructor. }
  intros x y Hx Hy. unfold Heap.dominates.
  cbn in Hx, Hy.
  destruct Hx as [<-|[<-|[<-|[]]]]; destruct Hy as [<-|[<-|[<-|[]]]];
    cbn; lia.
Defined.

(** ** What the scheduler selects *)

Section ScheduleFacts.

Implicit Types (k : RTOS_Kernel) (t : TCB) (i j h : nat).

(** The ready queue built from the first [n] slots holds exactly the
    handles of the Ready tasks among them. *)
Lemma fill_ready_queue_contents k n :
  Permutation (Heap.contents (fill_ready_queue k n))
              (List.filter (is_ready k) (seq 0 n)).
Proof.
  unfold fill_ready_queue. induction n as [|n IH]; [reflexivity|].
  rewrite seq_S, fold_left_app, List.filter_app. cbn [fold_left List.filter Nat.add].
  destruct (is_ready k n).
  - rewrite (insert_contents nat), IH. apply Permutation_cons_append.
  - rewrite app_nil_r. exact IH.
Qed.

Lemma fill_ready_queue_empty k n :
  Heap.size (fill_ready_queue k n) = 0%nat
  <-> forall h, (h < n)%nat -> is_ready k h = false.
Proof.
  pose proof (Permutation_length (fill_ready_queue_contents k n)) as Hlen.
  unfold Heap.contents in Hlen. rewrite length_map, length_seq in Hlen.
  rewrite Hlen. split.
  - intros Hz h Hh. destruct (is_ready k h) eqn:Hr; [|reflexivity].
    assert (In h (List.filter (is_ready k) (seq 0 n))) as Hin
      by (apply filter_In; split; [apply in_seq; lia|assumption]).
    destruct (List.filter (is_ready k) (seq 0 n)); [destruct Hin|discriminate].
  - intros Hall.
    destruct (List.filter (is_ready k) (seq 0 n)) as [|h l] eqn:Hf;
      [reflexivity|].
    assert (In h (List.filter (is_ready k) (seq 0 n))) as Hin
      by (rewrite Hf; left; reflexivity).
    apply filter_In in Hin as [Hin Hr]. apply in_seq in Hin.
    rewrite Hall in Hr by lia. discriminate.
Qed.

Lemma no_ready_is_ready k :
  no_ready k <-> forall h, (h < num_tasks k)%nat -> is_ready k h = false.
Proof.
  unfold no_ready, is_ready, num_tasks. split.
  - intros Hn h Hh. destruct (tasks k !! h) as [t|] eqn:Ht; [|reflexivity].
    apply TaskState_eqb_neq. exact (Hn h t Ht).
  - intros Hall i t Hi. specialize (Hall i (lookup_lt_Some _ _ _ Hi)).
    rewrite Hi in Hall. apply TaskState_eqb_neq. exact Hall.
Qed.

(** [schedule_next_task] finds nothing exactly when no task is Ready. *)
Lemma schedule_next_task_None k :
  fst (schedule_next_task k) = None <-> no_ready k.
Proof.
  rewrite no_ready_is_ready, <- fill_ready_queue_empty.
  unfold schedule_next_task. rewrite extract_result.
  destruct (Nat.eqb_spec (Heap.size (fill_ready_queue k (num_tasks k))) 0)
    as [Hz|Hnz]; cbn.
  - split; trivial.
  - split; [discriminate|contradiction].
Qed.

Lemma dispatch_next_no_ready k : no_ready k -> dispatch_next k = k.
Proof.
  intros Hn. apply schedule_next_task_None in Hn. unfold dispatch_next.
  destruct (schedule_next_task_cases k) as [Heq|(h & t & _ & _ & Heq)];
    rewrite Heq in Hn |- *; [reflexivity|discriminate].
Qed.

(** A dispatch with a Ready task at hand installs one: a task that was
    Ready is Running afterwards, with its run count one up, and a switch is
    counted. *)
Lemma dispatch_next_some_ready k i0 t0 :
  tasks k !! i0 = Some t0 -> state t0 = TASK_READY ->
  exists h t,
    tasks k !! h = Some t /\ state t = TASK_READY
    /\ dispatch_next k
       = mkKernel
           (alter incr_run_count h (alter (set_state TASK_RUNNING) h (tasks k)))
           (id t) (tick_count k) (scheduler_running k)
           (u32_incr (total_switches k)).
Proof.
  intros Hi Hst. unfold dispatch_next.
  destruct (schedule_next_task_cases k) as [Hs|(h & t & Ht & Hst' & Hs)].
  - assert (no_ready k) as Hn
      by (apply schedule_next_task_None; rewrite Hs; reflexivity).
    destruct (Hn i0 t0 Hi Hst).
  - rewrite Hs. exists h, t. repeat split; assumption.
Qed.

(** The two outcomes of a dispatch. *)
Lemma dispatch_next_outcome k :
  (no_ready k /\ dispatch_next k = k)
  \/ exists h t,
      tasks k !! h = Some t /\ state t = TASK_READY
      /\ dispatch_next k
         = mkKernel
             (alter incr_run_count h (alter (set_state TASK_RUNNING) h (tasks k)))
             (id t) (tick_count k) (scheduler_running k)
             (u32_incr (total_switches k)).
Proof.
  unfold dispatch_next.
  destruct (schedule_next_task_cases k) as [Hs|(h & t & Ht & Hst & Hs)].
  - left. split; [|rewrite Hs; reflexivity].
    apply schedule_next_task_None. rewrite Hs. reflexivity.
  - right. rewrite Hs. exists h, t. repeat split; assumption.
Qed.

(** Dominance between the tasks behind two handles. *)
Lemma dominates_handles k h1 h2 t1 t2 :
  tasks k !! h1 = Some t1 -> tasks k !! h2 = Some t2 ->
  (Heap.dominates nat (priority_of k) (deadline_of k) h1 h2
   <-> priority t2 <= priority t1 /\ deadline t1 <= deadline t2).
Proof.
  intros H1 H2. unfold Heap.dominates, priority_of, deadline_of.
  rewrite H1, H2. reflexivity.
Qed.

(** When the Ready tasks are pairwise comparable, the ready queue is an
    ordered heap of their handles. *)
Lemma fill_ready_queue_heap k n :
  (forall h1 h2, is_ready k h1 = true -> is_ready k h2 = true ->
     Heap.dominates nat (priority_of k) (deadline_of k) h1 h2
     \/ Heap.dominates nat (priority_of k) (deadline_of k) h2 h1) ->
  Forall (fun h => is_ready k h = true) (Heap.contents (fill_ready_queue k n))
  /\ Heap.heap_ordered nat (priority_of k) (deadline_of k)
       (Heap.tasks (fill_ready_queue k n)) (Heap.size (fill_ready_queue k n)).
Proof.
  intros Hcmp. unfold fill_ready_queue. induction n as [|n [IHP IHh]].
  - cbn. split; [constructor|]. intros j Hj. lia.
  - rewrite seq_S, fold_left_app. cbn [fold_left Nat.add].
    destruct (is_ready k n) eqn:Hr; [|split; assumption].
    apply (insert_heap nat (priority_of k) (deadline_of k)
             (fun h => is_ready k h = true) Hcmp); assumption.
Qed.

End ScheduleFacts.

(** ** Blocking the current task *)

(** C4, as stated, fails: after one [create_task] no task is running, yet
    [block_current 5] is not refused; it blocks the task in slot
    [current_task], so the task states are not left unchanged. *)
Lemma block_with_no_running_task_blocks :
  let k := run [create_task 1 1000 1000] rtos_init in
  running_count k = 0%nat
  /\ map state (tasks k) = [TASK_READY]
  /\ map state (tasks (rtos_block_task 5 k)) = [TASK_BLOCKED]
  /\ map timeout (tasks (rtos_block_task 5 k)) = [5].
Proof. repeat split; reflexivity. Qed.

(** C4, amended: [block_current] reports nothing.  It does nothing when the
    table slot named by [current_task] is empty.  Otherwise it blocks the
    task in that slot, whatever its state (so in particular the Running
    task): the state becomes Blocked, [blocked_tick] the current
    [tick_count] and [timeout] the argument; the other fields of that task
    and the tick counter are kept.  The scheduler then dispatches: when
    another task is Ready, one of the Ready tasks becomes Running and
    current, its run count and [total_switches] go up by one and nothing
    else changes; when no other task is Ready, nothing changes beyond the
    blocking. *)
Theorem rtos_block_task_blocks_current (tmo : Z) (k : RTOS_Kernel) :
  match tasks k !! current_task k with
  | None => rtos_block_task tmo k = k
  | Some c =>
      let blocked :=
        alter (set_blocked (tick_count k) tmo) (current_task k) (tasks k) in
      tasks (rtos_block_task tmo k) !! current_task k
      = Some (set_blocked (tick_count k) tmo c)
      /\ tick_count (rtos_block_task tmo k) = tick_count k
      /\ (((forall i t, i <> current_task k -> tasks k !! i = Some t ->
                        state t <> TASK_READY)
           /\ rtos_block_task tmo k = with_tasks blocked k)
          \/ (exists h t,
                h <> current_task k /\ tasks k !! h = Some t
                /\ state t = TASK_READY
                /\ rtos_block_task tmo k
                   = mkKernel
                       (alter incr_run_count h
                          (alter (set_state TASK_RUNNING) h blocked))
                       (id t) (tick_count k) (scheduler_running k)
                       (u32_incr (total_switches k))))
  end.
Proof.
  unfold rtos_block_task.
  destruct (tasks k !! current_task k) as [c|] eqn:Hc; [|reflexivity].
  cbv zeta.
  set (k1 := with_tasks
               (alter (set_blocked (tick_count k) tmo) (current_task k) (tasks k))
               k).
  assert (tasks k1 !! current_task k = Some (set_blocked (tick_count k) tmo c))
    as Hcur by (subst k1; cbn; rewrite list_lookup_alter_eq, Hc; reflexivity).
  split; [apply dispatch_next_not_ready; [exact Hcur|discriminate]|].
  split; [rewrite dispatch_next_tick_count; reflexivity|].
  destruct (dispatch_next_outcome k1) as [[Hn ->]|(h & t & Ht & Hst & ->)].
  - left. split; [|reflexivity]. intros i t Hne Hi. apply (Hn i t).
    subst k1. cbn. rewrite list_lookup_alter_ne by congruence. exact Hi.
  - right. exists h, t.
    assert (h <> current_task k) as Hne.
    { intros ->. rewrite Hcur in Ht. injection Ht as <-. discriminate. }
    split; [exact Hne|]. split; [|split; [exact Hst|reflexivity]].
    subst k1. cbn in Ht. rewrite list_lookup_alter_ne in Ht by congruence.
    exact Ht.
Qed.

(** X5: [schedule_next_task] returns [NULL] exactly when no task is Ready,
    and then it changes nothing.  When it returns a task, that task was
    Ready; it is now Running and [current_task] is its id; no other task
    and no counter is touched. *)
Theorem schedule_next_task_result (k : RTOS_Kernel) :
  (fst (schedule_next_task k) = None <-> no_ready k)
  /\ match schedule_next_task k with
     | (None, k') => k' = k
     | (Some h, k') =>
         exists t,
           tasks k !! h = Some t /\ state t = TASK_READY
           /\ k' = mkKernel (alter (set_state TASK_RUNNING) h (tasks k)) (id t)
                           (tick_count k) (scheduler_running k)
                           (total_switches k)
     end.
Proof.
  split; [apply schedule_next_task_None|].
  destruct (schedule_next_task_cases k) as [->|(h & t & Ht & Hst & ->)];
    [reflexivity|]. exists t. repeat split; assumption.
Qed.

(** X6: when any two Ready tasks are comparable (one has both the priority
    that is not lower and the deadline that is not later; for instance all
    deadlines are equal), the task [schedule_next_task] selects has the
    highest priority of the Ready tasks and the earliest deadline. *)
Theorem schedule_next_task_selects_best (k : RTOS_Kernel) (h : nat) :
  (forall i j ti tj,
      tasks k !! i = Some ti -> tasks k !! j = Some tj ->
      state ti = TASK_READY -> state tj = TASK_READY ->
      (priority tj <= priority ti /\ deadline ti <= deadline tj)
      \/ (priority ti <= priority tj /\ deadline tj <= deadline ti)) ->
  fst (schedule_next_task k) = Some h ->
  exists t,
    tasks k !! h = Some t /\ state t = TASK_READY
    /\ forall j tj, tasks k !! j = Some tj -> state tj = TASK_READY ->
                    priority tj <= priority t /\ deadline t <= deadline tj.
Proof.
  intros Hcmp Hsel.
  assert (forall h1 h2, is_ready k h1 = true -> is_ready k h2 = true ->
     Heap.dominates nat (priority_of k) (deadline_of k) h1 h2
     \/ Heap.dominates nat (priority_of k) (deadline_of k) h2 h1) as Hcmp'.
  { intros h1 h2 H1 H2.
    apply is_ready_Some in H1 as (t1 & H1 & Hs1).
    apply is_ready_Some in H2 as (t2 & H2 & Hs2).
    rewrite (dominates_handles k h1 h2 t1 t2 H1 H2),
            (dominates_handles k h2 h1 t2 t1 H2 H1).
    exact (Hcmp h1 h2 t1 t2 H1 H2 Hs1 Hs2). }
  destruct (fill_ready_queue_heap k (num_tasks k) Hcmp') as [HP Hh].
  unfold schedule_next_task in Hsel. rewrite extract_result in Hsel.
  destruct (Nat.eqb_spec (Heap.size (fill_ready_queue k (num_tasks k))) 0)
    as [Hz|Hnz]; [discriminate|].
  set (q := fill_ready_queue k (num_tasks k)) in *.
  cbn in Hsel. injection Hsel as Hroot.
  assert (is_ready k h = true) as Hr.
  { rewrite <- Hroot.
    apply (proj1 (contents_Forall nat (fun h => is_ready k h = true) q) HP).
    lia. }
  apply is_ready_Some in Hr as (t & Ht & Hst).
  exists t. split; [assumption|]. split; [assumption|].
  intros j tj Hj Hstj.
  apply (dominates_handles k h j t tj Ht Hj).
  assert (In j (Heap.contents q)) as Hin.
  { apply (Permutation_in j (Permutation_sym (fill_ready_queue_contents k (num_tasks k)))).
    apply filter_In. split.
    - apply in_seq. pose proof (lookup_lt_Some _ _ _ Hj). unfold num_tasks. lia.
    - apply is_ready_Some. eauto. }
  unfold Heap.contents in Hin. apply in_map_iff in Hin as (m & <- & Hm).
  apply in_seq in Hm. rewrite <- Hroot.
  apply (heap_root_dominates nat (priority_of k) (deadline_of k)
           (Heap.tasks q) (Heap.size q)); [assumption|lia].
Qed.

Lemma schedule_next_task_selects_best_witness :
  let k := run [create_task 1 1000 1000; create_task 3 1000 1000;
                create_task 2 1000 1000] rtos_init in
  fst (schedule_next_task k) = Some 1%nat
  /\ exists t,
       tasks k !! 1%nat = Some t /\ state t = TASK_READY
       /\ forall j tj, tasks k !! j = Some tj -> state tj = TASK_READY ->
                       priority tj <= priority t /\ deadline t <= deadline tj.
Proof.
  intros k. split; [reflexivity|].
  apply (schedule_next_task_selects_best k 1%nat); [|reflexivity].
  intros [|[|[|i]]] [|[|[|j]]] ti tj Hi Hj _ _; cbn in Hi, Hj;
    try discriminate; injection Hi as <-; injection Hj as <-; cbn; lia.
Defined.

(** ** Runs of the kernel *)

Section KernelRuns.

Implicit Types (k : RTOS_Kernel) (t : TCB) (i j h : nat).

(** After a dispatch a task is running, or nothing was Ready and nothing
    changed. *)
Lemma dispatch_next_progress k :
  (exists i t, tasks (dispatch_next k) !! i = Some t /\ state t = TASK_RUNNING)
  \/ (dispatch_next k = k /\ no_ready k).
Proof.
  unfold dispatch_next.
  destruct (schedule_next_task_cases k) as [Hs|(h & t & Ht & Hst & Hs)].
  - right. rewrite Hs. split; [reflexivity|].
    apply schedule_next_task_None. rewrite Hs. reflexivity.
  - left. rewrite Hs. exists h, (incr_run_count (set_state TASK_RUNNING t)).
    split; [|reflexivity]. cbn.
    rewrite !list_lookup_alter_eq, Ht. reflexivity.
Qed.

Lemma block_tick_count tmo k :
  tick_count (rtos_block_task tmo k) = tick_count k.
Proof.
  unfold rtos_block_task. destruct (tasks k !! current_task k); [|reflexivity].
  rewrite dispatch_next_tick_count. reflexivity.
Qed.

Lemma step_tick_count k o :
  tick_count (step k o)
  = match o with tick => u32_incr (tick_count k) | _ => tick_count k end.
Proof.
  destruct o; [| | |rewrite step_create_no_memory; reflexivity]; cbn.
  - unfold rtos_create_task. destruct (Nat.leb _ _); reflexivity.
  - apply tick_count_tick.
  - apply block_tick_count.
Qed.

Lemma run_tick_count (ops : list op) :
  forall k, 0 <= tick_count k < UINT32_MOD ->
    tick_count (run ops k)
    = (tick_count k + Z.of_nat (count_ticks ops)) mod UINT32_MOD.
Proof.
  unfold run, count_ticks.
  induction ops as [|o ops IH]; intros k Hk.
  - cbn. rewrite Z.add_0_r, Z.mod_small by assumption. reflexivity.
  - cbn [fold_left List.filter]. rewrite IH.
    + rewrite step_tick_count. destruct o; cbn [length]; try reflexivity.
      unfold u32_incr. rewrite Zplus_mod_idemp_l. f_equal. lia.
    + rewrite step_tick_count. destruct o; try assumption.
      apply Z.mod_pos_bound. reflexivity.
Qed.

Lemma preempt_or_dispatch_length k :
  num_tasks (preempt_or_dispatch k) = num_tasks k.
Proof.
  unfold preempt_or_dispatch.
  destruct (tasks k !! current_task k) as [c|];
    [|apply dispatch_next_length].
  destruct (TaskState_eqb (state c) TASK_RUNNING);
    [|apply dispatch_next_length].
  destruct (should_preempt k c).
  - rewrite dispatch_next_length. unfold num_tasks. cbn.
    apply length_alter.
  - unfold num_tasks. cbn. apply length_alter.
Qed.

Lemma step_num_tasks k o :
  num_tasks (step k o)
  = match o with
    | create_task _ _ _ =>
        if Nat.leb MAX_TASKS (num_tasks k) then num_tasks k else S (num_tasks k)
    | _ => num_tasks k
    end.
Proof.
  destruct o; [| | |rewrite step_create_no_memory; reflexivity]; unfold step.
  - unfold rtos_create_task. destruct (Nat.leb MAX_TASKS (num_tasks k));
      [reflexivity|]. unfold num_tasks. cbn [snd with_tasks tasks negb].
    rewrite length_app. cbn [length]. lia.
  - unfold rtos_tick_handler. rewrite preempt_or_dispatch_length.
    unfold num_tasks. cbn. apply length_map.
  - unfold rtos_block_task. destruct (tasks k !! current_task k); [|reflexivity].
    rewrite dispatch_next_length. unfold num_tasks. cbn. apply length_alter.
Qed.

Lemma run_num_tasks (ops : list op) :
  forall k, (num_tasks k <= MAX_TASKS)%nat ->
    num_tasks (run ops k) = Nat.min MAX_TASKS (num_tasks k + count_creates ops).
Proof.
  unfold run, count_creates.
  induction ops as [|o ops IH]; intros k Hk.
  - cbn [fold_left List.filter length]. lia.
  - cbn [fold_left List.filter]. rewrite IH; rewrite step_num_tasks.
    + destruct o; cbn [length]; try lia.
      destruct (Nat.leb_spec MAX_TASKS (num_tasks k)); lia.
    + destruct o; try lia.
      destruct (Nat.leb_spec MAX_TASKS (num_tasks k)); lia.
Qed.

End KernelRuns.

(** X7: a tick never leaves the processor idle while a task is Ready:
    after [rtos_tick_handler] some task is Running or no task is Ready; the
    same holds after [rtos_block_task] when there is a current task. *)
Theorem tick_never_idles_with_ready_task (k : RTOS_Kernel) :
  ((exists i t, tasks (rtos_tick_handler k) !! i = Some t
                /\ state t = TASK_RUNNING)
   \/ no_ready (rtos_tick_handler k))
  /\ forall tmo,
       is_Some (tasks k !! current_task k) ->
       (exists i t, tasks (rtos_block_task tmo k) !! i = Some t
                    /\ state t = TASK_RUNNING)
       \/ no_ready (rtos_block_task tmo k).
Proof.
  split.
  - unfold rtos_tick_handler.
    set (k1 := unblock_pass (advance_tick k)). unfold preempt_or_dispatch.
    assert (forall k0, (exists i t, tasks (dispatch_next k0) !! i = Some t
                                    /\ state t = TASK_RUNNING)
                       \/ no_ready (dispatch_next k0)) as Hd.
    { intros k0. destruct (dispatch_next_progress k0) as [H|[-> H]]; auto. }
    destruct (tasks k1 !! current_task k1) as [c|] eqn:Hc; [|apply Hd].
    destruct (TaskState_eqb (state c) TASK_RUNNING) eqn:Hrun; [|apply Hd].
    destruct (should_preempt k1 c); [apply Hd|].
    left. exists (current_task k1), (incr_run_count c). split.
    + cbn. rewrite list_lookup_alter_eq. cbn in Hc. rewrite Hc. reflexivity.
    + cbn. apply TaskState_eqb_eq, Hrun.
  - intros tmo [c Hc]. unfold rtos_block_task. rewrite Hc.
    destruct (dispatch_next_progress
                (with_tasks (alter (set_blocked (tick_count k) tmo)
                                   (current_task k) (tasks k)) k))
      as [H|[-> H]]; auto.
Qed.

Lemma tick_never_idles_with_ready_task_witness :
  let k := run [create_task 1 1000 1000; create_task 2 500 500; tick] rtos_init in
  (exists i t, tasks (rtos_block_task 7 k) !! i = Some t
               /\ state t = TASK_RUNNING)
  \/ no_ready (rtos_block_task 7 k).
Proof.
  intros k.
  apply (proj2 (tick_never_idles_with_ready_task k) 7).
  cbn. eexists. reflexivity.
Defined.

(** X8: an idle tick changes nothing but the tick count: when no task is
    Ready or Running and no Blocked task's timeout expires at the new tick
    count, [rtos_tick_handler] dispatches nothing, counts no switch and
    leaves every task as it is. *)
Theorem idle_tick_only_advances_time (k : RTOS_Kernel) :
  (forall i t, tasks k !! i = Some t ->
     state t <> TASK_READY /\ state t <> TASK_RUNNING
     /\ (state t = TASK_BLOCKED ->
         timeout_expired (u32_incr (tick_count k)) t = false)) ->
  rtos_tick_handler k = advance_tick k.
Proof.
  intros Hidle. unfold rtos_tick_handler.
  assert (unblock_pass (advance_tick k) = advance_tick k) as ->.
  { unfold unblock_pass, with_tasks. cbn. unfold advance_tick. f_equal.
    rewrite <- (map_id (tasks k)) at 2. apply map_ext_in. intros t Hin.
    apply list_elem_of_In, list_elem_of_lookup in Hin as [i Hi].
    destruct (Hidle i t Hi) as (_ & _ & Hb). unfold unblock.
    destruct (TaskState_eqb (state t) TASK_BLOCKED) eqn:E; [|reflexivity].
    apply TaskState_eqb_eq in E. rewrite (Hb E). reflexivity. }
  assert (no_ready (advance_tick k)) as Hn
    by (intros i t Hi; exact (proj1 (Hidle i t Hi))).
  unfold preempt_or_dispatch.
  destruct (tasks (advance_tick k) !! current_task (advance_tick k))
    as [c|] eqn:Hc; [|apply dispatch_next_no_ready, Hn].
  destruct (Hidle _ c Hc) as (_ & Hnr & _).
  apply TaskState_eqb_neq in Hnr. rewrite Hnr.
  apply dispatch_next_no_ready, Hn.
Qed.

Lemma idle_tick_only_advances_time_witness :
  let k := run [create_task 1 1000 1000; tick; block_current 5] rtos_init in
  rtos_tick_handler k = advance_tick k.
Proof.
  intros k. apply (idle_tick_only_advances_time k).
  intros [|i] t Hi; cbn in Hi; [|discriminate].
  injection Hi as <-. cbn. repeat split; try discriminate.
Defined.

(** X9: [tick_count] counts the calls of [rtos_tick_handler], modulo
    [2^32]: after any run from the initialized kernel it is the number of
    ticks in the run; [rtos_create_task] and [rtos_block_task] never change
    it. *)
Theorem tick_count_counts_ticks (ops : list op) :
  tick_count (run ops rtos_init) = Z.of_nat (count_ticks ops) mod UINT32_MOD.
Proof.
  rewrite run_tick_count; [reflexivity|].
  cbn. unfold UINT32_MOD. lia.
Qed.

(** X10: the task table holds one task for every [rtos_create_task] call
    of the run whose two allocations succeed, up to [MAX_TASKS].  A call on
    a full table and a call in which an allocation fails return [-1] and
    leave the kernel as it is; any other call returns the new id, which is
    the slot the task is put in.  Ticks and blocks neither add nor remove
    a task, and every task's id is the slot it sits in. *)
Theorem task_table_counts_creates (ops : list op) :
  num_tasks (run ops rtos_init) = Nat.min MAX_TASKS (count_creates ops)
  /\ ids_ok (run ops rtos_init)
  /\ forall (tcb_ok stack_ok : bool) (prio dl per : Z),
       let k := run ops rtos_init in
       rtos_create_task tcb_ok stack_ok prio dl per k
       = if Nat.ltb (num_tasks k) MAX_TASKS && tcb_ok && stack_ok
         then (Z.of_nat (num_tasks k),
               with_tasks
                 (tasks k ++ [mkTCB (num_tasks k) prio dl per TASK_READY 0 0 0])
                 k)
         else (-1, k).
Proof.
  split; [|split].
  - rewrite run_num_tasks; [reflexivity|]. cbn. unfold MAX_TASKS. lia.
  - apply (kernel_inv_run ops _ kernel_inv_init).
  - intros tcb_ok stack_ok prio dl per k. unfold rtos_create_task.
    rewrite Nat.ltb_antisym. destruct (Nat.leb MAX_TASKS (num_tasks k));
      [reflexivity|]. destruct tcb_ok, stack_ok; reflexivity.
Qed.

(** ** What the operations leave alone *)

Section KernelFrames.

Implicit Types (k : RTOS_Kernel) (t : TCB) (i j h : nat).

Lemma map_proj_alter {B : Type} (g : TCB -> B) (f : TCB -> TCB) (l : list TCB) :
  (forall t, g (f t) = g t) ->
  forall i, map g (alter f i l) = map g l.
Proof.
  intros Hf. induction l as [|a l IH]; intros [|i]; cbn; try reflexivity.
  - rewrite Hf. reflexivity.
  - f_equal. apply IH.
Qed.

Lemma dispatch_next_static k :
  map static_fields (tasks (dispatch_next k)) = map static_fields (tasks k).
Proof.
  destruct (dispatch_next_cases k) as [->|(h & t & _ & _ & ->)];
    [reflexivity|].
  cbn. rewrite !map_proj_alter; reflexivity.
Qed.

Lemma step_static k o :
  exists rest,
    map static_fields (tasks (step k o)) = map static_fields (tasks k) ++ rest.
Proof.
  destruct o;
    [| | |exists []; rewrite step_create_no_memory, app_nil_r; reflexivity];
    unfold step.
  - unfold rtos_create_task. destruct (Nat.leb MAX_TASKS (num_tasks k)).
    + exists []. rewrite app_nil_r. reflexivity.
    + eexists. cbn [snd with_tasks tasks negb]. rewrite map_app. reflexivity.
  - exists []. rewrite app_nil_r. unfold rtos_tick_handler.
    set (k1 := unblock_pass (advance_tick k)).
    assert (map static_fields (tasks k1) = map static_fields (tasks k)) as <-.
    { subst k1. cbn. rewrite map_map. apply map_ext. intros t.
      unfold unblock. destruct (_ && _); reflexivity. }
    unfold preempt_or_dispatch.
    destruct (tasks k1 !! current_task k1) as [c|];
      [|apply dispatch_next_static].
    destruct (TaskState_eqb (state c) TASK_RUNNING);
      [|apply dispatch_next_static].
    destruct (should_preempt k1 c).
    + rewrite dispatch_next_static. cbn. apply map_proj_alter. reflexivity.
    + cbn. apply map_proj_alter. reflexivity.
  - exists []. rewrite app_nil_r. unfold rtos_block_task.
    destruct (tasks k !! current_task k); [|reflexivity].
    rewrite dispatch_next_static. cbn. apply map_proj_alter. reflexivity.
Qed.

(** A per-task property that the state changes of the kernel respect is
    kept by every operation. *)
Lemma dispatch_next_Forall (Q : TCB -> Prop) k :
  (forall t, Q t -> Q (set_state TASK_RUNNING t)) ->
  (forall t, Q t -> Q (incr_run_count t)) ->
  Forall Q (tasks k) -> Forall Q (tasks (dispatch_next k)).
Proof.
  intros Hrun Hinc HQ.
  destruct (dispatch_next_cases k) as [->|(h & t & _ & _ & ->)]; [assumption|].
  cbn. apply Forall_lookup. intros i t' Hi.
  apply lookup_alter_Some in Hi as (t1 & Hi & ->).
  apply lookup_alter_Some in Hi as (t2 & Hi & ->).
  pose proof (proj1 (Forall_lookup Q (tasks k)) HQ i t2 Hi) as H2.
  repeat case_decide; auto.
Qed.

Lemma alter_Forall (Q : TCB -> Prop) (f : TCB -> TCB) (l : list TCB) i :
  (forall t, Q t -> Q (f t)) -> Forall Q l -> Forall Q (alter f i l).
Proof.
  intros Hf HQ. apply Forall_lookup. intros j t' Hj.
  apply lookup_alter_Some in Hj as (t1 & Hj & ->).
  pose proof (proj1 (Forall_lookup Q l) HQ j t1 Hj).
  case_decide; auto.
Qed.

Lemma step_Forall (Q : TCB -> Prop) k o :
  (forall s t, s <> TASK_SUSPENDED -> Q t -> Q (set_state s t)) ->
  (forall t, Q t -> Q (incr_run_count t)) ->
  (forall tk tmo t, Q t -> Q (set_blocked tk tmo t)) ->
  (forall n prio dl per,
      Q (mkTCB n prio dl per TASK_READY 0 0 0)) ->
  Forall Q (tasks k) -> Forall Q (tasks (step k o)).
Proof.
  intros Hset Hinc Hblk Hnew HQ.
  assert (forall k0, Forall Q (tasks k0) -> Forall Q (tasks (dispatch_next k0)))
    as Hd.
  { intros k0. apply dispatch_next_Forall; [|assumption].
    intros t. apply Hset. discriminate. }
  destruct o; [| | |rewrite step_create_no_memory; assumption]; unfold step.
  - unfold rtos_create_task. destruct (Nat.leb MAX_TASKS (num_tasks k));
      [assumption|]. cbn [snd with_tasks tasks negb].
    apply Forall_app. split; [assumption|]. constructor; [apply Hnew|constructor].
  - unfold rtos_tick_handler.
    set (k1 := unblock_pass (advance_tick k)).
    assert (Forall Q (tasks k1)) as HQ1.
    { subst k1. cbn. apply List.Forall_map.
      eapply Forall_impl; [exact HQ|]. intros t Ht. cbv beta. unfold unblock.
      destruct (_ && _); [apply Hset; [discriminate|assumption]|assumption]. }
    unfold preempt_or_dispatch.
    destruct (tasks k1 !! current_task k1) as [c|]; [|apply Hd, HQ1].
    destruct (TaskState_eqb (state c) TASK_RUNNING); [|apply Hd, HQ1].
    destruct (should_preempt k1 c).
    + apply Hd. cbn. apply alter_Forall; [|assumption].
      intros t. apply Hset. discriminate.
    + cbn. apply alter_Forall; assumption.
  - unfold rtos_block_task.
    destruct (tasks k !! current_task k) as [c|]; [|assumption].
    apply Hd. cbn. apply alter_Forall; [|assumption]. intros t0. apply Hblk.
Qed.

End KernelFrames.

(** X11: no operation removes a task or changes the id, priority,
    deadline or period a task was created with: after any run from any
    kernel these fields of the tasks that were there are as before, and
    tasks are only added at the end of the table. *)
Theorem static_fields_never_change (ops : list op) (k : RTOS_Kernel) :
  exists rest,
    map static_fields (tasks (run ops k)) = map static_fields (tasks k) ++ rest.
Proof.
  revert k. unfold run. induction ops as [|o ops IH]; intros k.
  - exists []. rewrite app_nil_r. reflexivity.
  - cbn [fold_left]. destruct (IH (step k o)) as [rest1 H1].
    destruct (step_static k o) as [rest0 H0].
    exists (rest0 ++ rest1). rewrite H1, H0, app_assoc. reflexivity.
Qed.

(** X12: no task is ever Suspended: in every kernel reached through
    [rtos_create_task], [rtos_tick_handler] and [rtos_block_task] every task
    is Ready, Running or Blocked. *)
Theorem no_task_is_suspended (ops : list op) :
  Forall (fun t => state t <> TASK_SUSPENDED) (tasks (run ops rtos_init)).
Proof.
  assert (forall k, Forall (fun t => state t <> TASK_SUSPENDED) (tasks k) ->
                    Forall (fun t => state t <> TASK_SUSPENDED)
                           (tasks (run ops k))) as H.
  { unfold run. induction ops as [|o ops IH]; intros k Hk; [assumption|].
    cbn [fold_left]. apply IH. apply step_Forall; try assumption.
    - intros s t Hs _. exact Hs.
    - intros t Ht. exact Ht.
    - intros tk tmo t _. discriminate.
    - intros n prio dl per. discriminate. }
  apply H. constructor.
Qed.

(** ** Run counts and switch counts *)

Section KernelCounters.

Implicit Types (k : RTOS_Kernel) (t : TCB) (i j h : nat).

Lemma dispatch_next_run_count k :
  none_running k -> run_count_step k (dispatch_next k).
Proof.
  intros Hnone j t' Hj.
  destruct (dispatch_next_cases k) as [Heq|(h & t & Ht & Hst & Heq)];
    rewrite Heq in Hj.
  - exists t'. split; [assumption|]. unfold is_running.
    pose proof (Hnone j t' Hj) as Hn. apply TaskState_eqb_neq in Hn.
    rewrite Hn. reflexivity.
  - cbn in Hj.
    apply lookup_alter_Some in Hj as (t1 & Hj & ->).
    apply lookup_alter_Some in Hj as (t2 & Hj & ->).
    exists t2. split; [assumption|].
    destruct (decide (h = j)) as [->|Hne]; [reflexivity|].
    unfold is_running.
    pose proof (Hnone j t2 Hj) as Hn. apply TaskState_eqb_neq in Hn.
    rewrite Hn. reflexivity.
Qed.

(** Changing the state of the task in slot [c] before a dispatch does not
    disturb the account of the run counts, provided that task is not
    Running afterwards unless dispatched. *)
Lemma run_count_step_after_alter (f : TCB -> TCB) k c k' :
  (forall t, run_count (f t) = run_count t) ->
  run_count_step (with_tasks (alter f c (tasks k)) k) k' ->
  run_count_step k k'.
Proof.
  intros Hf Hstep j t' Hj.
  destruct (Hstep j t' Hj) as (t1 & H1 & Hrc). cbn in H1.
  apply lookup_alter_Some in H1 as (t0 & H0 & ->).
  exists t0. split; [assumption|]. rewrite Hrc.
  case_decide; [rewrite Hf|]; reflexivity.
Qed.

Lemma preempt_or_dispatch_run_count k :
  running_is_current k -> run_count_step k (preempt_or_dispatch k).
Proof.
  intros Hrun. unfold preempt_or_dispatch.
  assert (forall c, tasks k !! current_task k = Some c ->
                    state c <> TASK_RUNNING -> none_running k) as Hnone1.
  { intros c Hc Hst i t Hi Hr. pose proof (Hrun _ _ Hi Hr) as ->. congruence. }
  assert (tasks k !! current_task k = None -> none_running k) as Hnone2.
  { intros Hc i t Hi Hr. pose proof (Hrun _ _ Hi Hr) as ->. congruence. }
  destruct (tasks k !! current_task k) as [c|] eqn:Hc;
    [|apply dispatch_next_run_count; auto].
  destruct (TaskState_eqb (state c) TASK_RUNNING) eqn:Hst.
  2:{ apply dispatch_next_run_count, (Hnone1 c eq_refl).
      apply TaskState_eqb_neq, Hst. }
  destruct (should_preempt k c).
  - apply (run_count_step_after_alter (set_state TASK_READY) k (current_task k));
      [reflexivity|].
    apply dispatch_next_run_count, none_running_after_alter;
      [assumption|discriminate].
  - intros j t' Hj. cbn in Hj.
    apply lookup_alter_Some in Hj as (t0 & Hj & ->).
    exists t0. split; [assumption|].
    destruct (decide (current_task k = j)) as [<-|Hne].
    + rewrite Hc in Hj. injection Hj as <-. unfold is_running. cbn.
      rewrite Hst. reflexivity.
    + unfold is_running.
      destruct (TaskState_eqb (state t0) TASK_RUNNING) eqn:E; [|reflexivity].
      apply TaskState_eqb_eq in E. pose proof (Hrun _ _ Hj E). congruence.
Qed.

Lemma step_total_switches k o :
  total_switches (step k o) = total_switches k
  \/ (match o with tick | block_current _ => True | _ => False end
      /\ total_switches (step k o) = u32_incr (total_switches k)).
Proof.
  assert (forall k0, total_switches (dispatch_next k0) = total_switches k0
                     \/ total_switches (dispatch_next k0)
                        = u32_incr (total_switches k0)) as Hd.
  { intros k0.
    destruct (dispatch_next_cases k0) as [->|(h & t & _ & _ & ->)]; auto. }
  destruct o; [| | |left; rewrite step_create_no_memory; reflexivity];
    unfold step.
  - left. unfold rtos_create_task. destruct (Nat.leb _ _); reflexivity.
  - unfold rtos_tick_handler.
    set (k1 := unblock_pass (advance_tick k)).
    change (total_switches k) with (total_switches k1).
    unfold preempt_or_dispatch.
    destruct (tasks k1 !! current_task k1) as [c|];
      [|destruct (Hd k1); auto].
    destruct (TaskState_eqb (state c) TASK_RUNNING);
      [|destruct (Hd k1); auto].
    destruct (should_preempt k1 c); [|left; reflexivity].
    match goal with |- context [dispatch_next ?k0] =>
      destruct (Hd k0) as [H|H]; rewrite H; auto end.
  - unfold rtos_block_task.
    destruct (tasks k !! current_task k) as [c|]; [|left; reflexivity].
    match goal with |- context [dispatch_next ?k0] =>
      destruct (Hd k0) as [H|H]; rewrite H; auto end.
Qed.

Lemma run_total_switches (ops : list op) :
  forall k,
    0 <= total_switches k ->
    total_switches k + Z.of_nat (count_ticks ops + count_blocks ops)
      < UINT32_MOD ->
    total_switches k <= total_switches (run ops k)
      <= total_switches k + Z.of_nat (count_ticks ops + count_blocks ops).
Proof.
  unfold run, count_ticks, count_blocks.
  induction ops as [|o ops IH]; intros k Hk Hbound.
  - cbn. lia.
  - cbn [fold_left]. cbn [List.filter] in Hbound |- *.
    destruct (step_total_switches k o) as [Hs|[Ho Hs]].
    + specialize (IH (step k o)). rewrite Hs in IH.
      destruct o; cbn [length] in Hbound |- *;
        (destruct IH; [lia|lia|lia]).
    + specialize (IH (step k o)). rewrite Hs in IH.
      unfold u32_incr in IH.
      destruct o; [destruct Ho| | |destruct Ho]; cbn [length] in Hbound |- *;
        rewrite Z.mod_small in IH by lia; (destruct IH; [lia|lia|lia]).
Qed.

(** The number of elements satisfying [p] after one element that did not
    was replaced by one that does. *)
Lemma filter_alter_one (p : TCB -> bool) (f : TCB -> TCB) (l : list TCB) :
  Forall (fun t => p t = false) l ->
  (forall t, p (f t) = true) ->
  forall h, (h < length l)%nat ->
            length (List.filter p (alter f h l)) = 1%nat.
Proof.
  intros Hall Hf. induction Hall as [|a l Ha Hall IH]; intros h Hh;
    [cbn in Hh; lia|].
  destruct h as [|h]; cbn.
  - rewrite Hf. cbn. f_equal.
    clear IH Hh. induction Hall as [|b l Hb Hall IH]; [reflexivity|].
    cbn. rewrite Hb. exact IH.
  - rewrite Ha. apply IH. cbn in Hh. lia.
Qed.

(** A run that only creates tasks leaves them all Ready and the counters
    as they were. *)
Lemma create_all_run (specs : list (Z * Z * Z)) :
  forall k,
    Forall (fun t => state t = TASK_READY) (tasks k) ->
    let k' := run (create_all specs) k in
    Forall (fun t => state t = TASK_READY) (tasks k')
    /\ total_switches k' = total_switches k
    /\ tick_count k' = tick_count k
    /\ (specs <> [] \/ tasks k <> [] -> tasks k' <> []).
Proof.
  unfold run, create_all.
  induction specs as [|s specs IH]; intros k Hk; cbn [map fold_left].
  - repeat split; try assumption. intros [H|H]; [contradiction|assumption].
  - set (k1 := step k (create_task (fst (fst s)) (snd (fst s)) (snd s))).
    assert (Forall (fun t => state t = TASK_READY) (tasks k1)
            /\ total_switches k1 = total_switches k
            /\ tick_count k1 = tick_count k
            /\ tasks k1 <> []) as (H1 & H2 & H3 & H4).
    { subst k1. unfold step, rtos_create_task.
      destruct (Nat.leb_spec MAX_TASKS (num_tasks k)) as [Hfull|Hroom].
      - repeat split; try assumption; cbn [snd].
        intros Hnil. unfold num_tasks in Hfull. rewrite Hnil in Hfull.
        cbn in Hfull. unfold MAX_TASKS in Hfull. lia.
      - cbn [snd with_tasks tasks total_switches tick_count negb].
        repeat split.
        + apply Forall_app. split; [assumption|].
          constructor; [reflexivity|constructor].
        + intros H. apply app_eq_nil in H as [_ H]. discriminate. }
    destruct (IH k1 H1) as (I1 & I2 & I3 & I4).
    repeat split; try assumption; try congruence.
    intros _. apply I4. right. exact H4.
Qed.

End KernelCounters.

(** X13: [run_count] counts dispatches.  In every kernel reached through
    the interface, a tick or a [rtos_block_task] call raises by one (modulo
    [2^32]) the run count of the task that is Running afterwards, and leaves
    the run counts of all other tasks as they are. *)
Theorem run_count_counts_dispatches (ops : list op) :
  run_count_step (run ops rtos_init) (rtos_tick_handler (run ops rtos_init))
  /\ forall tmo,
       run_count_step (run ops rtos_init)
                      (rtos_block_task tmo (run ops rtos_init)).
Proof.
  pose proof (kernel_inv_run ops _ kernel_inv_init) as Hinv.
  set (k := run ops rtos_init) in *. split.
  - unfold rtos_tick_handler.
    pose proof (kernel_inv_unblock_pass _ (kernel_inv_advance_tick k Hinv))
      as (_ & Hrun1 & _).
    intros j t' Hj.
    destruct (preempt_or_dispatch_run_count _ Hrun1 j t' Hj) as (t1 & H1 & Hrc).
    cbn in H1. apply lookup_map_Some in H1 as (t0 & H0 & ->).
    exists t0. split; [assumption|]. rewrite Hrc.
    unfold unblock. destruct (_ && _); reflexivity.
  - intros tmo. destruct Hinv as (_ & Hrun & _). unfold rtos_block_task.
    destruct (tasks k !! current_task k) as [c|] eqn:Hc.
    + apply (run_count_step_after_alter (set_blocked (tick_count k) tmo) k
               (current_task k)); [reflexivity|].
      apply dispatch_next_run_count, none_running_after_alter;
        [assumption|discriminate].
    + intros j t' Hj. exists t'. split; [assumption|]. unfold is_running.
      destruct (TaskState_eqb (state t') TASK_RUNNING) eqn:E; [|reflexivity].
      apply TaskState_eqb_eq in E. pose proof (Hrun _ _ Hj E). congruence.
Qed.

(** X14: [total_switches] never grows by more than one per tick or block
    and never at a [rtos_create_task]: after a run from the initialized
    kernel it is at most the number of ticks and blocks of the run (for
    runs short enough for the counter not to wrap). *)
Theorem total_switches_bounded (ops : list op) :
  Z.of_nat (count_ticks ops + count_blocks ops) < UINT32_MOD ->
  0 <= total_switches (run ops rtos_init)
    <= Z.of_nat (count_ticks ops + count_blocks ops).
Proof.
  intros Hb. apply (run_total_switches ops rtos_init); cbn [total_switches rtos_init]; lia.
Qed.

Lemma total_switches_bounded_witness :
  0 <= total_switches
         (run [create_task 1 1000 1000; tick; tick; block_current 3; tick]
              rtos_init) <= 4.
Proof.
  apply (total_switches_bounded
           [create_task 1 1000 1000; tick; tick; block_current 3; tick]).
  reflexivity.
Defined.

(** X15: [rtos_start] on a freshly filled table: after any number of
    [rtos_create_task] calls on the initialized kernel, [rtos_start] marks
    the scheduler as running and, when at least one task was created, leaves
    exactly one task Running; no switch is counted and no time passes. *)
Theorem rtos_start_after_creates (specs : list (Z * Z * Z)) :
  let k' := rtos_start (run (create_all specs) rtos_init) in
  scheduler_running k' = true
  /\ total_switches k' = 0
  /\ tick_count k' = 0
  /\ running_count k' = match specs with [] => 0%nat | _ => 1%nat end.
Proof.
  destruct (create_all_run specs rtos_init ltac:(constructor))
    as (Hready & Hsw & Htc & Hne).
  set (k := run (create_all specs) rtos_init) in *.
  cbn [total_switches tick_count rtos_init] in Hsw, Htc.
  cbv zeta. unfold rtos_start.
  set (k1 := mkKernel (tasks k) (current_task k) (tick_count k) true
                      (total_switches k)).
  destruct (schedule_next_task_cases k1) as [Hs|(h & t & Ht & Hst & Hs)];
    rewrite Hs.
  - repeat split; try assumption.
    destruct specs as [|s specs]; [reflexivity|].
    assert (no_ready k1) as Hn
      by (apply schedule_next_task_None; rewrite Hs; reflexivity).
    specialize (Hne ltac:(left; discriminate)).
    assert (exists t0, tasks k !! 0%nat = Some t0) as [t0 H0]
      by (destruct (tasks k); [contradiction|eexists; reflexivity]).
    pose proof (proj1 (Forall_lookup _ _) Hready 0%nat t0 H0) as Hst0.
    destruct (Hn 0%nat t0 H0 Hst0).
  - cbn [simulate_task_execution with_tasks tasks scheduler_running
           total_switches tick_count current_task].
    repeat split; try assumption.
    unfold running_count, simulate_task_execution, with_tasks. cbn [tasks].
    rewrite list_alter_alter_eq.
    rewrite filter_alter_one.
    + destruct specs; [|reflexivity]. cbn in Ht.
      destruct h; discriminate.
    + eapply Forall_impl; [exact Hready|]. intros t0 H0. cbv beta.
      unfold is_running. rewrite H0. reflexivity.
    + intros t0. reflexivity.
    + exact (lookup_lt_Some _ _ _ Ht).
Qed.

(** ** Hyperperiod arithmetic of the real-time demo *)

Section HyperperiodFacts.

Import RtDemo.

Lemma gcd_loop_spec (fuel : nat) :
  forall a b, Z.abs b < Z.of_nat fuel ->
    Z.abs (gcd_loop fuel a b) = Z.gcd a b
    /\ (0 <= a -> 0 <= b -> 0 <= gcd_loop fuel a b).
Proof.
  induction fuel as [|fuel IH]; intros a b Hb; [lia|].
  cbn [gcd_loop]. destruct (Z.eqb_spec b 0) as [->|Hne].
  - rewrite Z.gcd_0_r. split; [reflexivity|trivial].
  - pose proof (Z.rem_bound_abs a b Hne) as Hrem.
    destruct (IH b (Z.rem a b) ltac:(lia)) as [Habs Hpos].
    split.
    + rewrite Habs.
      rewrite (Z.gcd_comm a b).
      replace a with (Z.rem a b + Z.quot a b * b) at 2
        by (pose proof (Z.quot_rem' a b); lia).
      rewrite Z.gcd_add_mult_diag_r. reflexivity.
    + intros Ha Hb0. apply Hpos; [assumption|].
      apply Z.rem_nonneg; [assumption|assumption].
Qed.

Lemma gcd_Zgcd (a b : Z) : 0 <= a -> 0 <= b -> gcd a b = Z.gcd a b.
Proof.
  intros Ha Hb. unfold gcd.
  destruct (gcd_loop_spec (S (Z.to_nat (Z.abs b))) a b ltac:(lia))
    as [Habs Hpos].
  rewrite <- Habs. symmetry. apply Z.abs_eq. auto.
Qed.

Lemma lcm_Zlcm (a b : Z) : 0 < a -> 0 < b -> lcm a b = Z.lcm a b.
Proof.
  intros Ha Hb. unfold lcm. rewrite gcd_Zgcd by lia.
  pose proof (Z.gcd_nonneg a b) as Hg0.
  assert (Z.gcd a b <> 0) as Hg
    by (intros H; apply Z.gcd_eq_0_l in H; lia).
  rewrite Z.quot_div_nonneg by lia.
  unfold Z.lcm.
  rewrite Z.divide_div_mul_exact; [|assumption|apply Z.gcd_divide_r].
  symmetry. apply Z.abs_eq.
  apply Z.mul_nonneg_nonneg; [lia|].
  apply Z.div_pos; lia.
Qed.

(** The loop of [calculate_hyperperiod] on positive periods. *)
Lemma hyperperiod_loop_spec (ts : list rt_task_t) :
  forall hp, 0 < hp -> Forall (fun t => 0 < period t) ts ->
    let r := hyperperiod_loop hp ts in
    r = HYPERPERIOD_LIMIT
    \/ (0 < r /\ (hp | r) /\ Forall (fun t => (period t | r)) ts
        /\ (ts <> [] -> r <= HYPERPERIOD_LIMIT)).
Proof.
  induction ts as [|t ts IH]; intros hp Hhp Hts; cbn [hyperperiod_loop].
  - right. repeat split; [assumption|reflexivity|constructor|congruence].
  - apply Forall_cons in Hts as [Ht Hts].
    rewrite lcm_Zlcm by assumption. cbv zeta.
    destruct (Z.gtb_spec (Z.lcm hp (period t)) HYPERPERIOD_LIMIT) as [Hgt|Hle];
      [left; reflexivity|].
    assert (0 < Z.lcm hp (period t)) as Hl.
    { pose proof (Z.lcm_nonneg hp (period t)).
      assert (Z.lcm hp (period t) <> 0); [|lia].
      intros H0. apply Z.lcm_eq_0 in H0. lia. }
    destruct (IH (Z.lcm hp (period t)) Hl Hts)
      as [Hr|(Hr0 & Hdiv & Hall & Hbound)]; [left; exact Hr|].
    right. repeat split; try assumption.
    + apply (Z.divide_trans _ (Z.lcm hp (period t)));
        [apply Z.divide_lcm_l|assumption].
    + constructor; [|assumption].
      apply (Z.divide_trans _ (Z.lcm hp (period t)));
        [apply Z.divide_lcm_r|assumption].
    + intros _. destruct ts as [|t' ts']; [exact Hle|].
      apply Hbound. discriminate.
Qed.

(** On periods between 1 and 46340 every call of [lcm] that the loop
    makes is on positive arguments whose product is an [int]. *)
Lemma hyperperiod_calls_in_range (ts : list rt_task_t) :
  forall hp, 0 < hp <= 46340 ->
    Forall (fun t => 0 < period t <= 46340) ts ->
    Forall lcm_in_range (hyperperiod_calls hp ts).
Proof.
  induction ts as [|t ts IH]; intros hp Hhp Hts; cbn [hyperperiod_calls];
    [constructor|].
  apply Forall_cons in Hts as [Ht Hts].
  constructor.
  - unfold lcm_in_range, INT_MAX. cbn [fst snd]. split; [lia|]. split; [lia|].
    nia.
  - cbv zeta. rewrite lcm_Zlcm by lia.
    destruct (Z.gtb_spec (Z.lcm hp (period t)) HYPERPERIOD_LIMIT) as [Hgt|Hle];
      [constructor|].
    apply IH; [|assumption].
    pose proof (Z.lcm_nonneg hp (period t)).
    assert (Z.lcm hp (period t) <> 0)
      by (intros H0; apply Z.lcm_eq_0 in H0; lia).
    unfold HYPERPERIOD_LIMIT in Hle. lia.
Qed.

Lemma calculate_hyperperiod_bounds (s : rt_scheduler_t) :
  Forall (fun t => 0 < period t <= 46340) (tasks s) ->
  0 <= calculate_hyperperiod s <= 46340.
Proof.
  intros Hp. unfold calculate_hyperperiod.
  destruct (tasks s) as [|t0 ts]; [lia|].
  apply Forall_cons in Hp as [H0 Hts].
  assert (Forall (fun t => 0 < period t) ts) as Hts'
    by (eapply Forall_impl; [exact Hts|]; cbv beta; intros; lia).
  destruct (hyperperiod_loop_spec ts (period t0) ltac:(lia) Hts')
    as [Hr|(Hr0 & _ & _ & Hbound)].
  - rewrite Hr. unfold HYPERPERIOD_LIMIT. lia.
  - destruct ts as [|t1 ts1]; [cbn; lia|].
    specialize (Hbound ltac:(discriminate)).
    unfold HYPERPERIOD_LIMIT in Hbound. lia.
Qed.

End HyperperiodFacts.

(** X16: for non-negative arguments [gcd] returns the greatest common
    divisor; in particular [gcd a 0 = a] and [gcd 0 b = b], and the loop
    always ends. *)
Theorem gcd_is_greatest_common_divisor (a b : Z) :
  0 <= a -> 0 <= b -> RtDemo.gcd a b = Z.gcd a b.
Proof. apply gcd_Zgcd. Qed.

Lemma gcd_is_greatest_common_divisor_witness :
  RtDemo.gcd 30 50 = 10 /\ RtDemo.gcd 30 50 = Z.gcd 30 50.
Proof.
  split; [reflexivity|].
  apply (gcd_is_greatest_common_divisor 30 50); lia.
Defined.

(** X17: for positive arguments whose product [a * b] is an [int], [lcm]
    returns the least common multiple, which is an [int] too. *)
Theorem lcm_is_least_common_multiple (a b : Z) :
  0 < a -> 0 < b -> a * b <= RtDemo.INT_MAX ->
  RtDemo.lcm a b = Z.lcm a b /\ 0 < RtDemo.lcm a b <= RtDemo.INT_MAX.
Proof.
  intros Ha Hb Hab. rewrite lcm_Zlcm by assumption.
  split; [reflexivity|].
  pose proof (Z.lcm_nonneg a b).
  assert (Z.lcm a b <> 0) by (intros H0; apply Z.lcm_eq_0 in H0; lia).
  split; [lia|].
  assert (Z.lcm a b <= a * b); [|lia].
  apply Z.divide_pos_le; [nia|].
  apply Z.lcm_least; [apply Z.divide_factor_l|apply Z.divide_factor_r].
Qed.

Lemma lcm_is_least_common_multiple_witness :
  RtDemo.lcm 10 15 = 30
  /\ (RtDemo.lcm 10 15 = Z.lcm 10 15 /\ 0 < RtDemo.lcm 10 15 <= RtDemo.INT_MAX).
Proof.
  split; [reflexivity|].
  apply (lcm_is_least_common_multiple 10 15); unfold RtDemo.INT_MAX; lia.
Defined.

(** X18: [calculate_hyperperiod] returns 0 for an empty task set and the
    period of the task for a single task, whatever its size.  For positive
    periods (small enough for the products not to overflow) the result is
    positive, and it is either the cap [HYPERPERIOD_LIMIT] or a common
    multiple of all periods; with two tasks or more it never exceeds the
    cap. *)
Theorem calculate_hyperperiod_spec (s : RtDemo.rt_scheduler_t) :
  Forall (fun t => 0 < RtDemo.period t <= 46340) (RtDemo.tasks s) ->
  let h := RtDemo.calculate_hyperperiod s in
  (RtDemo.tasks s = [] -> h = 0)
  /\ (forall t, RtDemo.tasks s = [t] -> h = RtDemo.period t)
  /\ (RtDemo.tasks s <> [] -> 0 < h)
  /\ (h = RtDemo.HYPERPERIOD_LIMIT
      \/ Forall (fun t => (RtDemo.period t | h)) (RtDemo.tasks s))
  /\ ((2 <= RtDemo.task_count s)%nat -> h <= RtDemo.HYPERPERIOD_LIMIT).
Proof.
  intros Hp. unfold RtDemo.calculate_hyperperiod, RtDemo.task_count.
  destruct (RtDemo.tasks s) as [|t0 ts]; cbv zeta.
  - split; [reflexivity|]. split; [congruence|]. split; [congruence|].
    split; [right; constructor|]. cbn. lia.
  - apply Forall_cons in Hp as [H0 Hts].
    assert (Forall (fun t => 0 < RtDemo.period t) ts) as Hts'
      by (eapply Forall_impl; [exact Hts|]; cbv beta; intros; lia).
    destruct (hyperperiod_loop_spec ts (RtDemo.period t0) ltac:(lia) Hts')
      as [Hr|(Hr0 & Hdiv & Hall & Hbound)].
    + split; [congruence|]. split; [intros t [= -> ->]; reflexivity|].
      split; [intros _; rewrite Hr; reflexivity|].
      split; [left; exact Hr|]. intros _. rewrite Hr. reflexivity.
    + split; [congruence|]. split; [intros t [= -> ->]; reflexivity|].
      split; [intros _; exact Hr0|].
      split; [right; constructor; assumption|].
      intros Hlen. apply Hbound. destruct ts; [cbn in Hlen; lia|discriminate].
Qed.

Lemma calculate_hyperperiod_spec_witness :
  let s := RtDemo.generate_rt_workload RtDemo.initialize_rt_scheduler in
  RtDemo.calculate_hyperperiod s = 150
  /\ Forall (fun t => (RtDemo.period t | 150)) (RtDemo.tasks s).
Proof.
  intros s.
  assert (Forall (fun t => 0 < RtDemo.period t <= 46340) (RtDemo.tasks s)) as Hp
    by (repeat constructor; cbn; lia).
  destruct (calculate_hyperperiod_spec s Hp) as (_ & _ & _ & [H|H] & _).
  - discriminate H.
  - split; [reflexivity|exact H].
Defined.

(** ** Earliest-deadline selection *)

Section EdfFacts.

Import RtDemo.

Lemma select_edf_loop_cons (base : nat) (a : rt_task_t) (ts : list rt_task_t)
  (acc : option nat * Z) :
  select_edf_loop base (a :: ts) acc
  = select_edf_loop (S base) ts (select_edf_step acc (base, a)).
Proof. reflexivity. Qed.

(** The loop either keeps its state, and then no pending task has a
    deadline before the bound it started with, or it ends on the first of
    the pending tasks with the earliest deadline, which is before that
    bound. *)
Lemma select_edf_loop_spec (ts : list rt_task_t) :
  forall (base : nat) (sel : option nat) (bound : Z),
    (select_edf_loop base ts (sel, bound) = (sel, bound)
     /\ forall j t, ts !! j = Some t -> pending t = true ->
                    bound <= next_deadline t)
    \/ (exists j t,
          ts !! j = Some t /\ pending t = true
          /\ select_edf_loop base ts (sel, bound)
             = (Some (base + j)%nat, next_deadline t)
          /\ next_deadline t < bound
          /\ forall j' t', ts !! j' = Some t' -> pending t' = true ->
                next_deadline t <= next_deadline t'
                /\ (next_deadline t' = next_deadline t -> (j <= j')%nat)).
Proof.
  induction ts as [|a ts IH]; intros base sel bound.
  - left. split; [reflexivity|]. intros j t H. destruct j; discriminate.
  - rewrite select_edf_loop_cons. unfold select_edf_step. cbn [snd].
    assert (forall (sel0 : option nat) (b0 : Z),
      (pending a = true -> b0 <= next_deadline a) ->
      (select_edf_loop (S base) ts (sel0, b0) = (sel0, b0)
       /\ forall j t, (a :: ts) !! j = Some t -> pending t = true ->
                      b0 <= next_deadline t)
      \/ (exists j t,
            (a :: ts) !! j = Some t /\ pending t = true
            /\ select_edf_loop (S base) ts (sel0, b0)
               = (Some (base + j)%nat, next_deadline t)
            /\ next_deadline t < b0
            /\ forall j' t', (a :: ts) !! j' = Some t' -> pending t' = true ->
                  next_deadline t <= next_deadline t'
                  /\ (next_deadline t' = next_deadline t -> (j <= j')%nat)))
      as Hlater.
    { intros sel0 b0 Ha.
      destruct (IH (S base) sel0 b0)
        as [[Heq Hall]|(j & t & Hj & Hp & Heq & Hlt & Hmin)].
      - left. split; [assumption|]. intros [|j] t H Hp; cbn in H.
        + injection H as <-. auto.
        + eapply Hall; eassumption.
      - right. exists (S j), t. rewrite Nat.add_succ_r.
        split; [exact Hj|]. split; [exact Hp|]. split; [exact Heq|].
        split; [exact Hlt|].
        intros [|j'] t' H Hp'; cbn in H.
        + injection H as <-. specialize (Ha Hp'). lia.
        + destruct (Hmin j' t' H Hp') as [H1 H2]. split; [exact H1|].
          intros He. specialize (H2 He). lia. }
    destruct (pending a) eqn:Hpa;
      [destruct (Z.ltb_spec (next_deadline a) bound) as [Hlt|Hge]|].
    + right.
      destruct (IH (S base) (Some base) (next_deadline a))
        as [[Heq Hall]|(j & t & Hj & Hp & Heq & Hlt' & Hmin)].
      * exists 0%nat, a. rewrite Nat.add_0_r.
        split; [reflexivity|]. split; [exact Hpa|]. split; [exact Heq|].
        split; [exact Hlt|].
        intros [|j'] t' H Hp'; cbn in H.
        -- injection H as <-. lia.
        -- specialize (Hall j' t' H Hp'). lia.
      * exists (S j), t. rewrite Nat.add_succ_r.
        split; [exact Hj|]. split; [exact Hp|]. split; [exact Heq|].
        split; [lia|].
        intros [|j'] t' H Hp'; cbn in H.
        -- injection H as <-. lia.
        -- destruct (Hmin j' t' H Hp') as [H1 H2]. split; [exact H1|].
           intros He. specialize (H2 He). lia.
    + apply Hlater. intros _. exact Hge.
    + apply Hlater. discriminate.
Qed.

End EdfFacts.

(** X19: [select_rms_task] returns [NULL] exactly when no task that is
    active with remaining execution has a priority value below [INT_MAX];
    otherwise it returns such a task with the least priority value (the
    shortest period), the one in the lowest slot when several share it. *)
Theorem select_rms_task_spec (s : RtDemo.rt_scheduler_t) :
  match RtDemo.select_rms_task s with
  | None =>
      forall j t, RtDemo.tasks s !! j = Some t -> RtDemo.pending t = true ->
                  RtDemo.INT_MAX <= RtDemo.priority t
  | Some i =>
      exists t,
        RtDemo.tasks s !! i = Some t /\ RtDemo.pending t = true
        /\ RtDemo.priority t < RtDemo.INT_MAX
        /\ forall j t', RtDemo.tasks s !! j = Some t' ->
                        RtDemo.pending t' = true ->
                        RtDemo.priority t <= RtDemo.priority t'
                        /\ (RtDemo.priority t' = RtDemo.priority t -> (i <= j)%nat)
  end.
Proof.
  destruct (RtDemo.select_rms_task s) as [i|] eqn:Hsel.
  - apply select_rms_task_Some, Hsel.
  - apply select_rms_task_None, Hsel.
Qed.

(** X20: [select_edf_task] returns [NULL] exactly when no task that is
    active with remaining execution has its next deadline before [INT_MAX];
    otherwise it returns such a task with the earliest next deadline, the
    one in the lowest slot when several share it. *)
Theorem select_edf_task_spec (s : RtDemo.rt_scheduler_t) :
  match RtDemo.select_edf_task s with
  | None =>
      forall j t, RtDemo.tasks s !! j = Some t -> RtDemo.pending t = true ->
                  RtDemo.INT_MAX <= RtDemo.next_deadline t
  | Some i =>
      exists t,
        RtDemo.tasks s !! i = Some t /\ RtDemo.pending t = true
        /\ RtDemo.next_deadline t < RtDemo.INT_MAX
        /\ forall j t', RtDemo.tasks s !! j = Some t' ->
                        RtDemo.pending t' = true ->
                        RtDemo.next_deadline t <= RtDemo.next_deadline t'
                        /\ (RtDemo.next_deadline t' = RtDemo.next_deadline t ->
                            (i <= j)%nat)
  end.
Proof.
  unfold RtDemo.select_edf_task.
  destruct (select_edf_loop_spec (RtDemo.tasks s) 0 None RtDemo.INT_MAX)
    as [[Heq Hall]|(j & t & Hj & Hp & Heq & Hlt & Hmin)]; rewrite Heq; cbn.
  - exact Hall.
  - exists t. repeat split; try assumption; apply (Hmin _ _ H H0).
Qed.

(** ** The simulation loop of the real-time demo *)

Section SimulationFacts.

Import RtDemo.

Variable select : rt_scheduler_t -> option nat.

Lemma map_alter_proj {A B : Type} (g : A -> B) (f : A -> A) (l : list A) :
  (forall t, g (f t) = g t) ->
  forall i, map g (alter f i l) = map g l.
Proof.
  intros Hf. induction l as [|a l IH]; intros [|i]; cbn; try reflexivity.
  - rewrite Hf. reflexivity.
  - f_equal. apply IH.
Qed.

Lemma simulation_step_time (s : rt_scheduler_t) (prev : option nat) :
  current_time (fst (simulation_step select (s, prev))) = current_time s + 1.
Proof.
  unfold simulation_step. cbn [fst current_time].
  destruct (select (check_deadlines (release_periodic_tasks s)));
    destruct (_ && _); reflexivity.
Qed.

(** The tasks after one iteration, slot by slot. *)
Lemma simulation_step_tasks (s : rt_scheduler_t) (prev : option nat) :
  exists sel : option nat,
    tasks (fst (simulation_step select (s, prev)))
    = match sel with
      | Some i => alter execute_one i (map (after_checks (current_time s)) (tasks s))
      | None => map (after_checks (current_time s)) (tasks s)
      end.
Proof.
  unfold simulation_step.
  set (s2 := check_deadlines (release_periodic_tasks s)).
  assert (tasks s2 = map (after_checks (current_time s)) (tasks s)) as Ht.
  { subst s2. cbn. rewrite !map_map. reflexivity. }
  clearbody s2. exists (select s2). cbn [fst tasks].
  destruct (select s2); destruct (_ && _); cbn [execute_task tasks];
    rewrite Ht; reflexivity.
Qed.

(** A per-task property that every part of an iteration respects holds
    for the tasks after the iteration. *)
Lemma simulation_step_Forall (Q Q' : rt_task_t -> Prop) (s : rt_scheduler_t)
  (prev : option nat) :
  (forall t, Q t ->
     Q' (after_checks (current_time s) t)
     /\ Q' (execute_one (after_checks (current_time s) t))) ->
  Forall Q (tasks s) ->
  Forall Q' (tasks (fst (simulation_step select (s, prev)))).
Proof.
  intros Hstep HQ.
  destruct (simulation_step_tasks s prev) as [sel ->].
  assert (Forall Q' (map (after_checks (current_time s)) (tasks s))) as H1.
  { apply List.Forall_map. eapply Forall_impl; [exact HQ|].
    intros t Ht. apply Hstep, Ht. }
  destruct sel as [i|]; [|exact H1].
  apply Forall_lookup. intros j t' Hj.
  rewrite list_lookup_alter in Hj.
  destruct (decide (i = j)) as [->|Hne].
  - change (map (after_checks (current_time s)) (tasks s))
      with (after_checks (current_time s) <$> tasks s) in Hj.
    rewrite list_lookup_fmap in Hj.
    destruct (tasks s !! j) as [t|] eqn:Ht; [|discriminate].
    cbn in Hj. injection Hj as <-.
    apply Hstep. exact (proj1 (Forall_lookup _ _) HQ j t Ht).
  - exact (proj1 (Forall_lookup _ _) H1 j t' Hj).
Qed.

(** An invariant of the iterations holds when the loop ends. *)
Lemma simulation_loop_inv (Inv : rt_scheduler_t -> Prop) :
  (forall s prev, Inv s -> Inv (fst (simulation_step select (s, prev)))) ->
  forall fuel e st, Inv (fst st) ->
                    Inv (fst (simulation_loop select fuel e st)).
Proof.
  intros Hstep. induction fuel as [|fuel IH]; intros e st Hst; [exact Hst|].
  cbn [simulation_loop]. destruct (_ <? _); [|exact Hst].
  apply IH. destruct st as [s prev]. apply Hstep, Hst.
Qed.

(** The loop runs until [current_time] reaches [simulation_end]. *)
Lemma simulation_loop_time (fuel : nat) (e : Z) :
  forall st, e - current_time (fst st) <= Z.of_nat fuel ->
    current_time (fst (simulation_loop select fuel e st))
    = Z.max (current_time (fst st)) e.
Proof.
  induction fuel as [|fuel IH]; intros st Hf.
  - cbn. lia.
  - cbn [simulation_loop].
    destruct (Z.ltb_spec (current_time (fst st)) e) as [Hlt|Hge]; [|lia].
    destruct st as [s prev]. rewrite IH; rewrite simulation_step_time;
      cbn [fst] in *; lia.
Qed.

Ltac task_cases :=
  repeat (cbn [fst snd id period execution_time deadline priority
               next_release next_deadline remaining_execution
               instances_released instances_completed instances_missed
               active deadline_missed andb negb] in *;
          match goal with
          | |- context [if ?b then _ else _] => destruct b eqn:?
          end);
  cbn [fst snd id period execution_time deadline priority
       next_release next_deadline remaining_execution
       instances_released instances_completed instances_missed
       active deadline_missed andb negb] in *.

Lemma released_on_schedule_step (now : Z) (t : rt_task_t) :
  1 <= period t -> released_on_schedule now t ->
  (1 <= period (after_checks now t)
   /\ released_on_schedule (now + 1) (after_checks now t))
  /\ (1 <= period (execute_one (after_checks now t))
      /\ released_on_schedule (now + 1) (execute_one (after_checks now t))).
Proof.
  unfold released_on_schedule, after_checks, release_task,
    check_deadline_task, execute_one.
  intros Hp [Hnr Hnow]. task_cases; repeat split; lia.
Qed.

Lemma accounts_ok_step (now : Z) (t : rt_task_t) :
  0 <= execution_time t -> accounts_ok t ->
  (0 <= execution_time (after_checks now t)
   /\ accounts_ok (after_checks now t))
  /\ (0 <= execution_time (execute_one (after_checks now t))
      /\ accounts_ok (execute_one (after_checks now t))).
Proof.
  unfold accounts_ok, after_checks, release_task, check_deadline_task,
    execute_one, pending.
  intros He (Hrem & Hact & Hc & Hrel & Hm).
  destruct (active t) eqn:Ea; [|specialize (Hact eq_refl)];
    task_cases; repeat split; try lia; try discriminate;
    try (intros; congruence); try (rewrite ?Ea in *; cbn [andb] in *; lia).
Qed.

Lemma task_parameters_step (now : Z) (t : rt_task_t) :
  task_parameters (after_checks now t) = task_parameters t
  /\ task_parameters (execute_one (after_checks now t)) = task_parameters t.
Proof.
  unfold task_parameters, after_checks, release_task, check_deadline_task,
    execute_one.
  task_cases; split; reflexivity.
Qed.

(** The state in which [simulate] enters its loop. *)
Lemma simulate_unfold (s : rt_scheduler_t) :
  simulate select s
  = let e := if calculate_hyperperiod (reset_rt_scheduler s) <? SIMULATION_TIME
             then calculate_hyperperiod (reset_rt_scheduler s)
             else SIMULATION_TIME in
    fst (simulation_loop select (Z.to_nat e) e
           (mkScheduler (map reset_task (tasks s)) 0
                        (calculate_hyperperiod (reset_rt_scheduler s))
                        (total_utilization s) 0 0 (schedulable s),
            None)).
Proof. reflexivity. Qed.

Lemma simulate_released (s : rt_scheduler_t) :
  Forall (fun t => 1 <= period t) (tasks s) ->
  Forall (released_on_schedule (current_time (simulate select s)))
         (tasks (simulate select s)).
Proof.
  intros Hp. rewrite simulate_unfold. cbv zeta.
  set (e := if _ <? _ then _ else _). clearbody e.
  pose proof (simulation_loop_inv
    (fun s' => Forall (fun t => 1 <= period t
                                /\ released_on_schedule (current_time s') t)
                      (tasks s'))) as Hinv.
  cbv beta in Hinv.
  eapply Forall_impl; [apply Hinv|].
  - intros s' prev Hs'. rewrite simulation_step_time.
    eapply simulation_step_Forall; [|exact Hs'].
    intros t [H1 H2]. apply released_on_schedule_step; assumption.
  - cbn [fst tasks current_time]. apply List.Forall_map.
    eapply Forall_impl; [exact Hp|]. intros t Ht. cbv beta in Ht |- *.
    unfold released_on_schedule, reset_task.
    cbn [period next_release instances_released]. lia.
  - intros t [_ H]. exact H.
Qed.

Lemma simulate_accounts (s : rt_scheduler_t) :
  Forall (fun t => 0 <= execution_time t) (tasks s) ->
  Forall accounts_ok (tasks (simulate select s)).
Proof.
  intros Hp. rewrite simulate_unfold. cbv zeta.
  set (e := if _ <? _ then _ else _). clearbody e.
  pose proof (simulation_loop_inv
    (fun s' => Forall (fun t => 0 <= execution_time t /\ accounts_ok t)
                      (tasks s'))) as Hinv.
  cbv beta in Hinv.
  eapply Forall_impl; [apply Hinv|].
  - intros s' prev Hs'.
    eapply simulation_step_Forall; [|exact Hs'].
    intros t [H1 H2]. apply accounts_ok_step; assumption.
  - cbn [fst tasks]. apply List.Forall_map.
    eapply Forall_impl; [exact Hp|]. intros t Ht. cbv beta in Ht |- *.
    unfold accounts_ok, pending, reset_task.
    cbn [execution_time remaining_execution active instances_completed
         instances_released instances_missed andb].
    repeat split; lia.
  - intros t [_ H]. exact H.
Qed.

Lemma hyperperiod_loop_periods (ts ts' : list rt_task_t) :
  map period ts = map period ts' ->
  forall hp, hyperperiod_loop hp ts = hyperperiod_loop hp ts'.
Proof.
  revert ts'. induction ts as [|t ts IH]; intros [|t' ts'] H hp;
    try discriminate; [reflexivity|].
  cbn in H. injection H as Ht Hts. cbn [hyperperiod_loop]. rewrite Ht.
  destruct (_ >? _); [reflexivity|]. apply IH, Hts.
Qed.

Lemma calculate_hyperperiod_reset (s : rt_scheduler_t) :
  calculate_hyperperiod (reset_rt_scheduler s) = calculate_hyperperiod s.
Proof.
  unfold calculate_hyperperiod. cbn [reset_rt_scheduler tasks].
  destruct (tasks s) as [|t ts]; [reflexivity|]. cbn [map].
  apply hyperperiod_loop_periods. rewrite map_map. reflexivity.
Qed.

Lemma simulate_frame (s : rt_scheduler_t) :
  current_time (simulate select s)
  = Z.max 0 (Z.min (calculate_hyperperiod s) SIMULATION_TIME)
  /\ hyperperiod (simulate select s) = calculate_hyperperiod s
  /\ map task_parameters (tasks (simulate select s))
     = map task_parameters (tasks s).
Proof.
  rewrite simulate_unfold, calculate_hyperperiod_reset. cbv zeta.
  set (hp := calculate_hyperperiod s).
  assert ((if hp <? SIMULATION_TIME then hp else SIMULATION_TIME)
          = Z.min hp SIMULATION_TIME) as ->
    by (destruct (Z.ltb_spec hp SIMULATION_TIME); lia).
  split; [|split].
  - rewrite simulation_loop_time; cbn [fst current_time]; lia.
  - apply (simulation_loop_inv (fun s' => hyperperiod s' = hp));
      [|reflexivity].
    intros s' prev Hs'. unfold simulation_step. cbn [fst hyperperiod].
    destruct (select _); destruct (_ && _); cbn; exact Hs'.
  - apply (simulation_loop_inv
             (fun s' => map task_parameters (tasks s')
                        = map task_parameters (tasks s))).
    + intros s' prev Hs'.
      destruct (simulation_step_tasks s' prev) as [sel ->].
      assert (map task_parameters (map (after_checks (current_time s')) (tasks s'))
              = map task_parameters (tasks s)) as Hm.
      { rewrite <- Hs', map_map. apply map_ext. intros t.
        apply task_parameters_step. }
      destruct sel as [i|]; [|exact Hm].
      rewrite <- Hm. clear Hm.
      generalize (map (after_checks (current_time s')) (tasks s')).
      intros l. revert i.
      induction l as [|a l IH]; intros [|i]; cbn; try reflexivity.
      * f_equal. unfold task_parameters, execute_one.
        task_cases; reflexivity.
      * f_equal. apply IH.
    + cbn [fst tasks]. rewrite map_map. reflexivity.
Qed.

Lemma missed_instances_flagged (f : rt_task_t -> rt_task_t * bool)
  (l : list rt_task_t) :
  (forall t, instances_missed (fst (f t))
             = instances_missed t + (if snd (f t) then 1 else 0)) ->
  missed_instances (map fst (map f l))
  = missed_instances l + Z.of_nat (length (List.filter snd (map f l))).
Proof.
  intros Hf. induction l as [|a l IH]; [reflexivity|].
  cbn [map missed_instances fold_right List.filter].
  fold (missed_instances (map fst (map f l))). fold (missed_instances l).
  rewrite IH, Hf. destruct (snd (f a)); cbn [length]; lia.
Qed.

Lemma missed_instances_execute (l : list rt_task_t) :
  forall i, missed_instances (alter execute_one i l) = missed_instances l.
Proof.
  induction l as [|a l IH]; intros [|i]; cbn; try reflexivity.
  - f_equal. unfold execute_one. task_cases; reflexivity.
  - f_equal. apply IH.
Qed.

Lemma simulate_misses (s : rt_scheduler_t) :
  total_deadline_misses (simulate select s)
  = missed_instances (tasks (simulate select s)).
Proof.
  rewrite simulate_unfold. cbv zeta.
  apply (simulation_loop_inv
           (fun s' => total_deadline_misses s' = missed_instances (tasks s'))).
  - intros s' prev Hs'. unfold simulation_step.
    set (s1 := release_periodic_tasks s').
    assert (total_deadline_misses s1 = missed_instances (tasks s1)) as H1.
    { subst s1. cbn [release_periodic_tasks tasks total_deadline_misses].
      rewrite missed_instances_flagged, Hs'; [reflexivity|].
      intros t. unfold release_task. task_cases; lia. }
    clearbody s1.
    set (s2 := check_deadlines s1).
    assert (total_deadline_misses s2 = missed_instances (tasks s2)) as H2.
    { subst s2. cbn [check_deadlines tasks total_deadline_misses].
      rewrite missed_instances_flagged, H1; [reflexivity|].
      intros t. unfold check_deadline_task. task_cases; lia. }
    clearbody s2. cbn [fst].
    destruct (select s2); destruct (_ && _);
      cbn [execute_task tasks total_deadline_misses];
      rewrite ?missed_instances_execute; exact H2.
  - cbn [fst tasks total_deadline_misses].
    induction (tasks s) as [|a l IH]; [reflexivity|].
    cbn [map]. unfold missed_instances in *. cbn [fold_right].
    rewrite <- IH. reflexivity.
Qed.

End SimulationFacts.

(** X21: the simulations release every task exactly once per period.
    For a task set with periods of at least 1, after
    [simulate_rms_scheduling] and after [simulate_edf_scheduling] every task
    has [next_release = instances_released * period], and that next release
    is not before the end of the simulation and less than one period after
    it. *)
Theorem simulation_releases_once_per_period (s : RtDemo.rt_scheduler_t) :
  Forall (fun t => 1 <= RtDemo.period t) (RtDemo.tasks s) ->
  Forall (RtDemo.released_on_schedule
            (RtDemo.current_time (RtDemo.simulate_rms_scheduling s)))
         (RtDemo.tasks (RtDemo.simulate_rms_scheduling s))
  /\ Forall (RtDemo.released_on_schedule
               (RtDemo.current_time (RtDemo.simulate_edf_scheduling s)))
            (RtDemo.tasks (RtDemo.simulate_edf_scheduling s)).
Proof. intros Hp. split; apply simulate_released, Hp. Qed.

Lemma simulation_releases_once_per_period_witness :
  let s := RtDemo.generate_rt_workload RtDemo.initialize_rt_scheduler in
  RtDemo.current_time (RtDemo.simulate_rms_scheduling s) = 100
  /\ map RtDemo.instances_released (RtDemo.tasks (RtDemo.simulate_rms_scheduling s))
     = [10; 7; 4; 4; 2]
  /\ Forall (RtDemo.released_on_schedule 100)
            (RtDemo.tasks (RtDemo.simulate_rms_scheduling s)).
Proof.
  intros s.
  assert (RtDemo.current_time (RtDemo.simulate_rms_scheduling s) = 100) as E
    by (vm_compute; reflexivity).
  assert (Forall (fun t => 1 <= RtDemo.period t) (RtDemo.tasks s)) as Hp
    by (repeat constructor; vm_compute; discriminate).
  pose proof (proj1 (simulation_releases_once_per_period s Hp)) as H.
  rewrite E in H.
  split; [exact E|]. split; [vm_compute; reflexivity|exact H].
Defined.

(** X22: the bookkeeping of the simulations stays consistent.  For a task
    set with periods between 1 and 46340, deadlines of at most
    [INT_MAX - SIMULATION_TIME] and non-negative execution times, after
    [simulate_rms_scheduling] and after [simulate_edf_scheduling] every task
    has a remaining execution time between 0 and its execution time (0 when
    it is inactive), and has completed no more instances than were
    released, not counting the one in progress. *)
Theorem simulation_accounts_consistent (s : RtDemo.rt_scheduler_t) :
  Forall RtDemo.task_in_range (RtDemo.tasks s) ->
  Forall (fun t => 0 <= RtDemo.execution_time t) (RtDemo.tasks s) ->
  Forall RtDemo.accounts_ok (RtDemo.tasks (RtDemo.simulate_rms_scheduling s))
  /\ Forall RtDemo.accounts_ok (RtDemo.tasks (RtDemo.simulate_edf_scheduling s)).
Proof. intros _ Hp. split; apply simulate_accounts, Hp. Qed.

Lemma simulation_accounts_consistent_witness :
  let s := RtDemo.generate_rt_workload RtDemo.initialize_rt_scheduler in
  Forall RtDemo.accounts_ok (RtDemo.tasks (RtDemo.simulate_edf_scheduling s)).
Proof.
  intros s.
  assert (Forall RtDemo.task_in_range (RtDemo.tasks s)) as Hr
    by (repeat constructor; vm_compute; discriminate).
  assert (Forall (fun t => 0 <= RtDemo.execution_time t) (RtDemo.tasks s)) as Hp
    by (repeat constructor; vm_compute; discriminate).
  exact (proj2 (simulation_accounts_consistent s Hr Hp)).
Defined.

(** X23: the scheduler-wide count of missed deadlines is the sum of the
    per-task counts after [simulate_rms_scheduling] and after
    [simulate_edf_scheduling], for every task set with periods between 1
    and 46340 and deadlines of at most [INT_MAX - SIMULATION_TIME]. *)
Theorem simulation_miss_counts_agree (s : RtDemo.rt_scheduler_t) :
  Forall RtDemo.task_in_range (RtDemo.tasks s) ->
  RtDemo.total_deadline_misses (RtDemo.simulate_rms_scheduling s)
  = RtDemo.missed_instances (RtDemo.tasks (RtDemo.simulate_rms_scheduling s))
  /\ RtDemo.total_deadline_misses (RtDemo.simulate_edf_scheduling s)
     = RtDemo.missed_instances (RtDemo.tasks (RtDemo.simulate_edf_scheduling s)).
Proof. intros _. split; apply simulate_misses. Qed.

Lemma simulation_miss_counts_agree_witness :
  let s := RtDemo.add_all RtDemo.initialize_rt_scheduler
             [(1, 4, 3, 4); (2, 6, 3, 6); (3, 8, 2, 8)] in
  RtDemo.total_deadline_misses (RtDemo.simulate_rms_scheduling s) = 5
  /\ map RtDemo.instances_missed
         (RtDemo.tasks (RtDemo.simulate_rms_scheduling s)) = [0; 3; 2]
  /\ RtDemo.total_deadline_misses (RtDemo.simulate_rms_scheduling s)
     = RtDemo.missed_instances (RtDemo.tasks (RtDemo.simulate_rms_scheduling s)).
Proof.
  intros s.
  assert (Forall RtDemo.task_in_range (RtDemo.tasks s)) as Hr
    by (repeat constructor; vm_compute; discriminate).
  split; [vm_compute; reflexivity|].
  split; [vm_compute; reflexivity|].
  exact (proj1 (simulation_miss_counts_agree s Hr)).
Defined.

(** X24: for a task set with periods between 1 and 46340 and deadlines
    of at most [INT_MAX - SIMULATION_TIME], the hyperperiod is computed
    without overflow (every call of [lcm] is on positive arguments whose
    product is an [int]), and both simulations stop at time
    [min(hyperperiod, SIMULATION_TIME)], store the hyperperiod of the task
    set, and change no task's id, period, execution time, deadline or
    priority, nor the number of tasks. *)
Theorem simulation_end_and_frame (s : RtDemo.rt_scheduler_t) :
  Forall RtDemo.task_in_range (RtDemo.tasks s) ->
  match RtDemo.tasks s with
  | [] => True
  | t0 :: ts =>
      Forall RtDemo.lcm_in_range (RtDemo.hyperperiod_calls (RtDemo.period t0) ts)
  end
  /\ 0 <= RtDemo.calculate_hyperperiod s <= 46340
  /\ (RtDemo.current_time (RtDemo.simulate_rms_scheduling s)
   = Z.max 0 (Z.min (RtDemo.calculate_hyperperiod s) RtDemo.SIMULATION_TIME)
   /\ RtDemo.hyperperiod (RtDemo.simulate_rms_scheduling s)
      = RtDemo.calculate_hyperperiod s
   /\ map RtDemo.task_parameters (RtDemo.tasks (RtDemo.simulate_rms_scheduling s))
      = map RtDemo.task_parameters (RtDemo.tasks s))
  /\ (RtDemo.current_time (RtDemo.simulate_edf_scheduling s)
      = Z.max 0 (Z.min (RtDemo.calculate_hyperperiod s) RtDemo.SIMULATION_TIME)
      /\ RtDemo.hyperperiod (RtDemo.simulate_edf_scheduling s)
         = RtDemo.calculate_hyperperiod s
      /\ map RtDemo.task_parameters (RtDemo.tasks (RtDemo.simulate_edf_scheduling s))
         = map RtDemo.task_parameters (RtDemo.tasks s)).
Proof.
  intros Hr.
  assert (Forall (fun t => 0 < RtDemo.period t <= 46340) (RtDemo.tasks s))
    as Hp.
  { eapply Forall_impl; [exact Hr|]. cbv beta.
    unfold RtDemo.task_in_range. intros; lia. }
  split; [|split; [|split; apply simulate_frame]].
  - destruct (RtDemo.tasks s) as [|t0 ts]; [trivial|].
    apply Forall_cons in Hp as [H0 Hts].
    apply hyperperiod_calls_in_range; assumption.
  - apply calculate_hyperperiod_bounds. exact Hp.
Qed.

Lemma simulation_end_and_frame_witness :
  let s := RtDemo.generate_rt_workload RtDemo.initialize_rt_scheduler in
  RtDemo.hyperperiod_calls 10 (tl (RtDemo.tasks s))
  = [(10, 15); (30, 25); (150, 30); (150, 50)]
  /\ RtDemo.current_time (RtDemo.simulate_edf_scheduling s) = 100
  /\ RtDemo.hyperperiod (RtDemo.simulate_edf_scheduling s) = 150
  /\ map RtDemo.task_parameters (RtDemo.tasks (RtDemo.simulate_edf_scheduling s))
     = map RtDemo.task_parameters (RtDemo.tasks s).
Proof.
  intros s.
  assert (Forall RtDemo.task_in_range (RtDemo.tasks s)) as Hr
    by (repeat constructor; vm_compute; discriminate).
  destruct (simulation_end_and_frame s Hr) as (_ & _ & _ & _ & _ & Hf).
  split; [vm_compute; reflexivity|].
  split; [vm_compute; reflexivity|].
  split; [vm_compute; reflexivity|exact Hf].
Defined.

(** ** Deadline checks, reset and task-set construction *)

Section RtDemoFacts.

Import RtDemo.



Lemma add_rt_task_tasks (s : rt_scheduler_t) (spec : Z * Z * Z * Z) :
  tasks (add_rt_task s (fst (fst (fst spec))) (snd (fst (fst spec)))
                     (snd (fst spec)) (snd spec))
  = if Nat.ltb (task_count s) MAX_RT_TASKS
    then tasks s ++ [new_task spec] else tasks s.
Proof.
  unfold add_rt_task. destruct (Nat.ltb (task_count s) MAX_RT_TASKS);
    reflexivity.
Qed.

Lemma add_all_tasks (specs : list (Z * Z * Z * Z)) :
  forall s,
    tasks (add_all s specs)
    = tasks s ++ map new_task (firstn (MAX_RT_TASKS - task_count s) specs).
Proof.
  unfold add_all.
  induction specs as [|spec specs IH]; intros s; cbn [fold_left].
  - rewrite firstn_nil. cbn. rewrite app_nil_r. reflexivity.
  - rewrite IH. unfold task_count. rewrite add_rt_task_tasks.
    unfold task_count.
    destruct (Nat.ltb_spec (length (tasks s)) MAX_RT_TASKS) as [Hlt|Hge].
    + rewrite length_app. cbn [length].
      replace (MAX_RT_TASKS - length (tasks s))%nat
        with (S (MAX_RT_TASKS - (length (tasks s) + 1))) by lia.
      cbn [firstn map]. rewrite <- app_assoc. reflexivity.
    + replace (MAX_RT_TASKS - length (tasks s))%nat with 0%nat by lia.
      reflexivity.
Qed.

(** [add_rt_task] adds the utilization of the task it stores to the
    total. *)
Lemma add_all_utilization (specs : list (Z * Z * Z * Z)) :
  forall s,
    total_utilization (add_all s specs)
    = fold_left (fun acc t => PrimFloat.add acc (utilization t))
        (map new_task (firstn (MAX_RT_TASKS - task_count s) specs))
        (total_utilization s).
Proof.
  unfold add_all.
  induction specs as [|spec specs IH]; intros s; cbn [fold_left].
  - rewrite firstn_nil. reflexivity.
  - rewrite IH. unfold task_count. rewrite add_rt_task_tasks.
    unfold add_rt_task, task_count.
    destruct (Nat.ltb_spec (length (tasks s)) MAX_RT_TASKS) as [Hlt|Hge].
    + rewrite length_app. cbn [length].
      replace (MAX_RT_TASKS - length (tasks s))%nat
        with (S (MAX_RT_TASKS - (length (tasks s) + 1))) by lia.
      reflexivity.
    + replace (MAX_RT_TASKS - length (tasks s))%nat with 0%nat by lia.
      reflexivity.
Qed.

End RtDemoFacts.

(** ** The schedulability analysis *)

(** C9, as stated, fails: for the three tasks with execution times 5, 11
    and 1 and periods 12, 20 and 30 the utilization [5/12 + 11/20 + 1/30]
    is exactly 1, which is not above 1.0, yet [check_edf_schedulability]
    reports false.  The total it tests is accumulated in [double]
    arithmetic and comes out as [1 + 2^-52]. *)
Lemma edf_test_rejects_utilization_one :
  let s := RtDemo.add_all RtDemo.initialize_rt_scheduler
             [(1, 12, 5, 12); (2, 20, 11, 20); (3, 30, 1, 30)] in
  map (fun t => (RtDemo.execution_time t, RtDemo.period t)) (RtDemo.tasks s)
  = [(5, 12); (11, 20); (1, 30)]
  /\ QArith_base.Qeq_bool (RtDemo.exact_utilization (RtDemo.tasks s))
       (QArith_base.Qmake 1 1) = true
  /\ RtDemo.total_utilization s = 0x1.0000000000001p+0%float
  /\ fst (RtDemo.check_edf_schedulability s) = false.
Proof. repeat split; vm_compute; reflexivity. Qed.

(** C9, amended: the utilization the analysis works with is a [double]:
    for the task set built by [add_rt_task] calls (the first
    [MAX_RT_TASKS] of them count) every task holds the [double] quotient
    [(double)execution_time / period], and the total is the sum of these
    quotients added up in the order of the calls, each addition rounded.
    [check_edf_schedulability] returns true exactly when that total is at
    most [1.0], [check_rms_schedulability] exactly when it is at most the
    [double] value [n * (pow(2.0, 1.0/n) - 1.0)] for [n] tasks, and neither
    changes the scheduler. *)
Theorem schedulability_analysis_on_doubles (specs : list (Z * Z * Z * Z)) :
  let s := RtDemo.add_all RtDemo.initialize_rt_scheduler specs in
  let n := RtDemo.double_of_int (Z.of_nat (RtDemo.task_count s)) in
  map RtDemo.utilization (RtDemo.tasks s)
  = map (fun spec =>
           PrimFloat.div (RtDemo.double_of_int (snd (fst spec)))
                         (RtDemo.double_of_int (snd (fst (fst spec)))))
        (firstn RtDemo.MAX_RT_TASKS specs)
  /\ RtDemo.total_utilization s = RtDemo.utilization_sum (RtDemo.tasks s)
  /\ RtDemo.check_edf_schedulability s
     = (PrimFloat.leb (RtDemo.utilization_sum (RtDemo.tasks s)) 1%float, s)
  /\ forall pow : float -> float -> float,
       RtDemo.check_rms_schedulability pow s
       = (PrimFloat.leb (RtDemo.utilization_sum (RtDemo.tasks s))
            (PrimFloat.mul n
               (PrimFloat.sub (pow 2%float (PrimFloat.div 1%float n))
                              1%float)),
          s).
Proof.
  intros s n.
  assert (RtDemo.tasks s = map RtDemo.new_task (firstn RtDemo.MAX_RT_TASKS specs))
    as Htasks.
  { subst s. rewrite add_all_tasks.
    cbn [RtDemo.tasks RtDemo.initialize_rt_scheduler app].
    unfold RtDemo.task_count.
    cbn [RtDemo.tasks RtDemo.initialize_rt_scheduler length].
    rewrite Nat.sub_0_r. reflexivity. }
  assert (RtDemo.total_utilization s = RtDemo.utilization_sum (RtDemo.tasks s))
    as Htotal.
  { rewrite Htasks. subst s. rewrite add_all_utilization.
    unfold RtDemo.task_count.
    cbn [RtDemo.tasks RtDemo.initialize_rt_scheduler length
         RtDemo.total_utilization].
    rewrite Nat.sub_0_r. reflexivity. }
  split.
  { rewrite Htasks, map_map. reflexivity. }
  split; [exact Htotal|].
  split.
  - unfold RtDemo.check_edf_schedulability. rewrite Htotal. reflexivity.
  - intros pow. unfold RtDemo.check_rms_schedulability. rewrite Htotal.
    reflexivity.
Qed.



(** X26: after [reset_rt_scheduler] no task is active, so both selection
    functions return [NULL]; the clock and the miss and preemption counters
    are 0; resetting again changes nothing; and the parameters of the tasks
    are kept. *)
Theorem reset_rt_scheduler_spec (s : RtDemo.rt_scheduler_t) :
  let r := RtDemo.reset_rt_scheduler s in
  RtDemo.select_rms_task r = None
  /\ RtDemo.select_edf_task r = None
  /\ RtDemo.current_time r = 0
  /\ RtDemo.total_deadline_misses r = 0
  /\ RtDemo.total_preemptions r = 0
  /\ RtDemo.reset_rt_scheduler r = r
  /\ map RtDemo.task_parameters (RtDemo.tasks r)
     = map RtDemo.task_parameters (RtDemo.tasks s).
Proof.
  cbv zeta.
  assert (forall j t,
            RtDemo.tasks (RtDemo.reset_rt_scheduler s) !! j = Some t ->
            RtDemo.pending t = true -> False) as Hnone.
  { intros j t Hj Hp. cbn in Hj.
    change (map RtDemo.reset_task (RtDemo.tasks s))
      with (RtDemo.reset_task <$> RtDemo.tasks s) in Hj.
    rewrite list_lookup_fmap in Hj.
    destruct (RtDemo.tasks s !! j); [|discriminate].
    cbn in Hj. injection Hj as <-. discriminate Hp. }
  split; [|split; [|split; [|split; [|split; [|split]]]]];
    try reflexivity.
  - apply select_rms_task_None. intros j t Hj Hp.
    destruct (Hnone j t Hj Hp).
  - unfold RtDemo.select_edf_task.
    destruct (select_edf_loop_spec
                (RtDemo.tasks (RtDemo.reset_rt_scheduler s)) 0 None
                RtDemo.INT_MAX)
      as [[Heq _]|(j & t & Hj & Hp & _)].
    + rewrite Heq. reflexivity.
    + destruct (Hnone j t Hj Hp).
  - unfold RtDemo.reset_rt_scheduler. cbn [RtDemo.tasks RtDemo.hyperperiod
      RtDemo.schedulable]. f_equal. rewrite map_map. reflexivity.
  - cbn [RtDemo.reset_rt_scheduler RtDemo.tasks]. rewrite map_map. reflexivity.
Qed.

(** X27: [add_rt_task] keeps the first [MAX_RT_TASKS] tasks it is given, in
    the order given, and silently drops the rest; each stored task is
    inactive with no instance released, its RMS priority value is its
    period, and its deadline is its period when 0 was passed. *)
Theorem add_rt_task_keeps_first_ten (specs : list (Z * Z * Z * Z)) :
  RtDemo.tasks (RtDemo.add_all RtDemo.initialize_rt_scheduler specs)
  = map RtDemo.new_task (firstn RtDemo.MAX_RT_TASKS specs).
Proof.
  rewrite add_all_tasks. cbn [RtDemo.tasks RtDemo.initialize_rt_scheduler app].
  unfold RtDemo.task_count. cbn [RtDemo.tasks RtDemo.initialize_rt_scheduler length].
  rewrite Nat.sub_0_r. reflexivity.
Qed.

(** ** Preemption *)

Section PreemptionFacts.

Implicit Types (k : RTOS_Kernel) (t c : TCB) (i j h : nat).

Lemma running_count_positive k h t :
  tasks k !! h = Some t -> state t = TASK_RUNNING ->
  (1 <= running_count k)%nat.
Proof.
  intros Hh Hst. unfold running_count.
  assert (In t (List.filter is_running (tasks k))) as Hin.
  { apply filter_In. split.
    - apply list_elem_of_In, list_elem_of_lookup. eauto.
    - unfold is_running. rewrite Hst. reflexivity. }
  destruct (List.filter is_running (tasks k)); [destruct Hin|cbn; lia].
Qed.

Lemma should_preempt_true k c j t :
  tasks k !! j = Some t -> state t = TASK_READY -> priority c < priority t ->
  should_preempt k c = true.
Proof.
  intros Hj Hst Hlt. unfold should_preempt. apply existsb_exists.
  exists t. split.
  - apply list_elem_of_In, list_elem_of_lookup. eauto.
  - rewrite Hst. cbn. lia.
Qed.

End PreemptionFacts.

(** X28: preemption.  In a kernel reached through the interface let task
    [i] be Running.  If, once the unblock pass of the tick has run, some
    Ready task has a strictly higher priority, then the tick demotes task
    [i] to the ready set, dispatches a task out of that set, counts exactly
    one switch, and exactly one task is Running afterwards.  When the task
    dispatched is another one, task [i] is left Ready with its other fields
    as they were; the tasks that are neither [i] nor the one dispatched are
    as the unblock pass left them. *)
Theorem tick_preempts_for_higher_priority
  (ops : list op) (i j : nat) (c t : TCB) :
  let k := run ops rtos_init in
  let k1 := unblock_pass (advance_tick k) in
  tasks k !! i = Some c -> state c = TASK_RUNNING ->
  tasks k1 !! j = Some t -> state t = TASK_READY ->
  priority c < priority t ->
  let k' := rtos_tick_handler k in
  total_switches k' = u32_incr (total_switches k)
  /\ running_count k' = 1%nat
  /\ exists h t0,
       tasks k' !! h = Some (incr_run_count (set_state TASK_RUNNING t0))
       /\ current_task k' = h
       /\ (tasks k1 !! h = Some t0 /\ state t0 = TASK_READY
           \/ (h = i /\ t0 = set_state TASK_READY c))
       /\ (h <> i -> tasks k' !! i = Some (set_state TASK_READY c))
       /\ (forall m, m <> h -> m <> i -> tasks k' !! m = tasks k1 !! m).
Proof.
  intros k k1 Hi Hrun Hj Hst Hlt k'.
  pose proof (kernel_inv_run ops _ kernel_inv_init) as Hinv. fold k in Hinv.
  pose proof (kernel_inv_tick k Hinv) as Hinv'. fold k' in Hinv'.
  pose proof (kernel_inv_unblock_pass _ (kernel_inv_advance_tick k Hinv))
    as (Hid1 & Hrun1 & _). fold k1 in Hid1, Hrun1.
  destruct Hinv as (_ & Hcur & _).
  pose proof (Hcur i c Hi Hrun) as Hic.
  assert (tasks k1 !! i = Some c) as Hi1.
  { subst k1. cbn. rewrite lookup_map, Hi. cbn. unfold unblock.
    rewrite Hrun. reflexivity. }
  assert (current_task k1 = i) as Hc1 by (symmetry; exact Hic).
  remember (with_tasks (alter (set_state TASK_READY) i (tasks k1)) k1)
    as k2 eqn:Hk2.
  assert (k' = dispatch_next k2) as Hk'.
  { subst k'. unfold rtos_tick_handler. fold k1. unfold preempt_or_dispatch.
    rewrite Hc1 in *. rewrite Hi1, Hrun. cbn [TaskState_eqb].
    rewrite (should_preempt_true k1 c j t Hj Hst Hlt), Hk2. reflexivity. }
  assert (tasks k2 !! i = Some (set_state TASK_READY c)) as Hi2.
  { rewrite Hk2. cbn. rewrite list_lookup_alter_eq. cbn in Hi1.
    rewrite Hi1. reflexivity. }
  destruct (dispatch_next_some_ready k2 i _ Hi2 eq_refl)
    as (h & t0 & Ht0 & Hst0 & Heq).
  assert (id t0 = h) as Hidh.
  { assert (ids_ok k2) as Hid2
      by (rewrite Hk2; apply ids_ok_alter; [assumption|reflexivity]).
    exact (Hid2 h t0 Ht0). }
  assert (tasks k' !! h = Some (incr_run_count (set_state TASK_RUNNING t0)))
    as Hh'.
  { rewrite Hk', Heq. cbn. rewrite !list_lookup_alter_eq, Ht0. reflexivity. }
  split; [rewrite Hk', Heq, Hk2; reflexivity|].
  split.
  - apply Nat.le_antisymm; [apply kernel_inv_running_count, Hinv'|].
    apply (running_count_positive k' h _ Hh'). reflexivity.
  - exists h, t0. split; [exact Hh'|].
    split; [rewrite Hk', Heq; exact Hidh|].
    split; [|split].
    + destruct (decide (h = i)) as [->|Hne].
      * right. split; [reflexivity|]. congruence.
      * left. split; [|assumption].
        rewrite Hk2 in Ht0. cbn in Ht0.
        rewrite list_lookup_alter_ne in Ht0 by congruence. exact Ht0.
    + intros Hne. rewrite Hk', Heq. cbn.
      rewrite !list_lookup_alter_ne by assumption. exact Hi2.
    + intros m Hmh Hmi. rewrite Hk', Heq, Hk2. cbn.
      rewrite !list_lookup_alter_ne by congruence. reflexivity.
Qed.

Lemma tick_preempts_for_higher_priority_witness :
  let k := run [create_task 1 1000 1000; tick; create_task 3 2000 2000]
               rtos_init in
  map state (tasks k) = [TASK_RUNNING; TASK_READY]
  /\ map state (tasks (rtos_tick_handler k)) = [TASK_READY; TASK_RUNNING]
  /\ total_switches (rtos_tick_handler k) = u32_incr (total_switches k)
  /\ running_count (rtos_tick_handler k) = 1%nat.
Proof.
  intros k. split; [reflexivity|].
  destruct (tick_preempts_for_higher_priority
              [create_task 1 1000 1000; tick; create_task 3 2000 2000]
              0%nat 1%nat
              (mkTCB 0 1 1000 1000 TASK_RUNNING 0 0 1)
              (mkTCB 1 3 2000 2000 TASK_READY 0 0 0)
              eq_refl eq_refl eq_refl eq_refl eq_refl)
    as (Hsw & Hrc & _).
  split; [reflexivity|]. split; assumption.
Defined.
